(** * character-range: intervals, index maps, the incrementable index
      collection and string/bytes ranges

    A shallow embedding of [character_and_byte_map.py] and
    [string_and_bytes_range.py].  Python integers are [Z]; a [str] is the
    list of its code points and a [bytes] object the list of its byte
    values; dictionaries are [gmap]s; an exception is a constructor of
    [exn] carried by [result].  The lookup caches of an [IndexMap] are the
    only state that changes after construction: code that reads or fills
    them runs in a state-and-error monad over the map. *)

From Stdlib Require Import ZArith Lia.
From Stdlib Require String Ascii.
Import String.StringSyntax.
Delimit Scope string_scope with string.
From stdpp Require Import gmap list.

Local Open Scope Z_scope.

(** ** Python values *)

Inductive object :=
  | PyStr (code_points : list Z)
  | PyBytes (byte_values : list Z)
  | PyInt (n : Z)
  | PyOther.

Inductive type := type_str | type_bytes | type_int | type_object.

#[global] Instance object_eq_dec : EqDecision object.
Proof. solve_decision. Defined.

#[global] Instance type_eq_dec : EqDecision type.
Proof. solve_decision. Defined.

Definition object_to_sum (o : object) : list Z + (list Z + (Z + unit)) :=
  match o with
  | PyStr s => inl s
  | PyBytes b => inr (inl b)
  | PyInt n => inr (inr (inl n))
  | PyOther => inr (inr (inr tt))
  end.

Definition sum_to_object (s : list Z + (list Z + (Z + unit))) : object :=
  match s with
  | inl s => PyStr s
  | inr (inl b) => PyBytes b
  | inr (inr (inl n)) => PyInt n
  | inr (inr (inr _)) => PyOther
  end.

#[global] Instance object_countable : Countable object.
Proof.
  apply (inj_countable' object_to_sum sum_to_object).
  by intros [].
Defined.

(** ** Exceptions and fallible results *)

Inductive exn :=
  | NoIntervals
  | OverlappingIntervals
  | ConfigurationConflict
  | NotACharacter
  | NotAByte
  | InvalidIntervalDirection
  | InvalidIndex
  | InvalidChar
  | InvalidEndpoints
  | InvalidRangeDirection
  | _EmptyListOfIndices
  | _InvalidBase
  | IndexError
  | LookupError
  | ValueError
  | TypeError
  | AssertionError
  | RuntimeError.

#[global] Instance exn_eq_dec : EqDecision exn.
Proof. solve_decision. Defined.

(** [except (LookupError, ValueError)]: the classes of this package that
    derive from either of the two. *)
Definition is_LookupError_or_ValueError (e : exn) : bool :=
  match e with
  | TypeError | AssertionError | RuntimeError => false
  | _ => true
  end.

Inductive result (A : Type) :=
  | Ok (a : A)
  | Raise (e : exn).
Arguments Ok {A} a.
Arguments Raise {A} e.

Definition bind {A B} (r : result A) (f : A -> result B) : result B :=
  match r with
  | Ok a => f a
  | Raise e => Raise e
  end.

Notation "'let?' x ':=' c 'in' k" := (bind c (fun x => k))
  (at level 10, x name, c at level 100, k at level 200).
Notation "'let?' ' p ':=' c 'in' k" :=
  (bind c (fun x => match x with p => k end))
  (at level 10, p pattern, c at level 100, k at level 200).

(** ** Built-ins *)

Definition isinstance (o : object) (t : type) : bool :=
  match o, t with
  | PyStr _, type_str => true
  | PyBytes _, type_bytes => true
  | PyInt _, type_int => true
  | _, type_object => true
  | _, _ => false
  end.

Definition len (o : object) : result Z :=
  match o with
  | PyStr s => Ok (Z.of_nat (length s))
  | PyBytes b => Ok (Z.of_nat (length b))
  | _ => Raise TypeError
  end.

Definition ord (o : object) : result Z :=
  match o with
  | PyStr [c] => Ok c
  | PyBytes [c] => Ok c
  | _ => Raise TypeError
  end.

(** [chr(i)] and [i.to_bytes(1, 'big')].  Both are only ever applied to an
    integer that lies between the code points of two existing symbols or
    that was checked against the size of the map, so their range errors are
    not represented. *)
Definition chr (i : Z) : object := PyStr [i].
Definition to_bytes (i : Z) : object := PyBytes [i].

(** [range(start, stop)], as the list of the integers it yields. *)
Definition range (start stop : Z) : list Z := seqZ start (stop - start).

(** Ordering of sequences (strings by code point, bytes by value, tuples
    of integers): the first position that differs decides, and a proper
    prefix comes first. *)
Fixpoint seq_lt (a b : list Z) : bool :=
  match a, b with
  | [], [] => false
  | [], _ :: _ => true
  | _ :: _, [] => false
  | x :: a', y :: b' => if x =? y then seq_lt a' b' else x <? y
  end.

Definition lt (a b : object) : result bool :=
  match a, b with
  | PyStr x, PyStr y => Ok (seq_lt x y)
  | PyBytes x, PyBytes y => Ok (seq_lt x y)
  | PyInt x, PyInt y => Ok (x <? y)
  | _, _ => Raise TypeError
  end.

Definition gt (a b : object) : result bool := lt b a.

Definition le (a b : object) : result bool :=
  match a, b with
  | PyStr x, PyStr y => Ok (negb (seq_lt y x))
  | PyBytes x, PyBytes y => Ok (negb (seq_lt y x))
  | PyInt x, PyInt y => Ok (x <=? y)
  | _, _ => Raise TypeError
  end.

(** [min(a, b)] and [max(a, b)] keep the first argument on a tie. *)
Definition min (a b : object) : result object :=
  let? c := lt b a in Ok (if c : bool then b else a).

Definition max (a b : object) : result object :=
  let? c := gt b a in Ok (if c : bool then b else a).

Fixpoint enumerate_from {A} (k : Z) (l : list A) : list (Z * A) :=
  match l with
  | [] => []
  | x :: l' => (k, x) :: enumerate_from (k + 1) l'
  end.

Definition enumerate {A} (l : list A) : list (Z * A) := enumerate_from 0 l.

Definition _is_char_of_type (value : object) (expected_type : type)
  : result bool :=
  if isinstance value expected_type
  then let? n := len value in Ok (n =? 1)
  else Ok false.

(** [_split(value)]: the one-symbol strings (or bytes objects) of a value.
    Its callers have taken [len(value)] before, so that it only meets a
    [str] or a [bytes] object. *)
Definition _split (value : object) : list object :=
  match value with
  | PyStr s => (fun c => PyStr [c]) <$> s
  | PyBytes b => (fun c => PyBytes [c]) <$> b
  | _ => []
  end.

(** ** Interval: CharacterInterval and ByteInterval *)

Module Interval.

Inductive class := CharacterInterval | ByteInterval.

#[global] Instance class_eq_dec : EqDecision class.
Proof. solve_decision. Defined.

Record Interval := {
  __class__ : class;
  start : object;
  end_ : object
}.

Definition element_type (self : Interval) : type :=
  match __class__ self with
  | CharacterInterval => type_str
  | ByteInterval => type_bytes
  end.

(** [__post_init__] passes [NotACharacter] or [NotAByte]. *)
Definition exception_type (cls : class) : exn :=
  match cls with
  | CharacterInterval => NotACharacter
  | ByteInterval => NotAByte
  end.

Definition _validate (self : Interval) (exception_type : exn)
  : result unit :=
  let? start_ok := _is_char_of_type (start self) (element_type self) in
  if negb start_ok then Raise exception_type else
  let? end_ok := _is_char_of_type (end_ self) (element_type self) in
  if negb end_ok then Raise exception_type else
  let? backwards := gt (start self) (end_ self) in
  if backwards : bool then Raise InvalidIntervalDirection else Ok ().

(** The dataclass constructor followed by [__post_init__]. *)
Definition new (cls : class) (start end_ : object) : result Interval :=
  let self := {| __class__ := cls; start := start; end_ := end_ |} in
  let? _ := _validate self (exception_type cls) in
  Ok self.

Definition to_codepoint_range (self : Interval) : result (list Z) :=
  let? lo := ord (start self) in
  let? hi := ord (end_ self) in
  Ok (range lo (hi + 1)).

Definition __len__ (self : Interval) : result Z :=
  let? r := to_codepoint_range self in Ok (Z.of_nat (length r)).

Definition __iter__ (self : Interval) : result (list object) :=
  let? r := to_codepoint_range self in
  Ok (match __class__ self with
      | CharacterInterval => chr <$> r
      | ByteInterval => to_bytes <$> r
      end).

Definition class_of (o : object) : type :=
  match o with
  | PyStr _ => type_str
  | PyBytes _ => type_bytes
  | PyInt _ => type_int
  | PyOther => type_object
  end.

Definition __contains__ (self : Interval) (item : object) : result bool :=
  if negb (isinstance item (class_of (start self))) then Ok false else
  let? n := len item in
  if negb (n =? 1) then Ok false else
  let? above := le (start self) item in
  if negb above then Ok false else le item (end_ self).

(** [isinstance(other, self.__class__)] fails for an interval of the
    other class; both operands then answer [NotImplemented] and the
    operator raises [TypeError]. *)
Definition __and__ (self other : Interval) : result bool :=
  if negb (bool_decide (__class__ other = __class__ self))
  then Raise TypeError else
  let? earlier_end := min (end_ self) (end_ other) in
  let? later_start := max (start self) (start other) in
  le later_start earlier_end.

Definition intersects (self other : Interval) : result bool :=
  __and__ self other.

(** [CharacterInterval.__getitem__] and [ByteInterval.__getitem__].  The
    second one rejects an item that is not an integer by itself; in the
    first one the comparison [0 <= item] does. *)
Definition __getitem__ (self : Interval) (item : object) : result object :=
  match item with
  | PyInt item =>
      let? inside :=
        if negb (0 <=? item) then Ok false
        else let? n := __len__ self in Ok (item <? n) in
      if negb inside then Raise IndexError else
      let? first := ord (start self) in
      Ok (match __class__ self with
          | CharacterInterval => chr (first + item)
          | ByteInterval => to_bytes (first + item)
          end)
  | _ => Raise TypeError
  end.

(** [__eq__] answers [NotImplemented], here [None], for an interval of
    another class. *)
Definition __eq__ (self other : Interval) : result (option bool) :=
  if negb (bool_decide (__class__ other = __class__ self)) then Ok None else
  let? mine := to_codepoint_range self in
  let? theirs := to_codepoint_range other in
  Ok (Some (bool_decide (mine = theirs))).

End Interval.

(** ** _IncrementableIndexCollection *)

Module _IncrementableIndexCollection.

Record _IncrementableIndexCollection := {
  _inverted_indices : list Z;
  _base : Z
}.

Definition __init__ (indices : list Z) (base : Z)
  : result _IncrementableIndexCollection :=
  let self := {| _inverted_indices := rev indices; _base := base |} in
  if bool_decide (_inverted_indices self = []) then Raise _EmptyListOfIndices
  else if base <? 1 then Raise _InvalidBase
  else Ok self.

Definition __index__ (self : _IncrementableIndexCollection) : Z :=
  fold_left
    (fun total '(order_of_magnitude, index) =>
       total + index * _base self ^ order_of_magnitude)
    (enumerate (_inverted_indices self)) 0.

Definition __len__ (self : _IncrementableIndexCollection) : Z :=
  Z.of_nat (length (_inverted_indices self)).

Definition __iter__ (self : _IncrementableIndexCollection) : list Z :=
  rev (_inverted_indices self).

Definition _indices (self : _IncrementableIndexCollection) : list Z :=
  __iter__ self.

Definition __lt__ (self other : _IncrementableIndexCollection) : bool :=
  if __len__ self <? __len__ other then true
  else (__len__ self =? __len__ other)
       && seq_lt (_indices self) (_indices other).

Definition __eq__ (self other : _IncrementableIndexCollection) : bool :=
  (_base self =? _base other)
  && bool_decide (_indices self = _indices other).

(** The comparisons that [functools.total_ordering] derives from
    [__lt__] and [__eq__]. *)
Definition __le__ (self other : _IncrementableIndexCollection) : bool :=
  __lt__ self other || __eq__ self other.

Definition __gt__ (self other : _IncrementableIndexCollection) : bool :=
  negb (__lt__ self other) && negb (__eq__ self other).

Definition __ge__ (self other : _IncrementableIndexCollection) : bool :=
  negb (__lt__ self other).

(** The [for] loop of [increment] over the remaining orders of
    magnitude; when it runs out, a new index 0 is appended. *)
Fixpoint increment_loop (orders : list nat) (indices : list Z) (base : Z)
  : list Z :=
  match orders with
  | [] => indices ++ [0]
  | order_of_magnitude :: orders' =>
      let bumped :=
        <[order_of_magnitude := default 0 (indices !! order_of_magnitude) + 1]>
          indices in
      if default 0 (bumped !! order_of_magnitude) <? base then bumped
      else increment_loop orders' (<[order_of_magnitude := 0]> bumped) base
  end.

Definition increment (self : _IncrementableIndexCollection)
  : _IncrementableIndexCollection :=
  {| _inverted_indices :=
       increment_loop (seq 0 (length (_inverted_indices self)))
         (_inverted_indices self) (_base self);
     _base := _base self |}.

End _IncrementableIndexCollection.

(** ** IndexMap: CharacterMap and ByteMap *)

Module IndexMap.

Record _Searchers := {
  lookup_char : option (object -> result object);
  lookup_index : option (Z -> result object)
}.

Definition given {A} (f : option A) : bool :=
  match f with Some _ => true | None => false end.

Definition both_given (self : _Searchers) : bool :=
  given (lookup_char self) && given (lookup_index self).

Definition both_omitted (self : _Searchers) : bool :=
  negb (given (lookup_char self)) && negb (given (lookup_index self)).

Definition only_one_given (self : _Searchers) : bool :=
  negb (both_given self) && negb (both_omitted self).

Record IndexMap := {
  _intervals : list Interval.Interval;
  _char_to_index : gmap object Z;
  _index_to_char : gmap Z object;
  _searchers : _Searchers;
  _element_type : type;
  _maps_populated : bool;
  _not_a_char_exception : exn
}.

(** *** Construction *)

Definition _intervals_must_have_same_type
  (intervals : list Interval.Interval) : result unit :=
  let interval_types := remove_dups (Interval.__class__ <$> intervals) in
  if (1 <? length interval_types)%nat then Raise ConfigurationConflict
  else Ok ().

(** [any(...)] over a generator: stops at the first true element. *)
Fixpoint any {A} (f : A -> result bool) (l : list A) : result bool :=
  match l with
  | [] => Ok false
  | x :: l' => let? b := f x in if b : bool then Ok true else any f l'
  end.

Fixpoint _intervals_must_not_overlap_loop
  (intervals seen : list Interval.Interval) : result unit :=
  match intervals with
  | [] => Ok ()
  | current_interval :: intervals' =>
      let? overlapped := any (Interval.intersects current_interval) seen in
      if overlapped : bool then Raise OverlappingIntervals
      else _intervals_must_not_overlap_loop intervals'
             (seen ++ [current_interval])
  end.

Definition _intervals_must_not_overlap
  (intervals : list Interval.Interval) : result unit :=
  _intervals_must_not_overlap_loop intervals [].

(** The body of the loop of [_populate_maps] over the symbols of one
    interval; [index] is the counter of [enumerate]. *)
Fixpoint _populate_maps_chars (chars : list object) (index : Z)
  (char_to_index : gmap object Z) (index_to_char : gmap Z object)
  : result (Z * gmap object Z * gmap Z object) :=
  match chars with
  | [] => Ok (index, char_to_index, index_to_char)
  | char :: chars' =>
      if bool_decide (is_Some (char_to_index !! char))
      then Raise OverlappingIntervals
      else _populate_maps_chars chars' (index + 1)
             (<[char := index]> char_to_index)
             (<[index := char]> index_to_char)
  end.

(** [chain.from_iterable] opens the intervals one after the other. *)
Fixpoint _populate_maps_loop (intervals : list Interval.Interval)
  (index : Z) (char_to_index : gmap object Z) (index_to_char : gmap Z object)
  : result (gmap object Z * gmap Z object) :=
  match intervals with
  | [] => Ok (char_to_index, index_to_char)
  | interval :: intervals' =>
      let? chars := Interval.__iter__ interval in
      let? '(index', char_to_index', index_to_char') :=
        _populate_maps_chars chars index char_to_index index_to_char in
      _populate_maps_loop intervals' index' char_to_index' index_to_char'
  end.

Definition _populate_maps (intervals : list Interval.Interval)
  : result (gmap object Z * gmap Z object) :=
  _populate_maps_loop intervals 0 ∅ ∅.

Definition __init__ (intervals : list Interval.Interval)
  (lookup_char : option (object -> result object))
  (lookup_index : option (Z -> result object)) : result IndexMap :=
  let searchers :=
    {| lookup_char := lookup_char; lookup_index := lookup_index |} in
  if only_one_given searchers then Raise ConfigurationConflict else
  match intervals with
  | [] => Raise NoIntervals
  | first :: _ =>
      let? _ := _intervals_must_have_same_type intervals in
      let element_type := Interval.element_type first in
      let? not_a_char_exception :=
        match element_type with
        | type_str => Ok NotACharacter
        | type_bytes => Ok NotAByte
        | _ => Raise RuntimeError
        end in
      if both_given searchers then
        let? _ := _intervals_must_not_overlap intervals in
        Ok {| _intervals := intervals;
              _char_to_index := ∅;
              _index_to_char := ∅;
              _searchers := searchers;
              _element_type := element_type;
              _maps_populated := false;
              _not_a_char_exception := not_a_char_exception |}
      else
        let? '(char_to_index, index_to_char) := _populate_maps intervals in
        Ok {| _intervals := intervals;
              _char_to_index := char_to_index;
              _index_to_char := index_to_char;
              _searchers := searchers;
              _element_type := element_type;
              _maps_populated := true;
              _not_a_char_exception := not_a_char_exception |}
  end.

(** *** Size *)

Fixpoint sum_of_lengths (intervals : list Interval.Interval) (total : Z)
  : result Z :=
  match intervals with
  | [] => Ok total
  | interval :: intervals' =>
      let? n := Interval.__len__ interval in
      sum_of_lengths intervals' (total + n)
  end.

(** [__len__] is memoised with [functools.cache]; its value depends on
    the intervals only once construction is over, so the memo table is
    not represented. *)
Definition __len__ (self : IndexMap) : result Z :=
  if _maps_populated self then Ok (Z.of_nat (size (_char_to_index self)))
  else sum_of_lengths (_intervals self) 0.

(** *** Lookups: state and errors over the map and its caches *)

Definition M (A : Type) : Type := IndexMap -> result A * IndexMap.

Definition ret {A} (a : A) : M A := fun self => (Ok a, self).

Definition raise {A} (e : exn) : M A := fun self => (Raise e, self).

Definition mbind {A B} (c : M A) (f : A -> M B) : M B := fun self =>
  match c self with
  | (Ok a, self') => f a self'
  | (Raise e, self') => (Raise e, self')
  end.

Definition lift {A} (r : result A) : M A := fun self => (r, self).

Definition get : M IndexMap := fun self => (Ok self, self).

Definition put (self' : IndexMap) : M unit := fun _ => (Ok (), self').

Notation "'let!' x ':=' c 'in' k" := (mbind c (fun x => k))
  (at level 10, x name, c at level 100, k at level 200).

(** [try: c  except (LookupError, ValueError): handler  else: k] *)
Definition try_except_else {A B} (c : M A) (handler : M B) (k : A -> M B)
  : M B := fun self =>
  match c self with
  | (Ok a, self') => k a self'
  | (Raise e, self') =>
      if is_LookupError_or_ValueError e then handler self'
      else (Raise e, self')
  end.

(** The branch of [__contains__] for an integer, [0 <= item < len(self)];
    [_get_index_given_char] reaches it through [result not in self]. *)
Definition __contains__int (item : Z) (self : IndexMap) : result bool :=
  if negb (0 <=? item) then Ok false
  else let? n := __len__ self in Ok (item <? n).

Definition _get_index_given_char (char : object) : M Z :=
  let! self := get in
  let! is_char := lift (_is_char_of_type char (_element_type self)) in
  if negb is_char then raise (_not_a_char_exception self) else
  match _char_to_index self !! char with
  | Some index => ret index
  | None =>
      match lookup_char (_searchers self) with
      | None => raise LookupError
      | Some lookup_char =>
          let! result := lift (lookup_char char) in
          let! valid :=
            match result with
            | PyInt i => lift (__contains__int i self)
            | _ => ret false
            end in
          if negb valid
          then let! _ := lift (__len__ self) in raise InvalidIndex
          else
            match result with
            | PyInt i =>
                let! _ := put {|
                  _intervals := _intervals self;
                  _char_to_index := <[char := i]> (_char_to_index self);
                  _index_to_char := _index_to_char self;
                  _searchers := _searchers self;
                  _element_type := _element_type self;
                  _maps_populated := _maps_populated self;
                  _not_a_char_exception := _not_a_char_exception self |} in
                ret i
            | _ => raise InvalidIndex
            end
      end
  end.

Definition __contains__ (item : object) : M bool :=
  let! self := get in
  if negb (isinstance item (_element_type self) || isinstance item type_int)
  then ret false else
  match item with
  | PyInt i => lift (__contains__int i self)
  | _ =>
      try_except_else (_get_index_given_char item)
        (ret false)
        (fun _ => ret true)
  end.

Definition _get_char_given_index (index : Z) : M object :=
  let! self := get in
  let! inside := lift (__contains__int index self) in
  if negb inside then raise IndexError else
  match _index_to_char self !! index with
  | Some char => ret char
  | None =>
      match lookup_index (_searchers self) with
      | None => raise AssertionError
      | Some lookup_index =>
          let! result := lift (lookup_index index) in
          let! is_char :=
            lift (_is_char_of_type result (_element_type self)) in
          if negb is_char then raise InvalidChar else
          let! _ := put {|
            _intervals := _intervals self;
            _char_to_index := _char_to_index self;
            _index_to_char := <[index := result]> (_index_to_char self);
            _searchers := _searchers self;
            _element_type := _element_type self;
            _maps_populated := _maps_populated self;
            _not_a_char_exception := _not_a_char_exception self |} in
          ret result
      end
  end.

Definition __getitem__ (item : object) : M object :=
  let! self := get in
  match item with
  | PyInt index => _get_char_given_index index
  | _ =>
      if isinstance item (_element_type self)
      then let! index := _get_index_given_char item in ret (PyInt index)
      else raise TypeError
  end.

(** *** Combination *)

(** The right operand of [+]: an interval or another map. *)
Inductive operand :=
  | an_interval (other : Interval.Interval)
  | a_map (other : IndexMap).

Definition operand_element_type (other : operand) : type :=
  match other with
  | an_interval other => Interval.element_type other
  | a_map other => _element_type other
  end.

(** [self._searchers != other._searchers] compares the two pairs of lookup
    functions.  [None] equals [None] only; two functions are compared by
    identity, which they do not have here: [same_functions] tells whether
    the functions of the two maps are the same objects. *)
Definition searchers_differ (mine theirs : _Searchers) (same_functions : bool)
  : bool :=
  match lookup_char mine, lookup_char theirs,
        lookup_index mine, lookup_index theirs with
  | None, None, None, None => false
  | Some _, Some _, Some _, Some _ => negb same_functions
  | Some _, Some _, None, None => negb same_functions
  | None, None, Some _, Some _ => negb same_functions
  | _, _, _, _ => true
  end.

(** The new map is built by the constructor: it starts with tables or
    caches of its own. *)
Definition __add__ (self : IndexMap) (other : operand) (same_functions : bool)
  : result IndexMap :=
  if negb (bool_decide (operand_element_type other = _element_type self))
  then Raise ConfigurationConflict else
  let lookup_char := lookup_char (_searchers self) in
  let lookup_index := lookup_index (_searchers self) in
  match other with
  | an_interval other =>
      __init__ (_intervals self ++ [other]) lookup_char lookup_index
  | a_map other =>
      if searchers_differ (_searchers self) (_searchers other) same_functions
      then Raise ConfigurationConflict
      else __init__ (_intervals self ++ _intervals other)
             lookup_char lookup_index
  end.

End IndexMap.

Notation "'let!' x ':=' c 'in' k" := (IndexMap.mbind c (fun x => k))
  (at level 10, x name, c at level 100, k at level 200).

(** ** Pre-built maps *)

(** A string literal as a [str] object (the code points of its
    characters) or as a [bytes] object. *)
Definition code_points (s : String.string) : list Z :=
  (fun a => Z.of_N (Ascii.N_of_ascii a)) <$> String.list_ascii_of_string s.

Definition str (s : String.string) : object := PyStr (code_points s).
Definition bytes (s : String.string) : object := PyBytes (code_points s).
Arguments code_points s%_string.
Arguments str s%_string.
Arguments bytes s%_string.

Definition _ascii_index_from_char_or_byte (char_or_byte : object)
  : result object :=
  let? codepoint := ord char_or_byte in
  if negb ((0 <=? codepoint) && (codepoint <=? 255)) then Raise ValueError
  else Ok (PyInt codepoint).

Definition _ascii_char_from_index (index : Z) : result object :=
  Ok (chr index).

Definition _ascii_byte_from_index (index : Z) : result object :=
  Ok (to_bytes index).

(** A class attribute holding a list of intervals, each of them the result
    of a constructor call; [_instantiate_members] turns the list into a
    map. *)
Fixpoint intervals_of (l : list (result Interval.Interval))
  : result (list Interval.Interval) :=
  match l with
  | [] => Ok []
  | r :: l' =>
      let? interval := r in
      let? intervals := intervals_of l' in
      Ok (interval :: intervals)
  end.

Module CharacterMap.

Definition CharacterInterval (start end_ : String.string) :=
  Interval.new Interval.CharacterInterval (str start) (str end_).
Arguments CharacterInterval (start end_)%_string.

Definition ASCII_LOWERCASE := [CharacterInterval "a" "z"].
Definition ASCII_UPPERCASE := [CharacterInterval "A" "Z"].
Definition ASCII_LETTERS := ASCII_LOWERCASE ++ ASCII_UPPERCASE.
Definition ASCII_DIGITS := [CharacterInterval "0" "9"].
Definition LOWERCASE_HEX_DIGITS := ASCII_DIGITS ++ [CharacterInterval "a" "f"].
Definition UPPERCASE_HEX_DIGITS := ASCII_DIGITS ++ [CharacterInterval "A" "F"].
Definition LOWERCASE_BASE_36 := ASCII_DIGITS ++ ASCII_LOWERCASE.
Definition UPPERCASE_BASE_36 := ASCII_DIGITS ++ ASCII_UPPERCASE.

(** [cls(value)] for a member that is a list of intervals. *)
Definition member (value : list (result Interval.Interval))
  : result IndexMap.IndexMap :=
  let? intervals := intervals_of value in
  IndexMap.__init__ intervals None None.

(** [cls( *value)] for [ASCII], a tuple of intervals and lookups. *)
Definition ASCII : result IndexMap.IndexMap :=
  let? intervals :=
    intervals_of
      [Interval.new Interval.CharacterInterval (PyStr [0]) (PyStr [255])] in
  IndexMap.__init__ intervals
    (Some _ascii_index_from_char_or_byte) (Some _ascii_char_from_index).

Definition NON_ASCII : result IndexMap.IndexMap :=
  let? intervals :=
    intervals_of
      [Interval.new Interval.CharacterInterval
         (PyStr [0x100]) (PyStr [0x10FFFF])] in
  IndexMap.__init__ intervals
    (Some (fun char => let? codepoint := ord char in
                       Ok (PyInt (codepoint - 0x100))))
    (Some (fun index => Ok (chr (index + 0x100)))).

Definition UNICODE : result IndexMap.IndexMap :=
  let? intervals :=
    intervals_of
      [Interval.new Interval.CharacterInterval
         (PyStr [0]) (PyStr [0x10FFFF])] in
  IndexMap.__init__ intervals
    (Some (fun char => let? codepoint := ord char in Ok (PyInt codepoint)))
    (Some (fun index => Ok (chr index))).

End CharacterMap.

Module ByteMap.

Definition ByteInterval (start end_ : String.string) :=
  Interval.new Interval.ByteInterval (bytes start) (bytes end_).
Arguments ByteInterval (start end_)%_string.

Definition ASCII_LOWERCASE := [ByteInterval "a" "z"].
Definition ASCII_UPPERCASE := [ByteInterval "A" "Z"].
Definition ASCII_LETTERS := ASCII_LOWERCASE ++ ASCII_UPPERCASE.
Definition ASCII_DIGITS := [ByteInterval "0" "9"].

Definition LOWERCASE_HEX_DIGITS := ASCII_DIGITS ++ [ByteInterval "a" "f"].
Definition UPPERCASE_HEX_DIGITS := ASCII_DIGITS ++ [ByteInterval "A" "F"].
Definition LOWERCASE_BASE_36 := ASCII_DIGITS ++ ASCII_LOWERCASE.
Definition UPPERCASE_BASE_36 := ASCII_DIGITS ++ ASCII_UPPERCASE.

Definition member (value : list (result Interval.Interval))
  : result IndexMap.IndexMap :=
  let? intervals := intervals_of value in
  IndexMap.__init__ intervals None None.

Definition ASCII : result IndexMap.IndexMap :=
  let? intervals :=
    intervals_of
      [Interval.new Interval.ByteInterval (PyBytes [0]) (PyBytes [255])] in
  IndexMap.__init__ intervals
    (Some _ascii_index_from_char_or_byte) (Some _ascii_byte_from_index).

End ByteMap.

(** [CharacterInterval.__add__] and [ByteInterval.__add__]: the map of the
    two intervals; [NotImplemented], and then [TypeError], for an interval
    of the other class. *)
Definition Interval___add__ (self other : Interval.Interval)
  : result IndexMap.IndexMap :=
  if negb (bool_decide (Interval.__class__ other = Interval.__class__ self))
  then Raise TypeError
  else IndexMap.__init__ [self; other] None None.

(** ** _Range: StringRange and BytesRange *)

Module _Range.

Import IndexMap.

Inductive class := StringRange | BytesRange.

(** The range holds a reference to a shared map, whose caches lookups
    may fill: [_map] is the map that the monad [M] carries. *)
Record _Range := {
  __class__ : class;
  _start : object;
  _end : object
}.

(** [all(...)] over a generator: stops at the first false element. *)
Fixpoint all {A} (f : A -> M bool) (l : list A) : M bool :=
  match l with
  | [] => ret true
  | x :: l' => let! b := f x in if b : bool then all f l' else ret false
  end.

(** A generator consumed to the end, or to the first exception. *)
Fixpoint for_each {A B} (f : A -> M B) (l : list A) : M (list B) :=
  match l with
  | [] => ret []
  | x :: l' =>
      let! y := f x in
      let! ys := for_each f l' in
      ret (y :: ys)
  end.

Definition _is_valid_endpoint (value : object) : M bool :=
  let! n := lift (len value) in
  if negb (0 <? n) then ret false
  else all IndexMap.__contains__ (_split value).

Definition __init__ (cls : class) (start end_ : object) : M _Range :=
  let self := {| __class__ := cls; _start := start; _end := end_ |} in
  let! start_is_valid := _is_valid_endpoint start in
  let! end_is_valid := _is_valid_endpoint end_ in
  if negb start_is_valid || negb end_is_valid then raise InvalidEndpoints
  else
    let! len_start := lift (len start) in
    let! len_end := lift (len end_) in
    if len_end <? len_start then raise InvalidRangeDirection
    else if len_start =? len_end then
      let! after := lift (gt start end_) in
      if after : bool then raise InvalidRangeDirection else ret self
    else ret self.

(** The indices are the integers that [self._map[char]] returns. *)
Definition as_index (o : object) : M Z :=
  match o with
  | PyInt i => ret i
  | _ => raise TypeError
  end.

Definition _make_collection (value : object)
  : M _IncrementableIndexCollection._IncrementableIndexCollection :=
  let! map := get in
  let! base := lift (IndexMap.__len__ map) in
  let! indices :=
    for_each
      (fun char => let! index := IndexMap.__getitem__ char in as_index index)
      (_split value) in
  lift (_IncrementableIndexCollection.__init__ indices base).

(** [''.join(...)] and [b''.join(...)]. *)
Fixpoint join (cls : class) (items : list object) : result (list Z) :=
  match items with
  | [] => Ok []
  | item :: items' =>
      let? rest := join cls items' in
      match cls, item with
      | StringRange, PyStr s => Ok (s ++ rest)
      | BytesRange, PyBytes b => Ok (b ++ rest)
      | _, _ => Raise TypeError
      end
  end.

Definition _make_element (self : _Range)
  (indices : _IncrementableIndexCollection._IncrementableIndexCollection)
  : M object :=
  let! chars :=
    for_each (fun index => IndexMap.__getitem__ (PyInt index))
      (_IncrementableIndexCollection.__iter__ indices) in
  let! joined := lift (join (__class__ self) chars) in
  ret (match __class__ self with
       | StringRange => PyStr joined
       | BytesRange => PyBytes joined
       end).

(** The [while] loop of [__iter__], run until the generator is
    exhausted; [None] when [fuel] rounds were not enough. *)
Fixpoint __iter___loop (fuel : nat) (self : _Range)
  (current end_ : _IncrementableIndexCollection._IncrementableIndexCollection)
  : M (option (list object)) :=
  if _IncrementableIndexCollection.__le__ current end_ then
    match fuel with
    | O => ret None
    | S fuel' =>
        let! element := _make_element self current in
        let! rest :=
          __iter___loop fuel' self
            (_IncrementableIndexCollection.increment current) end_ in
        ret (cons element <$> rest)
    end
  else ret (Some []).

Definition __iter__ (fuel : nat) (self : _Range) : M (option (list object)) :=
  let! current := _make_collection (_start self) in
  let! end_ := _make_collection (_end self) in
  __iter___loop fuel self current end_.

Definition sum (l : list Z) : Z := fold_left Z.add l 0.

Definition __len__ (self : _Range) : M Z :=
  let start := _start self in
  let end_ := _end self in
  let! map := get in
  let! base := lift (IndexMap.__len__ map) in
  let! len_start := lift (len start) in
  let! len_end := lift (len end_) in
  let from_len_start_up_to_len_end :=
    sum ((fun width => base ^ width) <$> range len_start len_end) in
  let! start_collection := _make_collection start in
  let from_len_start_through_start :=
    _IncrementableIndexCollection.__index__ start_collection in
  let! end_collection := _make_collection end_ in
  let from_len_end_through_end :=
    _IncrementableIndexCollection.__index__ end_collection in
  let result := from_len_start_up_to_len_end in
  let result := result + from_len_end_through_end in
  let result := result - from_len_start_through_start in
  let result := result + 1 in
  ret result.

End _Range.

(** The built-in [len(x)] rejects a negative [__len__]. *)
Definition builtin_len (n : Z) : result Z :=
  if n <? 0 then Raise ValueError else Ok n.

Definition character_range (start end_ : object) : IndexMap.M _Range._Range :=
  match start, end_ with
  | PyStr _, PyStr _ => _Range.__init__ _Range.StringRange start end_
  | PyBytes _, PyBytes _ => _Range.__init__ _Range.BytesRange start end_
  | _, _ => IndexMap.raise TypeError
  end.

(** Running a computation on a map that was itself the result of a
    constructor call. *)
Definition on {A} (map : result IndexMap.IndexMap) (c : IndexMap.M A)
  : result A :=
  let? m := map in fst (c m).

(** ** Notions used to state the properties *)

Module Import Notions.

(** The value of a list of digits, least significant first. *)
Fixpoint little_endian (base : Z) (digits : list Z) : Z :=
  match digits with
  | [] => 0
  | d :: digits' => d + base * little_endian base digits'
  end.

(** Adding one to a list of digits, least significant first, with the
    carry of [increment]: all digits at [base - 1] gives one more digit. *)
Fixpoint carry (base : Z) (digits : list Z) : list Z :=
  match digits with
  | [] => [0]
  | d :: digits' =>
      if d + 1 <? base then (d + 1) :: digits'
      else 0 :: carry base digits'
  end.

Definition in_range (base : Z) (digits : list Z) : Prop :=
  Forall (fun d => 0 <= d < base) digits.

(** Every index of the collection lies in [[0, base)]. *)
Definition digits_in_range
  (c : _IncrementableIndexCollection._IncrementableIndexCollection) : Prop :=
  in_range (_IncrementableIndexCollection._base c)
    (_IncrementableIndexCollection._inverted_indices c).

(** The one-symbol object of an interval class with a given code point
    or byte value. *)
Definition symbol (cls : Interval.class) (c : Z) : object :=
  match cls with
  | Interval.CharacterInterval => PyStr [c]
  | Interval.ByteInterval => PyBytes [c]
  end.

(** The state of an interval that its constructor accepted. *)
Definition valid (i : Interval.Interval) : Prop :=
  Interval._validate i (Interval.exception_type (Interval.__class__ i))
  = Ok ().

(** The symbols of an interval, in the order of its iterator, and those
    of a list of intervals, chained. *)
Definition symbols (i : Interval.Interval) : list object :=
  match Interval.__iter__ i with
  | Ok l => l
  | Raise _ => []
  end.

Definition all_symbols (intervals : list Interval.Interval) : list object :=
  concat (symbols <$> intervals).

Definition share_symbol (i j : Interval.Interval) : Prop :=
  exists x,
    Interval.__contains__ i x = Ok true /\ Interval.__contains__ j x = Ok true.

Definition same_kind (intervals : list Interval.Interval) : Prop :=
  forall i j, i ∈ intervals -> j ∈ intervals ->
    Interval.__class__ i = Interval.__class__ j.

(** The states of a map: the one its constructor returns for intervals
    that their own constructor accepted, and those that lookups and
    membership tests leave behind. *)
Inductive reachable : IndexMap.IndexMap -> Prop :=
  | reachable_init intervals lookup_char lookup_index m :
      Forall valid intervals ->
      IndexMap.__init__ intervals lookup_char lookup_index = Ok m ->
      reachable m
  | reachable_getitem m item :
      reachable m -> reachable (snd (IndexMap.__getitem__ item m))
  | reachable_contains m item :
      reachable m -> reachable (snd (IndexMap.__contains__ item m)).

Definition is_symbol (m : IndexMap.IndexMap) (o : object) : Prop :=
  _is_char_of_type o (IndexMap._element_type m) = Ok true.

(** The lookup functions of a map answer each other: on the symbols of
    the element type and the indices below the size of the map,
    [lookup_index] is defined and undoes [lookup_char]. *)
Definition mutually_inverse (m : IndexMap.IndexMap) : Prop :=
  forall f g,
    IndexMap.lookup_char (IndexMap._searchers m) = Some f ->
    IndexMap.lookup_index (IndexMap._searchers m) = Some g ->
    (forall c k, is_symbol m c -> IndexMap.__contains__int k m = Ok true ->
                 f c = Ok (PyInt k) -> g k = Ok c)
    /\ (forall k, IndexMap.__contains__int k m = Ok true ->
                  exists c, g k = Ok c /\ is_symbol m c /\ f c = Ok (PyInt k)).

(** What holds of every reachable state. *)
Record invariant (m : IndexMap.IndexMap) (n : Z) : Prop := {
  inv_len : IndexMap.__len__ m = Ok n;
  inv_type :
    IndexMap._element_type m = type_str
    \/ IndexMap._element_type m = type_bytes;
  inv_chars : forall c k,
    IndexMap._char_to_index m !! c = Some k -> is_symbol m c /\ 0 <= k < n;
  inv_indices : forall k c,
    IndexMap._index_to_char m !! k = Some c -> is_symbol m c /\ 0 <= k < n;
  inv_eager :
    IndexMap._maps_populated m = true ->
    IndexMap.lookup_char (IndexMap._searchers m) = None
    /\ IndexMap.lookup_index (IndexMap._searchers m) = None
    /\ (forall c k, IndexMap._char_to_index m !! c = Some k
                    <-> IndexMap._index_to_char m !! k = Some c)
    /\ (forall k, 0 <= k < n -> is_Some (IndexMap._index_to_char m !! k));
  inv_lazy :
    IndexMap._maps_populated m = false ->
    exists f g,
      IndexMap.lookup_char (IndexMap._searchers m) = Some f
      /\ IndexMap.lookup_index (IndexMap._searchers m) = Some g
      /\ (forall c k, IndexMap._char_to_index m !! c = Some k ->
                      f c = Ok (PyInt k))
      /\ (forall k c, IndexMap._index_to_char m !! k = Some c ->
                      g k = Ok c)
}.

(** The fields that no lookup changes. *)
Definition same_map (m m' : IndexMap.IndexMap) : Prop :=
  IndexMap._intervals m' = IndexMap._intervals m
  /\ IndexMap._searchers m' = IndexMap._searchers m
  /\ IndexMap._element_type m' = IndexMap._element_type m
  /\ IndexMap._maps_populated m' = IndexMap._maps_populated m
  /\ IndexMap._not_a_char_exception m' = IndexMap._not_a_char_exception m.

(** The state of the pre-built [ASCII] map before any lookup. *)
Definition ASCII_map : IndexMap.IndexMap := {|
  IndexMap._intervals :=
    [{| Interval.__class__ := Interval.CharacterInterval;
        Interval.start := PyStr [0]; Interval.end_ := PyStr [255] |}];
  IndexMap._char_to_index := ∅;
  IndexMap._index_to_char := ∅;
  IndexMap._searchers :=
    {| IndexMap.lookup_char := Some _ascii_index_from_char_or_byte;
       IndexMap.lookup_index := Some _ascii_char_from_index |};
  IndexMap._element_type := type_str;
  IndexMap._maps_populated := false;
  IndexMap._not_a_char_exception := NotACharacter
|}.

(** A [str] or a [bytes] object, by the class of range it belongs to. *)
Definition text (cls : _Range.class) (s : list Z) : object :=
  match cls with
  | _Range.StringRange => PyStr s
  | _Range.BytesRange => PyBytes s
  end.

(** The element type that a class of range expects of its map. *)
Definition class_type (cls : _Range.class) : type :=
  match cls with
  | _Range.StringRange => type_str
  | _Range.BytesRange => type_bytes
  end.

(** The sum of [base ** width] for [width] in [range(a, b)]. *)
Definition geometric (base a b : Z) : Z :=
  _Range.sum ((fun width => base ^ width) <$> range a b).

(** The closed form of [_Range.__len__] on two collections. *)
Definition gap
  (current end_ : _IncrementableIndexCollection._IncrementableIndexCollection)
  : Z :=
  geometric (_IncrementableIndexCollection._base current)
    (_IncrementableIndexCollection.__len__ current)
    (_IncrementableIndexCollection.__len__ end_)
  + _IncrementableIndexCollection.__index__ end_
  - _IncrementableIndexCollection.__index__ current
  + 1.

(** The value of a list of digits, most significant first. *)
Definition big_endian (base : Z) (digits : list Z) : Z :=
  fold_left (fun total d => total * base + d) digits 0.

(** No two intervals of the list share a symbol. *)
Definition pairwise_disjoint (intervals : list Interval.Interval) : Prop :=
  forall (a b : nat) i j,
    a <> b -> intervals !! a = Some i -> intervals !! b = Some j ->
    ~ share_symbol i j.

(** Every interval ends before the ones after it start. *)
Definition ascending (intervals : list Interval.Interval) : Prop :=
  forall (a b : nat) i j,
    (a < b)%nat -> intervals !! a = Some i -> intervals !! b = Some j ->
    lt (Interval.end_ i) (Interval.start j) = Ok true.

(** The state after [lookup_char] answered [k] for [c], and after
    [lookup_index] answered [c] for [k]. *)
Definition cache_index (m : IndexMap.IndexMap) (c : object) (k : Z)
  : IndexMap.IndexMap :=
  {| IndexMap._intervals := IndexMap._intervals m;
     IndexMap._char_to_index := <[c := k]> (IndexMap._char_to_index m);
     IndexMap._index_to_char := IndexMap._index_to_char m;
     IndexMap._searchers := IndexMap._searchers m;
     IndexMap._element_type := IndexMap._element_type m;
     IndexMap._maps_populated := IndexMap._maps_populated m;
     IndexMap._not_a_char_exception := IndexMap._not_a_char_exception m |}.

Definition cache_char (m : IndexMap.IndexMap) (k : Z) (c : object)
  : IndexMap.IndexMap :=
  {| IndexMap._intervals := IndexMap._intervals m;
     IndexMap._char_to_index := IndexMap._char_to_index m;
     IndexMap._index_to_char := <[k := c]> (IndexMap._index_to_char m);
     IndexMap._searchers := IndexMap._searchers m;
     IndexMap._element_type := IndexMap._element_type m;
     IndexMap._maps_populated := IndexMap._maps_populated m;
     IndexMap._not_a_char_exception := IndexMap._not_a_char_exception m |}.

(** The collections that [g] rounds of the loop of [_Range.__iter__] go
    through, from [c] on. *)
Fixpoint iterate (g : nat)
  (c : _IncrementableIndexCollection._IncrementableIndexCollection)
  : list _IncrementableIndexCollection._IncrementableIndexCollection :=
  match g with
  | O => []
  | S g' => c :: iterate g' (_IncrementableIndexCollection.increment c)
  end.

(** The intervals that the right operand of [+] contributes. *)
Definition operand_intervals (other : IndexMap.operand)
  : list Interval.Interval :=
  match other with
  | IndexMap.an_interval other => [other]
  | IndexMap.a_map other => IndexMap._intervals other
  end.

End Notions.

(** * Properties *)

(** ** The incrementable index collection *)

Section Counter.

Import _IncrementableIndexCollection.

Lemma fold_enumerate_from base l : forall k acc,
  0 <= k ->
  fold_left
    (fun total '(order_of_magnitude, index) =>
       total + index * base ^ order_of_magnitude)
    (enumerate_from k l) acc
  = acc + base ^ k * little_endian base l.
Proof.
  induction l as [|d l IH]; intros k acc Hk; simpl.
  - lia.
  - rewrite IH by lia. rewrite Z.pow_add_r by lia. lia.
Qed.

Lemma index_little_endian c :
  __index__ c = little_endian (_base c) (_inverted_indices c).
Proof.
  unfold __index__, enumerate. rewrite fold_enumerate_from by lia.
  simpl. lia.
Qed.

Lemma little_endian_app base l1 l2 :
  little_endian base (l1 ++ l2)
  = little_endian base l1
    + base ^ Z.of_nat (length l1) * little_endian base l2.
Proof.
  induction l1 as [|d l1 IH]; simpl length; simpl app; simpl little_endian.
  - rewrite Z.pow_0_r. lia.
  - rewrite IH, Nat2Z.inj_succ, Z.pow_succ_r by lia. lia.
Qed.

Lemma little_endian_bound base l :
  in_range base l ->
  0 <= little_endian base l < base ^ Z.of_nat (length l).
Proof.
  induction 1 as [|d l Hd _ IH]; simpl length; simpl little_endian.
  - rewrite Z.pow_0_r. lia.
  - rewrite Nat2Z.inj_succ, Z.pow_succ_r by lia. nia.
Qed.

Lemma in_range_rev base l : in_range base l -> in_range base (rev l).
Proof. apply List.Forall_rev. Qed.

(** Sequences of digits of one length, most significant first, compare
    as the numbers they write. *)
Lemma seq_lt_value base : forall a b,
  length a = length b -> in_range base a -> in_range base b ->
  (seq_lt a b = true
   <-> little_endian base (rev a) < little_endian base (rev b)).
Proof.
  induction a as [|x a IH]; intros [|y b] Hlen Ha Hb; try discriminate.
  - simpl. split; [discriminate | lia].
  - apply Forall_cons in Ha as [Hx Ha]. apply Forall_cons in Hb as [Hy Hb].
    injection Hlen as Hlen.
    pose proof (little_endian_bound base (rev a) (in_range_rev _ _ Ha)) as Ba.
    pose proof (little_endian_bound base (rev b) (in_range_rev _ _ Hb)) as Bb.
    rewrite length_rev in Ba, Bb. rewrite <- Hlen in Bb.
    simpl rev. rewrite !little_endian_app, !length_rev, <- Hlen.
    simpl little_endian. rewrite !Z.mul_0_r, !Z.add_0_r.
    set (P := base ^ Z.of_nat (length a)) in *.
    simpl seq_lt. destruct (Z.eqb_spec x y) as [->|Hne].
    + rewrite (IH b Hlen Ha Hb). lia.
    + destruct (Z.ltb_spec x y); split; intros; try discriminate;
        try reflexivity; nia.
Qed.

Lemma seq_eq_value base : forall a b,
  length a = length b -> in_range base a -> in_range base b ->
  (a = b <-> little_endian base (rev a) = little_endian base (rev b)).
Proof.
  intros a b Hlen Ha Hb. split; [by intros -> |]. revert b Hlen Ha Hb.
  induction a as [|x a IH]; intros [|y b] Hlen Ha Hb; try discriminate.
  - reflexivity.
  - apply Forall_cons in Ha as [Hx Ha]. apply Forall_cons in Hb as [Hy Hb].
    injection Hlen as Hlen.
    pose proof (little_endian_bound base (rev a) (in_range_rev _ _ Ha)) as Ba.
    pose proof (little_endian_bound base (rev b) (in_range_rev _ _ Hb)) as Bb.
    rewrite length_rev in Ba, Bb. rewrite <- Hlen in Bb.
    simpl rev. rewrite !little_endian_app, !length_rev, <- Hlen.
    simpl little_endian. rewrite !Z.mul_0_r, !Z.add_0_r.
    set (P := base ^ Z.of_nat (length a)) in *.
    intros Heq.
    assert (x = y) as -> by nia.
    f_equal. apply IH; [done..|]. lia.
Qed.

Lemma insert_middle {A} (pre : list A) x y l :
  <[length pre := y]> (pre ++ x :: l) = pre ++ y :: l.
Proof. induction pre as [|z pre IH]; simpl; [done | by rewrite IH]. Qed.

Lemma increment_loop_carry base : forall l pre,
  increment_loop (seq (length pre) (length l)) (pre ++ l) base
  = pre ++ carry base l.
Proof.
  induction l as [|d l IH]; intros pre; simpl.
  - by rewrite app_nil_r.
  - rewrite list_lookup_middle by done. simpl.
    rewrite insert_middle, list_lookup_middle by done. simpl.
    destruct (d + 1 <? base); [done |].
    rewrite insert_middle.
    replace (pre ++ 0 :: l) with ((pre ++ [0]) ++ l) by by rewrite <- app_assoc.
    replace (S (length pre)) with (length (pre ++ [0]))
      by (rewrite length_app; simpl; lia).
    rewrite IH. by rewrite <- app_assoc.
Qed.

Lemma increment_carry c :
  _inverted_indices (increment c) = carry (_base c) (_inverted_indices c).
Proof. apply (increment_loop_carry (_base c) (_inverted_indices c) []). Qed.

Lemma carry_all_max base l :
  Forall (fun d => d = base - 1) l ->
  carry base l = repeat 0 (S (length l)).
Proof.
  induction 1 as [|d l -> _ IH]; simpl; [done |].
  replace (base - 1 + 1 <? base) with false by (symmetry; apply Z.ltb_ge; lia).
  by rewrite IH.
Qed.

Lemma little_endian_all_max base l :
  Forall (fun d => d = base - 1) l ->
  little_endian base l = base ^ Z.of_nat (length l) - 1.
Proof.
  induction 1 as [|d l -> _ IH]; simpl length; simpl little_endian.
  - by rewrite Z.pow_0_r.
  - rewrite IH, Nat2Z.inj_succ, Z.pow_succ_r by lia. lia.
Qed.

Lemma little_endian_zeros base n : little_endian base (repeat 0 n) = 0.
Proof. induction n as [|n IH]; simpl; [done | rewrite IH; lia]. Qed.

Lemma in_range_zeros base n : 0 < base -> in_range base (repeat 0 n).
Proof. intros Hb. induction n; constructor; [lia | done]. Qed.

(** One [increment] either overflows every digit or adds one to the
    value and keeps the number of digits. *)
Lemma carry_cases base l :
  in_range base l ->
  (Forall (fun d => d = base - 1) l
   /\ carry base l = repeat 0 (S (length l)))
  \/ (length (carry base l) = length l
      /\ in_range base (carry base l)
      /\ little_endian base (carry base l) = little_endian base l + 1).
Proof.
  induction 1 as [|d l Hd Hl IH]; simpl.
  - left. split; [constructor | done].
  - destruct (Z.ltb_spec (d + 1) base) as [Hlt|Hge].
    + right. simpl. split; [done |]. split; [|lia].
      constructor; [lia | done].
    + assert (d = base - 1) as -> by lia.
      destruct IH as [[Hall Hc]|(Hlen & Hr & Hv)].
      * left. split; [by constructor |]. by rewrite Hc.
      * right. simpl. rewrite Hlen, Hv. split; [done |]. split; [|lia].
        constructor; [lia | done].
Qed.

Lemma lt_same_length a b :
  _base a = _base b -> digits_in_range a -> digits_in_range b ->
  length (_inverted_indices a) = length (_inverted_indices b) ->
  (__lt__ a b = true <-> __index__ a < __index__ b).
Proof.
  intros Hbase Ha Hb Hlen. unfold __lt__, __len__, _indices, __iter__.
  rewrite Hlen, Z.ltb_irrefl, Z.eqb_refl. simpl.
  rewrite (seq_lt_value (_base a)), !rev_involutive, !index_little_endian,
    <- Hbase; [done | by rewrite !length_rev | by apply in_range_rev |].
  apply in_range_rev. unfold digits_in_range in Hb. by rewrite Hbase.
Qed.

Lemma eq_same_length a b :
  _base a = _base b -> digits_in_range a -> digits_in_range b ->
  length (_inverted_indices a) = length (_inverted_indices b) ->
  (__eq__ a b = true <-> __index__ a = __index__ b).
Proof.
  intros Hbase Ha Hb Hlen. unfold __eq__, _indices, __iter__.
  rewrite Hbase, Z.eqb_refl. simpl. rewrite bool_decide_eq_true.
  rewrite (seq_eq_value (_base a)), !rev_involutive, !index_little_endian,
    <- Hbase; [done | by rewrite !length_rev | by apply in_range_rev |].
  apply in_range_rev. unfold digits_in_range in Hb. by rewrite Hbase.
Qed.

Lemma lt_shorter a b :
  __len__ a < __len__ b ->
  __lt__ a b = true /\ __lt__ b a = false /\ __eq__ a b = false.
Proof.
  intros Hlen. unfold __lt__, __eq__, _indices, __iter__.
  destruct (Z.ltb_spec (__len__ a) (__len__ b)); [|lia].
  destruct (Z.ltb_spec (__len__ b) (__len__ a)); [lia|].
  destruct (Z.eqb_spec (__len__ b) (__len__ a)); [lia|].
  split; [done |]. split; [done |].
  apply andb_false_iff. right. apply bool_decide_eq_false. intros Heq.
  apply (f_equal length) in Heq. rewrite !length_rev in Heq.
  unfold __len__ in Hlen. lia.
Qed.

(** C4: with one base and all digits in [[0, base)], the collection with
    fewer digits is strictly less than the one with more digits, whatever
    the digits are; two collections with the same number of digits
    compare under [<], [<=] and [==] as their integer values
    ([__index__]) compare. *)
Theorem counter_order_is_length_then_value a b :
  _base a = _base b -> digits_in_range a -> digits_in_range b ->
  (__len__ a < __len__ b ->
     __lt__ a b = true /\ __le__ a b = true /\ __eq__ a b = false
     /\ __lt__ b a = false /\ __le__ b a = false)
  /\ (__len__ a = __len__ b ->
        (__lt__ a b = true <-> __index__ a < __index__ b)
        /\ (__le__ a b = true <-> __index__ a <= __index__ b)
        /\ (__eq__ a b = true <-> __index__ a = __index__ b)).
Proof.
  intros Hbase Ha Hb. split.
  - intros Hlen. destruct (lt_shorter a b Hlen) as (Hlt & Hgt & Heq).
    unfold __le__. rewrite Hlt, Hgt. repeat split; try done.
    simpl. unfold __eq__ in *. rewrite Z.eqb_sym.
    apply andb_false_iff in Heq as [Heq|Heq]; apply andb_false_iff;
      [by left | right].
    apply bool_decide_eq_false. apply bool_decide_eq_false in Heq. congruence.
  - intros Hlen. unfold __len__ in Hlen. apply Nat2Z.inj in Hlen.
    pose proof (lt_same_length a b Hbase Ha Hb Hlen) as Hlt.
    pose proof (eq_same_length a b Hbase Ha Hb Hlen) as Heq.
    split; [done |]. split; [|done].
    unfold __le__. rewrite orb_true_iff, Hlt, Heq. lia.
Qed.

Lemma counter_order_is_length_then_value_witness :
  (__lt__ {| _inverted_indices := [9; 0]; _base := 10 |}
          {| _inverted_indices := [0; 1]; _base := 10 |} = true
   <-> __index__ {| _inverted_indices := [9; 0]; _base := 10 |}
       < __index__ {| _inverted_indices := [0; 1]; _base := 10 |})
  /\ __lt__ {| _inverted_indices := [0; 1]; _base := 10 |}
            {| _inverted_indices := [0; 0; 0]; _base := 10 |} = true.
Proof.
  split.
  - refine (proj1 (proj2 (counter_order_is_length_then_value
             {| _inverted_indices := [9; 0]; _base := 10 |}
             {| _inverted_indices := [0; 1]; _base := 10 |} _ _ _) _));
      [reflexivity | | | reflexivity]; repeat constructor; simpl; lia.
  - refine (proj1 (proj1 (counter_order_is_length_then_value
             {| _inverted_indices := [0; 1]; _base := 10 |}
             {| _inverted_indices := [0; 0; 0]; _base := 10 |} _ _ _) _));
      [reflexivity | | | reflexivity]; repeat constructor; simpl; lia.
Defined.

Lemma digits_in_range_increment k :
  0 < _base k -> digits_in_range k -> digits_in_range (increment k).
Proof.
  unfold digits_in_range. rewrite increment_carry. simpl. intros Hb Hk.
  destruct (carry_cases _ _ Hk) as [[Hall ->]|(_ & Hr & _)]; [|done].
  by apply in_range_zeros.
Qed.

(** C5: one [increment] of a collection whose digits lie in [[0, base)]
    gives a collection that is strictly greater than the one before, and
    that has at least as many digits. *)
Theorem increment_strictly_greater k :
  digits_in_range k ->
  __gt__ (increment k) k = true
  /\ __lt__ k (increment k) = true
  /\ __len__ k <= __len__ (increment k).
Proof.
  intros Hk. pose proof (increment_carry k) as Hinc.
  destruct (carry_cases _ _ Hk) as [[Hall Hc]|(Hlen & Hk' & Hv)].
  - assert (__len__ k < __len__ (increment k)) as Hlt.
    { unfold __len__. rewrite Hinc, Hc, repeat_length. lia. }
    destruct (lt_shorter _ _ Hlt) as (H1 & H2 & H3).
    unfold __gt__. rewrite H2. split; [|split; [done | lia]].
    simpl. unfold __eq__ in *. rewrite Z.eqb_sym.
    apply andb_false_iff in H3 as [H3|H3]; [by rewrite H3 |].
    apply bool_decide_eq_false in H3. rewrite bool_decide_eq_false_2;
      [by rewrite andb_false_r | congruence].
  - rewrite <- Hinc in Hlen, Hv, Hk'.
    change (digits_in_range (increment k)) in Hk'.
    assert (__index__ (increment k) = __index__ k + 1) as Hidx.
    { rewrite !index_little_endian. simpl _base at 1. done. }
    assert (_base (increment k) = _base k) as Hbase by done.
    pose proof (lt_same_length k (increment k) (eq_sym Hbase) Hk Hk'
                  (eq_sym Hlen)) as Hlt.
    pose proof (lt_same_length (increment k) k Hbase Hk' Hk Hlen) as Hgt.
    pose proof (eq_same_length (increment k) k Hbase Hk' Hk Hlen) as Heq.
    unfold __gt__. split; [|split].
    + destruct (__lt__ (increment k) k); [lia |].
      destruct (__eq__ (increment k) k); [lia | done].
    + apply Hlt. lia.
    + unfold __len__. lia.
Qed.

Lemma increment_strictly_greater_witness :
  __gt__ (increment {| _inverted_indices := [9; 1]; _base := 10 |})
         {| _inverted_indices := [9; 1]; _base := 10 |} = true
  /\ __lt__ {| _inverted_indices := [9; 1]; _base := 10 |}
            (increment {| _inverted_indices := [9; 1]; _base := 10 |}) = true
  /\ __len__ {| _inverted_indices := [9; 1]; _base := 10 |}
     <= __len__ (increment {| _inverted_indices := [9; 1]; _base := 10 |}).
Proof.
  apply (increment_strictly_greater
           {| _inverted_indices := [9; 1]; _base := 10 |}).
  repeat constructor; simpl; lia.
Defined.

(** C6: incrementing a collection of [n] digits that all equal
    [base - 1] gives [n + 1] digits that are all zero, in the same base. *)
Theorem increment_all_max_gives_zeros k :
  Forall (fun d => d = _base k - 1) (_indices k) ->
  _indices (increment k) = repeat 0 (S (length (_indices k)))
  /\ _base (increment k) = _base k.
Proof.
  unfold _indices, __iter__. intros Hall. split; [|done].
  apply List.Forall_rev in Hall. rewrite rev_involutive in Hall.
  rewrite increment_carry, (carry_all_max _ _ Hall), length_rev.
  generalize (S (length (_inverted_indices k))). intros n.
  induction n as [|n IH]; [done |].
  simpl. rewrite IH. symmetry. apply repeat_cons.
Qed.

(** In base 26 the digits of "zz" become those of "aaa". *)
Lemma increment_all_max_gives_zeros_witness :
  __init__ [25; 25] 26 = Ok {| _inverted_indices := [25; 25]; _base := 26 |}
  /\ _indices (increment {| _inverted_indices := [25; 25]; _base := 26 |})
     = [0; 0; 0]
  /\ _base (increment {| _inverted_indices := [25; 25]; _base := 26 |}) = 26.
Proof.
  split; [reflexivity |].
  apply (increment_all_max_gives_zeros
           {| _inverted_indices := [25; 25]; _base := 26 |}).
  repeat constructor.
Defined.

End Counter.

(** ** Intervals *)

Section Intervals.

Import Interval.

Lemma seq_lt_singleton x y : seq_lt [x] [y] = (x <? y).
Proof.
  simpl. destruct (Z.eqb_spec x y) as [->|]; [|done].
  by rewrite Z.ltb_irrefl.
Qed.

Lemma new_valid cls s e i : new cls s e = Ok i -> valid i.
Proof.
  unfold new, valid. simpl.
  destruct (_validate _ _) as [[]|] eqn:Hv; [|done].
  by intros [= <-].
Qed.

Lemma ord_symbol cls c : ord (symbol cls c) = Ok c.
Proof. by destruct cls. Qed.

Lemma le_symbol cls x y : le (symbol cls x) (symbol cls y) = Ok (x <=? y).
Proof.
  destruct cls; unfold le, symbol; rewrite seq_lt_singleton; f_equal;
    symmetry; apply Z.leb_antisym.
Qed.

Lemma lt_symbol cls x y : lt (symbol cls x) (symbol cls y) = Ok (x <? y).
Proof. destruct cls; unfold lt, symbol; by rewrite seq_lt_singleton. Qed.

Lemma is_char_of_type_inv cls o :
  _is_char_of_type o
    (element_type {| __class__ := cls; start := o; end_ := o |}) = Ok true ->
  exists c, o = symbol cls c.
Proof.
  unfold _is_char_of_type, element_type. simpl.
  destruct cls, o as [l|l| |]; cbn [isinstance len bind]; try done;
    destruct l as [|c [|c' l]];
    try (intros _; by exists c); try (by vm_compute);
    destruct (Z.eqb_spec (Z.of_nat (length (c :: c' :: l))) 1) as [H|H];
    try done; simpl length in H; lia.
Qed.

(** A valid interval spans two symbols of its class, in order. *)
Lemma valid_inv i :
  valid i ->
  exists lo hi,
    lo <= hi
    /\ start i = symbol (__class__ i) lo
    /\ end_ i = symbol (__class__ i) hi.
Proof.
  destruct i as [cls s e]. unfold valid, _validate. simpl.
  change (element_type _) with
    (element_type {| __class__ := cls; start := s; end_ := s |}) at 1.
  destruct (_is_char_of_type s _) as [[|]|] eqn:Hs; simpl; try done.
  change (element_type _) with
    (element_type {| __class__ := cls; start := e; end_ := e |}).
  destruct (_is_char_of_type e _) as [[|]|] eqn:He; simpl; try done.
  apply is_char_of_type_inv in Hs as [lo ->].
  apply is_char_of_type_inv in He as [hi ->].
  unfold gt. rewrite lt_symbol. simpl.
  destruct (Z.ltb_spec hi lo); [done |]. intros _. by exists lo, hi.
Qed.

Lemma is_char_symbol cls c t :
  t = match cls with
      | CharacterInterval => type_str
      | ByteInterval => type_bytes
      end ->
  _is_char_of_type (symbol cls c) t = Ok true.
Proof. intros ->. by destruct cls. Qed.

Lemma valid_symbols cls lo hi :
  lo <= hi ->
  valid {| __class__ := cls; start := symbol cls lo; end_ := symbol cls hi |}.
Proof.
  intros Hle. unfold valid, _validate. cbn [start end_ __class__].
  rewrite !(is_char_symbol cls) by (by destruct cls). cbn [bind negb].
  unfold gt. rewrite lt_symbol. cbn [bind].
  by destruct (Z.ltb_spec hi lo); [lia |].
Qed.

(** [_is_char_of_type] against [str] or [bytes] never raises, and
    accepts exactly the one-symbol objects of the class. *)
Lemma is_char_of_type_cases cls item :
  (exists c, item = symbol cls c
             /\ _is_char_of_type item
                  (element_type
                     {| __class__ := cls; start := item; end_ := item |})
                = Ok true)
  \/ ((forall c, item <> symbol cls c)
      /\ _is_char_of_type item
           (element_type {| __class__ := cls; start := item; end_ := item |})
         = Ok false).
Proof.
  unfold element_type, _is_char_of_type. cbn [__class__].
  destruct cls, item as [l|l| |]; cbn [isinstance len bind];
    try (right; split; [by intros ? [=] | done]);
    (destruct l as [|c [|c' l]];
     [ right; split; [by intros ? [=] | done]
     | left; exists c; by split
     | right; split; [by intros ? [=] |];
       replace (Z.of_nat (length (c :: c' :: l)) =? 1) with false
         by (symmetry; apply Z.eqb_neq; simpl length; lia);
       done ]).
Qed.

Lemma contains_symbol cls lo hi c :
  __contains__
    {| __class__ := cls; start := symbol cls lo; end_ := symbol cls hi |}
    (symbol cls c)
  = Ok ((lo <=? c) && (c <=? hi)).
Proof.
  unfold __contains__. simpl start. simpl end_.
  replace (isinstance (symbol cls c) (class_of (symbol cls lo))) with true
    by by destruct cls.
  replace (len (symbol cls c)) with (Ok 1 : result Z) by by destruct cls.
  simpl. rewrite !le_symbol. simpl. by destruct (lo <=? c).
Qed.

Lemma contains_not_symbol cls lo hi item :
  (forall c, item <> symbol cls c) ->
  Interval.__contains__
    {| __class__ := cls; start := symbol cls lo; end_ := symbol cls hi |} item
  = Ok false.
Proof.
  intros Hne.
  destruct (is_char_of_type_cases cls item) as [(c & -> & _)|[_ Hc]];
    [by destruct (Hne c) |].
  unfold Interval.__contains__. cbn [start end_].
  replace (class_of (symbol cls lo)) with
    (element_type {| __class__ := cls; start := item; end_ := item |})
    by by destruct cls.
  unfold _is_char_of_type in Hc.
  destruct (isinstance item _); [|done]. cbn [negb].
  destruct (len item) as [n|]; [|done]. cbn [bind] in *.
  injection Hc as ->. done.
Qed.

(** C10: membership in an interval never raises.  A value that is not a
    single symbol of the interval's element type (another type, or a
    length other than 1) is reported absent; a single symbol of that type
    is a member exactly when its code point lies between those of
    [start] and [end], both included. *)
Theorem interval_contains_is_total cls s e i item :
  new cls s e = Ok i ->
  match _is_char_of_type item (element_type i) with
  | Ok false => __contains__ i item = Ok false
  | Ok true =>
      exists lo hi c,
        ord (start i) = Ok lo /\ ord (end_ i) = Ok hi /\ ord item = Ok c
        /\ le (start i) item = Ok (lo <=? c)
        /\ le item (end_ i) = Ok (c <=? hi)
        /\ __contains__ i item = Ok ((lo <=? c) && (c <=? hi))
  | Raise _ => False
  end.
Proof.
  intros Hnew. pose proof (new_valid _ _ _ _ Hnew) as Hv.
  destruct (valid_inv i Hv) as (lo & hi & Hle & Hs & He).
  destruct i as [cls' s' e']. simpl in *. subst s' e'.
  change (element_type _) with
    (element_type {| __class__ := cls'; start := item; end_ := item |}).
  destruct (is_char_of_type_cases cls' item) as [(c & -> & ->)|[Hne Hc]].
  - exists lo, hi, c. rewrite !ord_symbol, !le_symbol, contains_symbol.
    by repeat split.
  - rewrite Hc. by apply contains_not_symbol.
Qed.

Lemma interval_contains_is_total_witness :
  new CharacterInterval (str "a") (str "z")
  = Ok {| __class__ := CharacterInterval; start := str "a"; end_ := str "z" |}
  /\ __contains__
       {| __class__ := CharacterInterval; start := str "a"; end_ := str "z" |}
       (str "ab") = Ok false
  /\ __contains__
       {| __class__ := CharacterInterval; start := str "a"; end_ := str "z" |}
       (PyInt 100) = Ok false.
Proof.
  split; [reflexivity |]. split.
  - exact (interval_contains_is_total CharacterInterval (str "a") (str "z")
             {| __class__ := CharacterInterval;
                start := str "a"; end_ := str "z" |}
             (str "ab") eq_refl).
  - exact (interval_contains_is_total CharacterInterval (str "a") (str "z")
             {| __class__ := CharacterInterval;
                start := str "a"; end_ := str "z" |}
             (PyInt 100) eq_refl).
Defined.

End Intervals.

(** ** Construction of an index map *)

Section IndexMapConstruction.

Import Interval IndexMap.

Lemma iter_symbols cls lo hi :
  __iter__ {| __class__ := cls; start := symbol cls lo; end_ := symbol cls hi |}
  = Ok (symbol cls <$> seqZ lo (hi + 1 - lo)).
Proof.
  unfold __iter__, to_codepoint_range. cbn [start end_ __class__].
  rewrite !ord_symbol. cbn [bind]. unfold range. by destruct cls.
Qed.

Lemma len_symbols cls lo hi :
  lo <= hi ->
  Interval.__len__
    {| __class__ := cls; start := symbol cls lo; end_ := symbol cls hi |}
  = Ok (hi - lo + 1).
Proof.
  intros Hle. unfold Interval.__len__, to_codepoint_range.
  cbn [start end_ __class__]. rewrite !ord_symbol. cbn [bind]. unfold range.
  rewrite length_seqZ. f_equal. lia.
Qed.

Lemma intersects_symbols cls lo1 hi1 lo2 hi2 :
  intersects
    {| __class__ := cls; start := symbol cls lo1; end_ := symbol cls hi1 |}
    {| __class__ := cls; start := symbol cls lo2; end_ := symbol cls hi2 |}
  = Ok (Z.max lo1 lo2 <=? Z.min hi1 hi2).
Proof.
  unfold intersects, __and__. cbn [start end_ __class__].
  rewrite bool_decide_eq_true_2 by done. cbn [negb].
  unfold min, max, gt. rewrite !lt_symbol. cbn [bind].
  replace (if hi2 <? hi1 then symbol cls hi2 else symbol cls hi1)
    with (symbol cls (Z.min hi1 hi2))
    by (destruct (Z.ltb_spec hi2 hi1); f_equal; lia).
  replace (if lo1 <? lo2 then symbol cls lo2 else symbol cls lo1)
    with (symbol cls (Z.max lo1 lo2))
    by (destruct (Z.ltb_spec lo1 lo2); f_equal; lia).
  apply le_symbol.
Qed.

Lemma any_ok {A} (f : A -> result bool) l :
  (forall y, y ∈ l -> exists b, f y = Ok b) ->
  exists b, any f l = Ok b
            /\ (b = true <-> exists y, y ∈ l /\ f y = Ok true).
Proof.
  induction l as [|x l IH]; intros Hall; simpl.
  - exists false. split; [done |]. split; [done |].
    intros (y & Hy & _). by apply elem_of_nil in Hy.
  - destruct (Hall x) as [b Hb]; [left |]. rewrite Hb. simpl.
    destruct b.
    + exists true. split; [done |]. split; [|done].
      intros _. exists x. split; [left | done].
    + destruct IH as (b & Hany & Hiff).
      { intros y Hy. apply Hall. by right. }
      exists b. split; [done |]. rewrite Hiff. split.
      * intros (y & Hy & Hfy). exists y. split; [by right | done].
      * intros (y & Hy & Hfy). apply elem_of_cons in Hy as [->|Hy].
        -- congruence.
        -- by exists y.
Qed.


Lemma contains_valid i x :
  valid i ->
  Interval.__contains__ i x = Ok true ->
  exists lo hi c,
    i = {| __class__ := __class__ i;
           start := symbol (__class__ i) lo; end_ := symbol (__class__ i) hi |}
    /\ x = symbol (__class__ i) c /\ lo <= c <= hi.
Proof.
  intros Hv Hc. destruct (valid_inv i Hv) as (lo & hi & Hle & Hs & He).
  destruct i as [cls s e]. simpl in *. subst s e.
  destruct (is_char_of_type_cases cls x) as [(c & -> & _)|[Hne _]].
  - rewrite contains_symbol in Hc. injection Hc as Hc.
    apply andb_true_iff in Hc as [H1%Z.leb_le H2%Z.leb_le].
    by exists lo, hi, c.
  - by rewrite contains_not_symbol in Hc.
Qed.

Lemma symbols_valid i :
  valid i ->
  exists lo hi,
    lo <= hi
    /\ i = {| __class__ := __class__ i;
              start := symbol (__class__ i) lo;
              end_ := symbol (__class__ i) hi |}
    /\ symbols i = symbol (__class__ i) <$> seqZ lo (hi + 1 - lo).
Proof.
  intros Hv. destruct (valid_inv i Hv) as (lo & hi & Hle & Hs & He).
  destruct i as [cls s e]. simpl in *. subst s e.
  exists lo, hi. split; [done |]. split; [done |].
  unfold symbols. by rewrite iter_symbols.
Qed.

Lemma elem_of_symbols i x :
  valid i -> Interval.__contains__ i x = Ok true -> x ∈ symbols i.
Proof.
  intros Hv Hc.
  destruct (contains_valid i x Hv Hc) as (lo & hi & c & Hi & -> & Hc').
  destruct (symbols_valid i Hv) as (lo' & hi' & _ & Hi' & ->).
  rewrite Hi in Hi'. injection Hi' as Hlo Hhi.
  assert (lo' = lo) as -> by (destruct (__class__ i); by injection Hlo).
  assert (hi' = hi) as -> by (destruct (__class__ i); by injection Hhi).
  apply list_elem_of_fmap_2. apply elem_of_seqZ. lia.
Qed.

Lemma share_symbol_intersects i j :
  valid i -> valid j -> __class__ i = __class__ j ->
  share_symbol i j -> intersects i j = Ok true.
Proof.
  intros Hi Hj Hcls (x & Hxi & Hxj).
  destruct (contains_valid i x Hi Hxi) as (lo1 & hi1 & c1 & Ei & Ex1 & Hc1).
  destruct (contains_valid j x Hj Hxj) as (lo2 & hi2 & c2 & Ej & Ex2 & Hc2).
  rewrite Ei, Ej, <- Hcls. rewrite <- Hcls in Ex2.
  assert (c2 = c1) as ->.
  { rewrite Ex1 in Ex2. destruct (__class__ i); by injection Ex2. }
  rewrite intersects_symbols. f_equal. apply Z.leb_le. lia.
Qed.

Lemma intersects_valid_ok i j :
  valid i -> valid j -> __class__ i = __class__ j ->
  exists b, intersects i j = Ok b.
Proof.
  intros Hi Hj Hcls.
  destruct (valid_inv i Hi) as (lo1 & hi1 & _ & Hs1 & He1).
  destruct (valid_inv j Hj) as (lo2 & hi2 & _ & Hs2 & He2).
  destruct i as [c1 s1 e1], j as [c2 s2 e2]. simpl in *. subst.
  rewrite intersects_symbols. by eexists.
Qed.

(** The loop of [_intervals_must_not_overlap] raises as soon as an
    interval meets one seen before it. *)
Lemma must_not_overlap_loop_raises : forall intervals seen,
  Forall valid (seen ++ intervals) -> same_kind (seen ++ intervals) ->
  (exists a b i j, (a < b)%nat /\ intervals !! a = Some i
                   /\ intervals !! b = Some j /\ share_symbol i j)
  \/ (exists i s, i ∈ intervals /\ s ∈ seen /\ share_symbol i s) ->
  _intervals_must_not_overlap_loop intervals seen = Raise OverlappingIntervals.
Proof.
  induction intervals as [|cur rest IH]; intros seen Hv Hk Hshare.
  - destruct Hshare as [(a & b & i & j & _ & Ha & _)|(i & s & Hi & _)].
    + done.
    + by apply elem_of_nil in Hi.
  - simpl.
    assert (valid cur) as Hcur.
    { rewrite Forall_forall in Hv. apply Hv, elem_of_app. right. left. }
    destruct (any_ok (intersects cur) seen) as (ov & -> & Hov).
    { intros s Hs. apply intersects_valid_ok; [done | |].
      - rewrite Forall_forall in Hv. apply Hv, elem_of_app. by left.
      - apply Hk; apply elem_of_app; [right; left | by left]. }
    simpl. destruct ov; [done |].
    apply IH.
    + by rewrite <- app_assoc.
    + by rewrite <- app_assoc.
    + destruct Hshare
        as [(a & b & i & j & Hab & Ha & Hb & Hs)|(i & s & Hi & Hs & Hsh)].
      * destruct a as [|a].
        -- simpl in Ha. injection Ha as <-. destruct b as [|b]; [lia |].
           simpl in Hb. right. exists j, cur.
           split; [by eapply list_elem_of_lookup_2 |].
           split; [apply elem_of_app; right; left |].
           destruct Hs as (x & ? & ?). by exists x.
        -- destruct b as [|b]; [lia |]. simpl in Ha, Hb.
           left. exists a, b, i, j. split; [lia | done].
      * apply elem_of_cons in Hi as [->|Hi].
        -- assert (false = true) as Habs; [|done].
           apply Hov. exists s. split; [done |].
           apply share_symbol_intersects; [done | | | done].
           ++ rewrite Forall_forall in Hv. apply Hv, elem_of_app. by left.
           ++ apply Hk; apply elem_of_app; [right; left | by left].
        -- right. exists i, s. split; [done |].
           split; [apply elem_of_app; by left | done].
Qed.

Lemma same_kind_same_type intervals :
  same_kind intervals -> _intervals_must_have_same_type intervals = Ok ().
Proof.
  intros Hk. unfold _intervals_must_have_same_type.
  pose proof (NoDup_remove_dups (Interval.__class__ <$> intervals)) as Hnd.
  assert (forall x y, x ∈ remove_dups (Interval.__class__ <$> intervals) ->
                      y ∈ remove_dups (Interval.__class__ <$> intervals) ->
                      x = y) as Heq.
  { intros x y Hx Hy.
    apply (proj1 (elem_of_remove_dups _ _)) in Hx.
    apply (proj1 (elem_of_remove_dups _ _)) in Hy.
    apply list_elem_of_fmap in Hx as (i & -> & Hi).
    apply list_elem_of_fmap in Hy as (j & -> & Hj). by apply Hk. }
  destruct (remove_dups _) as [|x [|y l]]; [done | done |].
  assert (x = y) as ->.
  { apply Heq; [left | right; left]. }
  apply NoDup_cons in Hnd as [Hnd _]. destruct Hnd. left.
Qed.

Lemma same_type_same_kind intervals :
  _intervals_must_have_same_type intervals = Ok () -> same_kind intervals.
Proof.
  unfold _intervals_must_have_same_type. intros Hl i j Hi Hj.
  assert (__class__ i ∈ remove_dups (Interval.__class__ <$> intervals))
    as Hil.
  { apply elem_of_remove_dups, list_elem_of_fmap. by exists i. }
  assert (__class__ j ∈ remove_dups (Interval.__class__ <$> intervals))
    as Hjl.
  { apply elem_of_remove_dups, list_elem_of_fmap. by exists j. }
  destruct (remove_dups _) as [|x [|y l]]; [| | done].
  - by apply elem_of_nil in Hil.
  - apply list_elem_of_singleton in Hil, Hjl. congruence.
Qed.

End IndexMapConstruction.

Section Populate.

Import Interval IndexMap.

Lemma populate_chars_app l1 : forall l2 idx c2i i2c,
  _populate_maps_chars (l1 ++ l2) idx c2i i2c
  = let? '(idx', c2i', i2c') := _populate_maps_chars l1 idx c2i i2c in
    _populate_maps_chars l2 idx' c2i' i2c'.
Proof.
  induction l1 as [|c l1 IH]; intros l2 idx c2i i2c; simpl; [done |].
  destruct (bool_decide _); [done |]. apply IH.
Qed.

Lemma iter_valid i : valid i -> Interval.__iter__ i = Ok (symbols i).
Proof.
  intros Hv. destruct (valid_inv i Hv) as (lo & hi & _ & Hs & He).
  destruct i as [cls s e]. simpl in *. subst s e.
  unfold symbols. by rewrite iter_symbols.
Qed.

Lemma populate_loop_flat : forall intervals idx c2i i2c,
  Forall valid intervals ->
  _populate_maps_loop intervals idx c2i i2c
  = let? '(_, c2i', i2c') :=
      _populate_maps_chars (all_symbols intervals) idx c2i i2c in
    Ok (c2i', i2c').
Proof.
  induction intervals as [|i rest IH]; intros idx c2i i2c Hv; simpl; [done |].
  apply Forall_cons in Hv as [Hi Hrest].
  unfold all_symbols. simpl. rewrite populate_chars_app.
  rewrite (iter_valid i Hi). cbn [bind].
  destruct (_populate_maps_chars _ idx c2i i2c) as [[[idx' a] b]|]; [|done].
  cbn [bind]. by apply IH.
Qed.

Lemma populate_chars_raises : forall chars idx c2i i2c,
  ~ NoDup chars \/ (exists c, c ∈ chars /\ is_Some (c2i !! c)) ->
  _populate_maps_chars chars idx c2i i2c = Raise OverlappingIntervals.
Proof.
  induction chars as [|c chars IH]; intros idx c2i i2c H; simpl.
  - destruct H as [H|(c & Hc & _)]; [destruct H; constructor |].
    by apply elem_of_nil in Hc.
  - case_bool_decide as Hin; [done |].
    apply IH. destruct (decide (c ∈ chars)) as [Hc|Hc].
    + right. exists c. split; [done |]. rewrite lookup_insert_eq. by eexists.
    + destruct H as [H|(c' & Hc' & Hs)].
      * left. intros Hnd. apply H. by constructor.
      * right. exists c'. apply elem_of_cons in Hc' as [->|Hc']; [done |].
        split; [done |]. rewrite lookup_insert_ne; [done |]. by intros ->.
Qed.

Lemma populate_chars_ok : forall chars idx c2i i2c idx' c2i' i2c',
  _populate_maps_chars chars idx c2i i2c = Ok (idx', c2i', i2c') ->
  idx' = idx + Z.of_nat (length chars)
  /\ NoDup chars
  /\ (forall c, c ∈ chars -> c2i !! c = None)
  /\ (forall c k,
        c2i' !! c = Some k
        <-> c2i !! c = Some k
            \/ exists j : nat, chars !! j = Some c /\ k = idx + Z.of_nat j)
  /\ ((forall k, idx <= k -> i2c !! k = None) ->
      forall k c,
        i2c' !! k = Some c
        <-> i2c !! k = Some c
            \/ exists j : nat, chars !! j = Some c /\ k = idx + Z.of_nat j)
  /\ size c2i' = (size c2i + length chars)%nat.
Proof.
  induction chars as [|c chars IH]; intros idx c2i i2c idx' c2i' i2c' H;
    simpl in H.
  - injection H as <- <- <-. simpl. split; [lia |]. split; [constructor |].
    split; [by intros c Hc%elem_of_nil |].
    split; [|split; [intros _|lia]].
    + intros c k. split; [by left |]. by intros [?|(j & Hj & _)].
    + intros k c. split; [by left |]. by intros [?|(j & Hj & _)].
  - case_bool_decide as Hin; [done |].
    assert (c2i !! c = None) as Hnone.
    { destruct (c2i !! c) eqn:E; [|done]. destruct Hin. by eexists. }
    apply IH in H as (-> & Hnd & Hfresh & Hc2i & Hi2c & Hsize).
    assert (c ∉ chars) as Hc.
    { intros Hc. apply Hfresh in Hc. by rewrite lookup_insert_eq in Hc. }
    split; [simpl length; lia |]. split; [by constructor |].
    split; [|split; [|split]].
    + intros c' [->|Hc']%elem_of_cons; [done |].
      rewrite <- (Hfresh c' Hc'). rewrite lookup_insert_ne; [done |].
      by intros ->.
    + intros x k. rewrite Hc2i. split.
      * intros [Hx|(j & Hj & ->)].
        -- destruct (decide (c = x)) as [->|Hne].
           ++ rewrite lookup_insert_eq in Hx. injection Hx as <-.
              right. exists 0%nat. split; [done | lia].
           ++ rewrite lookup_insert_ne in Hx by done. by left.
        -- right. exists (S j). split; [done | lia].
      * intros [Hx|(j & Hj & ->)].
        -- left. rewrite lookup_insert_ne; [done |]. intros ->. congruence.
        -- destruct j as [|j]; simpl in Hj.
           ++ injection Hj as ->. left. rewrite lookup_insert_eq.
              f_equal. lia.
           ++ right. exists j. split; [done | lia].
    + intros Hhi k x. rewrite Hi2c.
      * split.
        -- intros [Hx|(j & Hj & ->)].
           ++ destruct (decide (idx = k)) as [->|Hne].
              ** rewrite lookup_insert_eq in Hx. injection Hx as <-.
                 right. exists 0%nat. split; [done | lia].
              ** rewrite lookup_insert_ne in Hx by done. by left.
           ++ right. exists (S j). split; [done | lia].
        -- intros [Hx|(j & Hj & ->)].
           ++ left. rewrite lookup_insert_ne; [done |]. intros ->.
              rewrite Hhi in Hx; [done | lia].
           ++ destruct j as [|j]; simpl in Hj.
              ** injection Hj as ->. left.
                 replace (idx + Z.of_nat 0) with idx by lia.
                 by rewrite lookup_insert_eq.
              ** right. exists j. split; [done | lia].
      * intros k' Hk. rewrite lookup_insert_ne by lia. apply Hhi. lia.
    + rewrite Hsize, map_size_insert_None by done. simpl length. lia.
Qed.

Lemma NoDup_concat_disjoint {A} : forall (ls : list (list A)) a b la lb x,
  NoDup (concat ls) -> (a < b)%nat ->
  ls !! a = Some la -> ls !! b = Some lb -> x ∈ la -> x ∈ lb -> False.
Proof.
  induction ls as [|l ls IH]; intros a b la lb x Hnd Hab Ha Hb Hxa Hxb;
    [done |].
  simpl in Hnd. apply NoDup_app in Hnd as (_ & Hdisj & Hnd).
  destruct b as [|b]; [lia |]. simpl in Hb. destruct a as [|a]; simpl in Ha.
  - injection Ha as ->. apply (Hdisj x Hxa).
    apply list_elem_of_In, in_concat. exists lb.
    split; apply list_elem_of_In; [by eapply list_elem_of_lookup_2 | done].
  - apply (IH a b la lb x); [done | lia | done..].
Qed.

End Populate.

Section Overlap.

Import Interval IndexMap.

Lemma share_symbol_sym i j : share_symbol i j -> share_symbol j i.
Proof. intros (x & ? & ?). by exists x. Qed.

Lemma all_symbols_dup intervals a b i j :
  Forall valid intervals -> (a < b)%nat ->
  intervals !! a = Some i -> intervals !! b = Some j -> share_symbol i j ->
  ~ NoDup (all_symbols intervals).
Proof.
  intros Hv Hab Ha Hb (x & Hxi & Hxj) Hnd.
  rewrite Forall_forall in Hv.
  apply (NoDup_concat_disjoint (symbols <$> intervals) a b
           (symbols i) (symbols j) x); [done | done | | | |].
  - by rewrite list_lookup_fmap, Ha.
  - by rewrite list_lookup_fmap, Hb.
  - apply elem_of_symbols; [|done]. apply Hv. by eapply list_elem_of_lookup_2.
  - apply elem_of_symbols; [|done]. apply Hv. by eapply list_elem_of_lookup_2.
Qed.

Lemma init_overlap intervals a b i j lookup_char lookup_index :
  Forall valid intervals -> same_kind intervals -> (a < b)%nat ->
  intervals !! a = Some i -> intervals !! b = Some j -> share_symbol i j ->
  IndexMap.__init__ intervals None None = Raise OverlappingIntervals
  /\ IndexMap.__init__ intervals (Some lookup_char) (Some lookup_index)
     = Raise OverlappingIntervals.
Proof.
  intros Hv Hk Hab Ha Hb Hs. unfold IndexMap.__init__.
  destruct intervals as [|first rest] eqn:E; [done |]. rewrite <- E in *.
  rewrite (same_kind_same_type _ Hk). cbn [bind].
  assert (exists e, match element_type first with
                    | type_str => Ok NotACharacter
                    | type_bytes => Ok NotAByte
                    | _ => Raise RuntimeError
                    end = Ok e) as [e ->].
  { unfold element_type. destruct (__class__ first); by eexists. }
  cbn [bind]. split.
  - cbn. unfold _populate_maps. rewrite populate_loop_flat by done.
    rewrite populate_chars_raises; [done |]. left.
    by eapply all_symbols_dup.
  - cbn. unfold _intervals_must_not_overlap.
    rewrite must_not_overlap_loop_raises; [done | done | done |].
    left. by exists a, b, i, j.
Qed.

(** C7: a list of valid intervals of one kind in which two intervals (at
    two positions of the list) share a symbol is rejected with
    [OverlappingIntervals], both without lookup functions, where the
    tables are populated and the shared symbol is met a second time, and
    with both lookup functions, where the intervals are compared two by
    two. *)
Theorem overlapping_intervals_are_rejected
  intervals a b i j lookup_char lookup_index :
  Forall valid intervals -> same_kind intervals -> a <> b ->
  intervals !! a = Some i -> intervals !! b = Some j -> share_symbol i j ->
  IndexMap.__init__ intervals None None = Raise OverlappingIntervals
  /\ IndexMap.__init__ intervals (Some lookup_char) (Some lookup_index)
     = Raise OverlappingIntervals.
Proof.
  intros Hv Hk Hab Ha Hb Hs.
  destruct (Nat.lt_total a b) as [Hlt|[->|Hgt]]; [|done |].
  - by apply (init_overlap intervals a b i j).
  - apply (init_overlap intervals b a j i); try done.
    by apply share_symbol_sym.
Qed.

(** Intervals spanning the code points 0 to 10 and 5 to 15. *)
Lemma overlapping_intervals_are_rejected_witness :
  new CharacterInterval (chr 0) (chr 10)
  = Ok {| __class__ := CharacterInterval;
               start := chr 0; end_ := chr 10 |}
  /\ new CharacterInterval (chr 5) (chr 15)
     = Ok {| __class__ := CharacterInterval;
               start := chr 5; end_ := chr 15 |}
  /\ IndexMap.__init__
       [{| __class__ := CharacterInterval;
               start := chr 0; end_ := chr 10 |};
        {| __class__ := CharacterInterval;
               start := chr 5; end_ := chr 15 |}]
       None None = Raise OverlappingIntervals
  /\ IndexMap.__init__
       [{| __class__ := CharacterInterval;
               start := chr 0; end_ := chr 10 |};
        {| __class__ := CharacterInterval;
               start := chr 5; end_ := chr 15 |}]
       (Some _ascii_index_from_char_or_byte) (Some _ascii_char_from_index)
     = Raise OverlappingIntervals.
Proof.
  split; [reflexivity |]. split; [reflexivity |].
  apply (overlapping_intervals_are_rejected
           [{| __class__ := CharacterInterval;
               start := chr 0; end_ := chr 10 |};
            {| __class__ := CharacterInterval;
               start := chr 5; end_ := chr 15 |}]
           0%nat 1%nat
           {| __class__ := CharacterInterval;
               start := chr 0; end_ := chr 10 |}
           {| __class__ := CharacterInterval;
               start := chr 5; end_ := chr 15 |}).
  - repeat constructor.
  - intros x y Hx Hy. repeat (apply elem_of_cons in Hx as [->|Hx]);
      repeat (apply elem_of_cons in Hy as [->|Hy]);
      try reflexivity; by apply elem_of_nil in Hx || by apply elem_of_nil in Hy.
  - lia.
  - reflexivity.
  - reflexivity.
  - exists (chr 7). split; reflexivity.
Defined.

End Overlap.

(** ** Lookups in an index map *)

Section Lookups.

Import IndexMap.

Lemma sum_of_lengths_valid : forall intervals total,
  Forall valid intervals ->
  exists n, sum_of_lengths intervals total = Ok n.
Proof.
  induction intervals as [|i rest IH]; intros total Hv; simpl.
  - by eexists.
  - apply Forall_cons in Hv as [Hi Hrest].
    destruct (valid_inv i Hi) as (lo & hi & Hle & Hs & He).
    destruct i as [cls s e]. simpl in *. subst s e.
    rewrite len_symbols by done. cbn [bind]. by apply IH.
Qed.

Lemma all_symbols_are_symbols intervals first x :
  Forall valid intervals -> same_kind intervals -> first ∈ intervals ->
  x ∈ all_symbols intervals ->
  _is_char_of_type x (Interval.element_type first) = Ok true.
Proof.
  intros Hv Hk Hf Hx. unfold all_symbols in Hx.
  apply list_elem_of_In, in_concat in Hx as (l & Hl & Hx).
  apply list_elem_of_In, list_elem_of_fmap in Hl as (i & -> & Hi).
  apply list_elem_of_In in Hx. rewrite Forall_forall in Hv.
  destruct (symbols_valid i (Hv i Hi)) as (lo & hi & _ & _ & Hsym).
  rewrite Hsym in Hx. apply list_elem_of_fmap in Hx as (c & -> & _).
  apply is_char_symbol. unfold Interval.element_type.
  by rewrite (Hk first i Hf Hi).
Qed.

Lemma init_invariant intervals lookup_char lookup_index m :
  Forall valid intervals ->
  __init__ intervals lookup_char lookup_index = Ok m ->
  exists n, invariant m n.
Proof.
  intros Hv. unfold __init__.
  destruct (only_one_given _) eqn:Hone; [done |].
  destruct intervals as [|first rest] eqn:E; [done |]. rewrite <- E in *.
  destruct (_intervals_must_have_same_type intervals) as [[]|] eqn:Hsame;
    [|done]. cbn [bind].
  apply same_type_same_kind in Hsame.
  assert (first ∈ intervals) as Hfirst by (rewrite E; left).
  assert (Interval.element_type first = type_str
          \/ Interval.element_type first = type_bytes) as Htype.
  { unfold Interval.element_type. destruct (Interval.__class__ first); auto. }
  assert (exists e, match Interval.element_type first with
                    | type_str => Ok NotACharacter
                    | type_bytes => Ok NotAByte
                    | _ => Raise RuntimeError
                    end = Ok e) as [e ->].
  { destruct Htype as [-> | ->]; by eexists. }
  cbn [bind]. destruct (both_given _) eqn:Hboth.
  - destruct (_intervals_must_not_overlap intervals) as [[]|]; [|done].
    cbn [bind]. intros [= <-].
    destruct (sum_of_lengths_valid intervals 0 Hv) as [n Hn].
    exists n. split; simpl; try done.
    unfold both_given in Hboth. simpl in Hboth. intros _.
    destruct lookup_char as [f|], lookup_index as [g|]; try done.
    exists f, g. by repeat split.
  - unfold _populate_maps. rewrite populate_loop_flat by done.
    destruct (_populate_maps_chars _ _ _ _) as [[[idx c2i] i2c]|] eqn:Hpop;
      [|done].
    cbn [bind]. intros [= <-].
    apply populate_chars_ok in Hpop as (_ & Hnd & _ & Hc2i & Hi2c & Hsize).
    specialize (Hi2c (fun k _ => lookup_empty k)).
    rewrite map_size_empty in Hsize. simpl in Hsize.
    exists (Z.of_nat (length (all_symbols intervals))).
    split; simpl.
    + unfold __len__. simpl. by rewrite Hsize.
    + done.
    + intros c k [Hc|(j & Hj & ->)]%Hc2i; [done |]. split.
      * apply (all_symbols_are_symbols intervals); try done.
        by eapply list_elem_of_lookup_2.
      * apply lookup_lt_Some in Hj. lia.
    + intros k c [Hc|(j & Hj & ->)]%Hi2c; [done |]. split.
      * apply (all_symbols_are_symbols intervals); try done.
        by eapply list_elem_of_lookup_2.
      * apply lookup_lt_Some in Hj. lia.
    + intros _. unfold both_given, only_one_given, both_omitted in *.
      simpl in *.
      destruct lookup_char, lookup_index; try done.
      split; [done |]. split; [done |]. split.
      * intros c k. rewrite Hc2i, Hi2c. split; intros [?|?]; try done; by right.
      * intros k Hk.
        destruct (lookup_lt_is_Some_2 (all_symbols intervals) (Z.to_nat k))
          as [c Hc]; [lia |].
        exists c. apply Hi2c. right. exists (Z.to_nat k). split; [done | lia].
    + done.
Qed.

Lemma contains_int_spec m n k :
  __len__ m = Ok n ->
  __contains__int k m = Ok (bool_decide (0 <= k < n)).
Proof.
  intros Hn. unfold __contains__int. rewrite Hn.
  destruct (Z.leb_spec 0 k); simpl.
  - f_equal. destruct (Z.ltb_spec k n).
    + by rewrite bool_decide_eq_true_2 by lia.
    + by rewrite bool_decide_eq_false_2 by lia.
  - f_equal. by rewrite bool_decide_eq_false_2 by lia.
Qed.

Lemma same_map_refl m : same_map m m.
Proof. by repeat split. Qed.

Lemma same_map_trans m1 m2 m3 :
  same_map m1 m2 -> same_map m2 m3 -> same_map m1 m3.
Proof.
  intros (?&?&?&?&?) (?&?&?&?&?). repeat split; congruence.
Qed.

Lemma get_index_hit m n c k :
  invariant m n -> _char_to_index m !! c = Some k ->
  _get_index_given_char c m = (Ok k, m).
Proof.
  intros Hinv Hc. destruct (inv_chars m n Hinv c k Hc) as [Hsym _].
  unfold _get_index_given_char, mbind, get, lift. unfold is_symbol in Hsym.
  rewrite Hsym. simpl. by rewrite Hc.
Qed.

Lemma get_char_hit m n k c :
  invariant m n -> _index_to_char m !! k = Some c ->
  _get_char_given_index k m = (Ok c, m).
Proof.
  intros Hinv Hk. destruct (inv_indices m n Hinv k c Hk) as [_ Hr].
  unfold _get_char_given_index, mbind, get, lift.
  rewrite (contains_int_spec m n k (inv_len m n Hinv)).
  rewrite bool_decide_eq_true_2 by done. simpl. by rewrite Hk.
Qed.

Local Ltac unchanged :=
  intros [= <- <-];
  (split; [done |]; split; [apply same_map_refl |]; split; [done |]);
  try (by intros ? [= <-]); done.

Lemma get_index_result m n c r m' :
  invariant m n -> _get_index_given_char c m = (r, m') ->
  invariant m' n /\ same_map m m'
  /\ (_maps_populated m = true -> m' = m)
  /\ (forall k, r = Ok k -> _char_to_index m' !! c = Some k).
Proof.
  intros Hinv. pose proof (inv_len m n Hinv) as Hlen.
  unfold _get_index_given_char, mbind, get, lift, raise, ret, put.
  destruct (_is_char_of_type c (_element_type m)) as [[|]|e] eqn:Hchar;
    simpl; [|unchanged..].
  destruct (_char_to_index m !! c) as [k|] eqn:Hc.
  { unchanged. }
  destruct (lookup_char (_searchers m)) as [f|] eqn:Hf;
    [|unchanged].
  destruct (f c) as [o|e] eqn:Hfc; simpl;
    [|unchanged].
  assert (_maps_populated m = false) as Hlazy.
  { destruct (_maps_populated m) eqn:E; [|done].
    destruct (inv_eager m n Hinv E) as (Hnone & _). congruence. }
  destruct o as [| |i|]; simpl; rewrite ?Hlen; simpl;
    try unchanged.
  rewrite (contains_int_spec m n i Hlen). simpl.
  case_bool_decide as Hi; simpl;
    [|rewrite ?Hlen; simpl; unchanged].
  intros [= <- <-]. split; [|split; [by repeat split |]; split].
  - destruct (inv_lazy m n Hinv Hlazy) as (f' & g & Hf' & Hg & Hcf & Hcg).
    split; simpl.
    + unfold __len__ in *. simpl. by rewrite Hlazy in *.
    + apply (inv_type m n Hinv).
    + intros c' k'. destruct (decide (c = c')) as [<-|Hne].
      * rewrite lookup_insert_eq. by intros [= <-].
      * rewrite lookup_insert_ne by done. apply (inv_chars m n Hinv).
    + apply (inv_indices m n Hinv).
    + congruence.
    + intros _. exists f', g. split; [done |]. split; [done |].
      split; [|done]. intros c' k'.
      destruct (decide (c = c')) as [<-|Hne].
      * rewrite lookup_insert_eq. intros [= <-]. congruence.
      * rewrite lookup_insert_ne by done. apply Hcf.
  - congruence.
  - intros k [= <-]. simpl. by rewrite lookup_insert_eq.
Qed.

Lemma get_char_result m n k r m' :
  invariant m n -> _get_char_given_index k m = (r, m') ->
  invariant m' n /\ same_map m m'
  /\ (_maps_populated m = true -> m' = m)
  /\ (forall c, r = Ok c -> _index_to_char m' !! k = Some c).
Proof.
  intros Hinv. pose proof (inv_len m n Hinv) as Hlen.
  unfold _get_char_given_index, mbind, get, lift, raise, ret, put.
  rewrite (contains_int_spec m n k Hlen).
  case_bool_decide as Hk; simpl;
    [|unchanged].
  destruct (_index_to_char m !! k) as [c|] eqn:Hc.
  { unchanged. }
  destruct (lookup_index (_searchers m)) as [g|] eqn:Hg;
    [|unchanged].
  destruct (g k) as [o|e] eqn:Hgk; simpl;
    [|unchanged].
  assert (_maps_populated m = false) as Hlazy.
  { destruct (_maps_populated m) eqn:E; [|done].
    destruct (inv_eager m n Hinv E) as (_ & Hnone & _). congruence. }
  destruct (_is_char_of_type o (_element_type m)) as [[|]|e] eqn:Hchar;
    simpl;
    try unchanged.
  intros [= <- <-]. split; [|split; [by repeat split |]; split].
  - destruct (inv_lazy m n Hinv Hlazy) as (f & g' & Hf & Hg' & Hcf & Hcg).
    split; simpl.
    + unfold __len__ in *. simpl. by rewrite Hlazy in *.
    + apply (inv_type m n Hinv).
    + apply (inv_chars m n Hinv).
    + intros k' c'. destruct (decide (k = k')) as [<-|Hne].
      * rewrite lookup_insert_eq. by intros [= <-].
      * rewrite lookup_insert_ne by done. apply (inv_indices m n Hinv).
    + congruence.
    + intros _. exists f, g'. split; [done |]. split; [done |].
      split; [done |]. intros k' c'.
      destruct (decide (k = k')) as [<-|Hne].
      * rewrite lookup_insert_eq. intros [= <-]. congruence.
      * rewrite lookup_insert_ne by done. apply Hcg.
  - congruence.
  - intros c [= <-]. simpl. by rewrite lookup_insert_eq.
Qed.

Lemma is_symbol_isinstance m c :
  is_symbol m c -> isinstance c (_element_type m) = true.
Proof.
  unfold is_symbol, _is_char_of_type. by destruct (isinstance _ _).
Qed.

Lemma is_symbol_not_int m n c i :
  invariant m n -> is_symbol m c -> c <> PyInt i.
Proof.
  intros Hinv Hc%is_symbol_isinstance ->.
  by destruct (inv_type m n Hinv) as [E|E]; rewrite E in Hc.
Qed.

Lemma getitem_symbol m n c :
  invariant m n -> is_symbol m c ->
  __getitem__ c m
  = (let! index := _get_index_given_char c in ret (PyInt index)) m.
Proof.
  intros Hinv Hc. pose proof (is_symbol_isinstance m c Hc) as Hi.
  unfold __getitem__, mbind at 1, get.
  destruct c as [s|b|i|]; try by rewrite Hi.
  by destruct (is_symbol_not_int m n (PyInt i) i Hinv Hc).
Qed.

Lemma contains_result m n item r m' :
  invariant m n -> __contains__ item m = (r, m') ->
  invariant m' n /\ same_map m m'
  /\ (_maps_populated m = true -> m' = m)
  /\ (r = Ok true ->
      (exists i, item = PyInt i /\ 0 <= i < n /\ m' = m)
      \/ (exists k, _char_to_index m' !! item = Some k)).
Proof.
  intros Hinv. unfold __contains__, mbind, get, ret.
  destruct (negb _); [unchanged |].
  assert (forall r0 m0, _get_index_given_char item m = (r0, m0) ->
            (match r0 with
             | Ok _ => (Ok true, m0)
             | Raise e =>
                 if is_LookupError_or_ValueError e then (Ok false, m0)
                 else (Raise e, m0)
             end) = (r, m') ->
            invariant m' n /\ same_map m m'
            /\ (_maps_populated m = true -> m' = m)
            /\ (r = Ok true ->
                (exists i, item = PyInt i /\ 0 <= i < n /\ m' = m)
                \/ (exists k, _char_to_index m' !! item = Some k))) as Hchar.
  { intros r0 m0 Hget Hres.
    destruct (get_index_result m n item r0 m0 Hinv Hget) as (H1 & H2 & H3 & H4).
    destruct r0 as [k|e].
    - injection Hres as <- <-. split; [done |]. split; [done |].
      split; [done |]. intros _. right. exists k. by apply H4.
    - destruct (is_LookupError_or_ValueError e); injection Hres as <- <-;
        (split; [done |]; split; [done |]; split; done). }
  destruct item as [s|b|i|]; unfold try_except_else;
    try (destruct (_get_index_given_char _ m) as [r0 m0] eqn:Hget;
         apply (Hchar r0 m0 eq_refl)).
  unfold lift. rewrite (contains_int_spec m n i (inv_len m n Hinv)).
  intros [= <- <-]. split; [done |]. split; [apply same_map_refl |].
  split; [done |]. intros [= Hi%bool_decide_eq_true]. left. by exists i.
Qed.

Lemma getitem_result m n item r m' :
  invariant m n -> __getitem__ item m = (r, m') ->
  invariant m' n /\ same_map m m' /\ (_maps_populated m = true -> m' = m).
Proof.
  intros Hinv. unfold __getitem__, mbind at 1, get.
  assert (forall X : M object, X m = (r, m') ->
            (X = (let! index := _get_index_given_char item in ret (PyInt index))
             \/ X = raise TypeError) ->
            invariant m' n /\ same_map m m'
            /\ (_maps_populated m = true -> m' = m)) as Hchar.
  { intros X HX [-> | ->].
    - unfold mbind, ret in HX.
      destruct (_get_index_given_char item m) as [r0 m0] eqn:Hget.
      destruct (get_index_result m n item r0 m0 Hinv Hget)
        as (H1 & H2 & H3 & _).
      destruct r0; by injection HX as <- <-.
    - injection HX as <- <-. split; [done |].
      split; [apply same_map_refl | done]. }
  destruct item as [s|b|i|];
    try (intros HX; apply (Hchar _ HX); destruct (isinstance _ _); auto).
  intros Hget.
  by destruct (get_char_result m n i r m' Hinv Hget) as (H1 & H2 & H3 & _).
Qed.

Lemma reachable_invariant m : reachable m -> exists n, invariant m n.
Proof.
  induction 1 as [intervals f g m Hv Hinit|m item _ [n IH]|m item _ [n IH]].
  - by eapply init_invariant.
  - exists n. destruct (__getitem__ item m) as [r m'] eqn:E.
    by destruct (getitem_result m n item r m' IH E).
  - exists n. destruct (__contains__ item m) as [r m'] eqn:E.
    by destruct (contains_result m n item r m' IH E).
Qed.

(** C9: [i in m] for an integer [i] answers, without raising and
    without touching the caches, whether [0 <= i < len(m)]. *)
Theorem contains_index_iff_below_len m :
  reachable m ->
  exists n,
    __len__ m = Ok n
    /\ forall i, __contains__ (PyInt i) m = (Ok (bool_decide (0 <= i < n)), m).
Proof.
  intros [n Hinv]%reachable_invariant. exists n.
  pose proof (inv_len m n Hinv) as Hlen. split; [done |]. intros i.
  unfold __contains__, mbind, get, lift.
  replace (isinstance (PyInt i) (_element_type m)
           || isinstance (PyInt i) type_int)
    with true by (by destruct (_element_type m)).
  simpl. by rewrite (contains_int_spec m n i Hlen).
Qed.

End Lookups.

Section RoundTrip.

Import IndexMap.

Lemma mutually_inverse_same m m' n :
  invariant m n -> invariant m' n -> same_map m m' ->
  mutually_inverse m -> mutually_inverse m'.
Proof.
  intros Hinv Hinv' (_ & Hs & Ht & _) Hmi f g Hf Hg.
  rewrite Hs in Hf, Hg. destruct (Hmi f g Hf Hg) as [H1 H2].
  unfold is_symbol in *. rewrite Ht.
  split.
  - intros c k Hc Hk. apply H1; [done |].
    by rewrite (contains_int_spec m n k (inv_len m n Hinv)),
      <- (contains_int_spec m' n k (inv_len m' n Hinv')).
  - intros k Hk. apply H2.
    by rewrite (contains_int_spec m n k (inv_len m n Hinv)),
      <- (contains_int_spec m' n k (inv_len m' n Hinv')).
Qed.

Lemma get_char_miss m n k g c :
  invariant m n -> 0 <= k < n -> _index_to_char m !! k = None ->
  lookup_index (_searchers m) = Some g -> g k = Ok c -> is_symbol m c ->
  exists m', _get_char_given_index k m = (Ok c, m').
Proof.
  intros Hinv Hk Hmiss Hg Hgk Hc.
  unfold _get_char_given_index, mbind, get, lift, put, ret.
  rewrite (contains_int_spec m n k (inv_len m n Hinv)).
  rewrite bool_decide_eq_true_2 by done. simpl.
  rewrite Hmiss, Hg, Hgk. unfold is_symbol in Hc. rewrite Hc. simpl.
  by eexists.
Qed.

Lemma get_index_miss m n c f k :
  invariant m n -> is_symbol m c -> _char_to_index m !! c = None ->
  lookup_char (_searchers m) = Some f -> f c = Ok (PyInt k) -> 0 <= k < n ->
  exists m', _get_index_given_char c m = (Ok k, m').
Proof.
  intros Hinv Hc Hmiss Hf Hfc Hk.
  unfold _get_index_given_char, mbind, get, lift, put, ret.
  unfold is_symbol in Hc. rewrite Hc. simpl. rewrite Hmiss, Hf, Hfc.
  rewrite (contains_int_spec m n k (inv_len m n Hinv)).
  rewrite bool_decide_eq_true_2 by done. simpl. by eexists.
Qed.

Lemma lazy_or_eager m :
  {_maps_populated m = true} + {_maps_populated m = false}.
Proof. destruct (_maps_populated m); auto. Qed.

Lemma get_char_after_index m n c k :
  invariant m n -> mutually_inverse m ->
  _char_to_index m !! c = Some k ->
  exists m', _get_char_given_index k m = (Ok c, m').
Proof.
  intros Hinv Hmi Hc. destruct (inv_chars m n Hinv c k Hc) as [Hsym Hk].
  destruct (lazy_or_eager m) as [He|Hl].
  - destruct (inv_eager m n Hinv He) as (_ & _ & Hbij & _).
    exists m. apply (get_char_hit m n); [done |]. by apply Hbij.
  - destruct (inv_lazy m n Hinv Hl) as (f & g & Hf & Hg & Hcf & Hcg).
    destruct (Hmi f g Hf Hg) as [H1 _].
    assert (g k = Ok c) as Hgk.
    { apply H1; [done | | by apply Hcf].
      rewrite (contains_int_spec m n k (inv_len m n Hinv)).
      by rewrite bool_decide_eq_true_2. }
    destruct (_index_to_char m !! k) as [c'|] eqn:Hi.
    + exists m. apply (get_char_hit m n); [done |].
      rewrite Hi. f_equal. apply Hcg in Hi. congruence.
    + by apply (get_char_miss m n k g c).
Qed.

Lemma get_char_succeeds m n k :
  invariant m n -> mutually_inverse m -> 0 <= k < n ->
  exists c m', _get_char_given_index k m = (Ok c, m').
Proof.
  intros Hinv Hmi Hk. destruct (lazy_or_eager m) as [He|Hl].
  - destruct (inv_eager m n Hinv He) as (_ & _ & _ & Htotal).
    destruct (Htotal k Hk) as [c Hc]. exists c, m.
    by apply (get_char_hit m n).
  - destruct (inv_lazy m n Hinv Hl) as (f & g & Hf & Hg & Hcf & Hcg).
    destruct (Hmi f g Hf Hg) as [_ H2].
    destruct (_index_to_char m !! k) as [c|] eqn:Hi.
    + exists c, m. by apply (get_char_hit m n).
    + destruct (H2 k) as (c & Hgk & Hsym & _).
      { rewrite (contains_int_spec m n k (inv_len m n Hinv)).
        by rewrite bool_decide_eq_true_2. }
      exists c. by apply (get_char_miss m n k g c).
Qed.

Lemma get_index_after_char m n k c :
  invariant m n -> mutually_inverse m ->
  _index_to_char m !! k = Some c ->
  exists m', _get_index_given_char c m = (Ok k, m').
Proof.
  intros Hinv Hmi Hi. destruct (inv_indices m n Hinv k c Hi) as [Hsym Hk].
  destruct (lazy_or_eager m) as [He|Hl].
  - destruct (inv_eager m n Hinv He) as (_ & _ & Hbij & _).
    exists m. apply (get_index_hit m n); [done |]. by apply Hbij.
  - destruct (inv_lazy m n Hinv Hl) as (f & g & Hf & Hg & Hcf & Hcg).
    destruct (Hmi f g Hf Hg) as [_ H2].
    assert (f c = Ok (PyInt k)) as Hfc.
    { destruct (H2 k) as (c' & Hgk & _ & Hfc').
      { rewrite (contains_int_spec m n k (inv_len m n Hinv)).
        by rewrite bool_decide_eq_true_2. }
      apply Hcg in Hi. congruence. }
    destruct (_char_to_index m !! c) as [k'|] eqn:Hc.
    + exists m. apply (get_index_hit m n); [done |].
      rewrite Hc. f_equal. apply Hcf in Hc. congruence.
    + by apply (get_index_miss m n c f k).
Qed.

(** C3, as the code has it: the two lookups of a map undo each other
    when the map was built without lookup functions, and when its two
    lookup functions answer each other.  Every symbol [c] that the map
    contains is given back by the lookup of its index, and every integer
    [k] with [0 <= k < len(m)] is given back by the lookup of its
    symbol. *)
Theorem lookups_round_trip m :
  reachable m -> mutually_inverse m ->
  (forall c m1,
     (forall i, c <> PyInt i) ->
     __contains__ c m = (Ok true, m1) ->
     exists k m2 m3,
       __getitem__ c m1 = (Ok (PyInt k), m2)
       /\ __getitem__ (PyInt k) m2 = (Ok c, m3))
  /\ (forall k n,
        __len__ m = Ok n -> 0 <= k < n ->
        exists c m1 m2,
          __getitem__ (PyInt k) m = (Ok c, m1)
          /\ __getitem__ c m1 = (Ok (PyInt k), m2)).
Proof.
  intros [n Hinv]%reachable_invariant Hmi. split.
  - intros c m1 Hc Hin.
    destruct (contains_result m n c (Ok true) m1 Hinv Hin)
      as (Hinv1 & Hsame & _ & Hk).
    destruct (Hk eq_refl) as [(i & -> & _)|[k Hck]]; [by destruct (Hc i) |].
    destruct (inv_chars m1 n Hinv1 c k Hck) as [Hsym _].
    exists k, m1.
    destruct (get_char_after_index m1 n c k Hinv1) as [m3 Hget]; [|done |].
    { by apply (mutually_inverse_same m m1 n). }
    exists m3. split; [|done].
    rewrite (getitem_symbol m1 n c Hinv1 Hsym). unfold mbind.
    by rewrite (get_index_hit m1 n c k Hinv1 Hck).
  - intros k n' Hlen Hk.
    assert (n' = n) as -> by (pose proof (inv_len m n Hinv); congruence).
    destruct (get_char_succeeds m n k Hinv Hmi Hk) as (c & m1 & Hget).
    destruct (get_char_result m n k (Ok c) m1 Hinv Hget)
      as (Hinv1 & Hsame & _ & Hi).
    specialize (Hi c eq_refl).
    destruct (inv_indices m1 n Hinv1 k c Hi) as [Hsym _].
    destruct (get_index_after_char m1 n k c Hinv1) as [m2 Hget2]; [|done |].
    { by apply (mutually_inverse_same m m1 n). }
    exists c, m1, m2. split; [done |].
    rewrite (getitem_symbol m1 n c Hinv1 Hsym). unfold mbind.
    by rewrite Hget2.
Qed.

End RoundTrip.

Section RoundTripExamples.

Import IndexMap.

Lemma ASCII_is_ASCII_map : CharacterMap.ASCII = Ok ASCII_map.
Proof. reflexivity. Qed.

Lemma ASCII_map_reachable : reachable ASCII_map.
Proof.
  apply (reachable_init
           [{| Interval.__class__ := Interval.CharacterInterval;
               Interval.start := PyStr [0]; Interval.end_ := PyStr [255] |}]
           (Some _ascii_index_from_char_or_byte)
           (Some _ascii_char_from_index)).
  - repeat constructor.
  - reflexivity.
Defined.

Lemma ASCII_map_mutually_inverse : mutually_inverse ASCII_map.
Proof.
  intros f g [= <-] [= <-].
  unfold is_symbol, __contains__int. simpl. split.
  - intros c k Hc Hk.
    destruct (is_char_of_type_cases Interval.CharacterInterval c)
      as [(x & -> & _)|[_ Hne]]; [|unfold Interval.element_type in Hne;
                                   simpl in Hne; congruence].
    unfold _ascii_index_from_char_or_byte, _ascii_char_from_index. simpl.
    destruct ((0 <=? x) && (x <=? 255)); [|done]. by intros [= ->].
  - intros k Hk. exists (chr k). split; [done |]. split; [done |].
    unfold _ascii_index_from_char_or_byte. simpl.
    destruct (Z.leb_spec 0 k); [|done]. simpl in Hk. injection Hk as Hk.
    apply Z.ltb_lt in Hk.
    destruct (Z.leb_spec k 255); [done | lia].
Defined.

(** On the pre-built [ASCII] map, whose size is 256. *)
Lemma contains_index_iff_below_len_witness :
  exists n,
    __len__ ASCII_map = Ok n
    /\ forall i,
         __contains__ (PyInt i) ASCII_map
         = (Ok (bool_decide (0 <= i < n)), ASCII_map).
Proof.
  exact (contains_index_iff_below_len ASCII_map ASCII_map_reachable).
Defined.

(** On the pre-built [ASCII] map, with its two lookup functions, at
    index 65. *)
Lemma lookups_round_trip_witness :
  exists c m1 m2,
    __getitem__ (PyInt 65) ASCII_map = (Ok c, m1)
    /\ __getitem__ c m1 = (Ok (PyInt 65), m2).
Proof.
  refine (proj2 (lookups_round_trip ASCII_map ASCII_map_reachable
                   ASCII_map_mutually_inverse) 65 256 _ _).
  - reflexivity.
  - lia.
Defined.

(** A map over "a".."b" whose lookup functions are unrelated: every
    symbol is sent to index 0 and every index to "a".  "b" is in the
    map, and the symbol at the index of "b" is "a". *)
Lemma unrelated_lookups_do_not_round_trip :
  (let? i := Interval.new Interval.CharacterInterval (str "a") (str "b") in
   let? m :=
     __init__ [i] (Some (fun _ => Ok (PyInt 0)))
       (Some (fun _ => Ok (str "a"))) in
   fst ((let! present := __contains__ (str "b") in
         let! index := __getitem__ (str "b") in
         let! symbol := __getitem__ index in
         ret (present, index, symbol)) m))
  = Ok (true, PyInt 0, str "a")
  /\ str "a" <> str "b".
Proof. split; [reflexivity | discriminate]. Qed.

End RoundTripExamples.

(** ** Ranges *)

Section Ranges.

Import IndexMap _Range.

Lemma character_range_text cls s e :
  character_range (text cls s) (text cls e)
  = _Range.__init__ cls (text cls s) (text cls e).
Proof. by destruct cls. Qed.

Lemma len_text cls s : len (text cls s) = Ok (Z.of_nat (length s)).
Proof. by destruct cls. Qed.

Lemma gt_text cls s e : gt (text cls s) (text cls e) = Ok (seq_lt e s).
Proof. by destruct cls. Qed.

(** C2, as the code has it: the direction of a range is checked on the
    endpoints themselves.  With both endpoints valid, construction fails
    with [InvalidRangeDirection] exactly when [start] is longer than
    [end], or as long and greater in the lexicographic order of the code
    points (or byte values); the indices that the map assigns play no
    part.  A shorter [start] is never rejected against a longer [end]. *)
Theorem range_direction_is_checked_on_raw_symbols cls m s e :
  fst (_is_valid_endpoint (text cls s) m) = Ok true ->
  fst (_is_valid_endpoint (text cls e)
         (snd (_is_valid_endpoint (text cls s) m))) = Ok true ->
  (fst (character_range (text cls s) (text cls e) m)
     = Raise InvalidRangeDirection
   <-> (length e < length s)%nat
       \/ (length s = length e /\ seq_lt e s = true))
  /\ ((length s < length e)%nat
      \/ (length s = length e /\ seq_lt e s = false) ->
      fst (character_range (text cls s) (text cls e) m)
      = Ok {| __class__ := cls; _start := text cls s; _end := text cls e |}).
Proof.
  intros Hs He.
  assert (fst (character_range (text cls s) (text cls e) m)
          = if (Z.of_nat (length e) <? Z.of_nat (length s))
               || ((Z.of_nat (length s) =? Z.of_nat (length e))
                   && seq_lt e s)
            then Raise InvalidRangeDirection
            else Ok {| __class__ := cls;
                       _start := text cls s; _end := text cls e |}) as ->.
  { rewrite character_range_text.
    unfold _Range.__init__, mbind at 1 2.
    destruct (_is_valid_endpoint (text cls s) m) as [rs m1].
    simpl in Hs, He. subst rs.
    destruct (_is_valid_endpoint (text cls e) m1) as [re m2].
    simpl in He. subst re. cbn [negb orb].
    unfold mbind, lift, raise, ret. rewrite !len_text, gt_text.
    destruct (_ <? _); [done |]. destruct (_ =? _); [|done].
    by destruct (seq_lt e s). }
  destruct (Z.ltb_spec (Z.of_nat (length e)) (Z.of_nat (length s)))
    as [Hlt|Hge]; cbn [orb].
  { split; [split; [intros _; left; lia | done] | intros [?|[? _]]; lia]. }
  destruct (Z.eqb_spec (Z.of_nat (length s)) (Z.of_nat (length e)))
    as [Heq|Hne]; cbn [andb].
  - apply Nat2Z.inj in Heq. destruct (seq_lt e s).
    + split; [split; [intros _; by right | done] |].
      intros [?|[_ ?]]; [lia | done].
    + split; [split; [done | intros [?|[_ ?]]; [lia | done]] | done].
  - split; [split; [done | intros [?|[? _]]; lia] | done].
Qed.

(** From "b" to "aa", and from "b" to "a", over the pre-built [ASCII]
    map. *)
Lemma range_direction_is_checked_on_raw_symbols_witness :
  fst (character_range (str "b") (str "aa") ASCII_map)
  = Ok {| __class__ := StringRange; _start := str "b"; _end := str "aa" |}
  /\ fst (character_range (str "b") (str "a") ASCII_map)
     = Raise InvalidRangeDirection.
Proof.
  split.
  - refine (proj2 (range_direction_is_checked_on_raw_symbols
                     StringRange ASCII_map (code_points "b") (code_points "aa")
                     _ _) _).
    + reflexivity.
    + reflexivity.
    + left. simpl. lia.
  - refine (proj2 (proj1 (range_direction_is_checked_on_raw_symbols
                     StringRange ASCII_map (code_points "b") (code_points "a")
                     _ _)) _).
    + reflexivity.
    + reflexivity.
    + right. split; reflexivity.
Defined.

(** In [ASCII_LETTERS] "a" has index 0 and "A" index 26: by the indices
    of the map "a" comes before "A" (the collection of "a" is not greater
    than that of "A"), and yet the range from "a" to "A" is rejected,
    while the one from "A" to "a" is accepted. *)
Lemma range_direction_ignores_map_indices :
  on (CharacterMap.member CharacterMap.ASCII_LETTERS)
     (let! a := IndexMap.__getitem__ (str "a") in
      let! A := IndexMap.__getitem__ (str "A") in
      let! start := _make_collection (str "a") in
      let! end_ := _make_collection (str "A") in
      ret (a, A, _IncrementableIndexCollection.__gt__ start end_))
  = Ok (PyInt 0, PyInt 26, false)
  /\ on (CharacterMap.member CharacterMap.ASCII_LETTERS)
       (character_range (str "a") (str "A"))
     = Raise InvalidRangeDirection
  /\ on (CharacterMap.member CharacterMap.ASCII_LETTERS)
       (character_range (str "A") (str "a"))
     = Ok {| __class__ := StringRange; _start := str "A"; _end := str "a" |}.
Proof. by vm_compute. Qed.

(** C8: [character_range("0", "19", CharacterMap.ASCII_DIGITS)] yields
    the thirty strings "0" to "9", "00" to "09" and "10" to "19", in this
    order, and its length is 30. *)
Theorem digits_from_0_to_19 :
  on (CharacterMap.member CharacterMap.ASCII_DIGITS)
     (let! r := character_range (str "0") (str "19") in
      let! elements := _Range.__iter__ 30 r in
      let! n := _Range.__len__ r in
      let! length := lift (builtin_len n) in
      ret (elements, length))
  = Ok (Some
          [str "0"; str "1"; str "2"; str "3"; str "4";
           str "5"; str "6"; str "7"; str "8"; str "9";
           str "00"; str "01"; str "02"; str "03"; str "04";
           str "05"; str "06"; str "07"; str "08"; str "09";
           str "10"; str "11"; str "12"; str "13"; str "14";
           str "15"; str "16"; str "17"; str "18"; str "19"],
        30).
Proof. by vm_compute. Qed.

(** C1 on [ASCII_LETTERS], where "a".."z" come before "A".."Z": the
    range from "A" to "a" is accepted, its iterator is exhausted at once
    and yields nothing, and [__len__] returns -25, which [len] rejects. *)
Theorem length_disagrees_with_iteration :
  on (CharacterMap.member CharacterMap.ASCII_LETTERS)
     (let! r := character_range (str "A") (str "a") in
      let! elements := _Range.__iter__ 0 r in
      let! n := _Range.__len__ r in
      ret (elements, n, builtin_len n))
  = Ok (Some [], -25, Raise ValueError).
Proof. by vm_compute. Qed.

End Ranges.

(** ** Length and iteration *)

Section Counting.

Import _IncrementableIndexCollection.

Lemma sum_from l : forall acc, fold_left Z.add l acc = acc + _Range.sum l.
Proof.
  unfold _Range.sum. induction l as [|x l IH]; intros acc; simpl; [lia |].
  rewrite (IH (acc + x)), (IH (0 + x)). lia.
Qed.

Lemma geometric_empty base a b : b <= a -> geometric base a b = 0.
Proof.
  intros Hle. unfold geometric, range. by rewrite seqZ_nil by lia.
Qed.

Lemma geometric_step base a b :
  a < b -> geometric base a b = base ^ a + geometric base (a + 1) b.
Proof.
  intros Hlt. unfold geometric, range. rewrite seqZ_cons by lia.
  rewrite fmap_cons. unfold _Range.sum at 1. simpl. rewrite sum_from.
  replace (Z.succ a) with (a + 1) by lia.
  replace (Z.pred (b - a)) with (b - (a + 1)) by lia. lia.
Qed.

Lemma geometric_nonneg base a b : 0 < base -> 0 <= a -> 0 <= geometric base a b.
Proof.
  intros Hb. remember (Z.to_nat (b - a)) as d eqn:Hd. revert a Hd.
  induction d as [|d IH]; intros a Hd Ha.
  - rewrite geometric_empty by lia. lia.
  - rewrite geometric_step by lia.
    assert (0 <= geometric base (a + 1) b) by (apply IH; lia).
    assert (0 < base ^ a) by (apply Z.pow_pos_nonneg; lia). lia.
Qed.

Lemma eq_longer a b : __len__ a <> __len__ b -> __eq__ a b = false.
Proof.
  intros Hlen. unfold __eq__, _indices, __iter__.
  apply andb_false_iff. right. apply bool_decide_eq_false. intros Heq.
  apply (f_equal length) in Heq. rewrite !length_rev in Heq.
  unfold __len__ in Hlen. lia.
Qed.

Lemma le_iff a b :
  _base a = _base b -> digits_in_range a -> digits_in_range b ->
  (__le__ a b = true
   <-> __len__ a < __len__ b
       \/ (__len__ a = __len__ b /\ __index__ a <= __index__ b)).
Proof.
  intros Hbase Ha Hb. unfold __le__. rewrite orb_true_iff.
  destruct (Z.lt_trichotomy (__len__ a) (__len__ b)) as [Hlt|[Heq|Hgt]].
  - destruct (lt_shorter a b Hlt) as (-> & _). split; auto.
  - assert (length (_inverted_indices a) = length (_inverted_indices b))
      as Hlen by (unfold __len__ in Heq; lia).
    rewrite (lt_same_length a b Hbase Ha Hb Hlen),
      (eq_same_length a b Hbase Ha Hb Hlen). lia.
  - destruct (lt_shorter b a Hgt) as (_ & -> & _).
    rewrite (eq_longer a b) by lia. split; [by intros [?|?] | lia].
Qed.

Lemma index_bound c :
  digits_in_range c -> 0 <= __index__ c < _base c ^ __len__ c.
Proof. rewrite index_little_endian. apply little_endian_bound. Qed.

Lemma gap_positive current end_ :
  _base current = _base end_ -> 0 < _base current ->
  digits_in_range current -> digits_in_range end_ ->
  __le__ current end_ = true -> 1 <= gap current end_.
Proof.
  intros Hbase Hpos Hc He Hle. apply (le_iff _ _ Hbase Hc He) in Hle.
  pose proof (index_bound current Hc) as Bc.
  pose proof (index_bound end_ He) as Be. unfold gap.
  destruct Hle as [Hlt|[Heq Hidx]].
  - rewrite geometric_step by done.
    assert (0 <= geometric (_base current) (__len__ current + 1)
                   (__len__ end_)).
    { apply geometric_nonneg; [done |]. unfold __len__. lia. }
    lia.
  - rewrite geometric_empty by lia. lia.
Qed.

(** One round of the loop of [__iter__]: after [increment] either the
    remaining count is one less, or the end has been passed and the
    element just yielded was the last one. *)
Lemma increment_step current end_ :
  _base current = _base end_ -> 0 < _base current ->
  digits_in_range current -> digits_in_range end_ ->
  __le__ current end_ = true ->
  (__le__ (increment current) end_ = true
   /\ gap (increment current) end_ = gap current end_ - 1)
  \/ (__le__ (increment current) end_ = false /\ gap current end_ = 1).
Proof.
  intros Hbase Hpos Hc He Hle.
  pose proof (digits_in_range_increment current Hpos Hc) as Hc'.
  assert (_base (increment current) = _base end_) as Hbase' by done.
  pose proof (le_iff _ _ Hbase Hc He) as Hiff.
  pose proof (le_iff _ _ Hbase' Hc' He) as Hiff'.
  apply Hiff in Hle. clear Hiff.
  pose proof (index_bound current Hc) as Bc.
  pose proof (index_bound end_ He) as Be.
  pose proof (increment_carry current) as Hinc.
  unfold gap. change (_base (increment current)) with (_base current).
  rewrite <- Hbase in Be.
  destruct (carry_cases _ _ Hc) as [[Hall Hcarry]|(Hlen & _ & Hv)].
  - assert (__len__ (increment current) = __len__ current + 1) as Hlen'.
    { unfold __len__. rewrite Hinc, Hcarry, repeat_length. lia. }
    assert (__index__ (increment current) = 0) as Hidx'.
    { rewrite index_little_endian, Hinc, Hcarry. apply little_endian_zeros. }
    assert (__index__ current = _base current ^ __len__ current - 1) as Hidx.
    { rewrite index_little_endian. by apply little_endian_all_max. }
    rewrite Hlen', Hidx', Hidx in *.
    destruct Hle as [Hlt|[Heq Hle]].
    + left. split; [apply Hiff'; lia |].
      rewrite (geometric_step _ (__len__ current)) by done. lia.
    + right. split.
      * destruct (__le__ (increment current) end_); [|done].
        pose proof (proj1 Hiff' eq_refl). lia.
      * rewrite geometric_empty by lia. rewrite Heq in *. lia.
  - rewrite <- Hinc in Hlen, Hv.
    assert (__len__ (increment current) = __len__ current) as Hlen'.
    { unfold __len__. by rewrite Hlen. }
    assert (__index__ (increment current) = __index__ current + 1) as Hidx'.
    { rewrite !index_little_endian. done. }
    rewrite Hlen', Hidx' in *.
    destruct Hle as [Hlt|[Heq Hle]].
    + left. split; [apply Hiff'; lia | lia].
    + destruct (Z.eq_dec (__index__ current) (__index__ end_)) as [E|E].
      * right. split.
        -- destruct (__le__ (increment current) end_); [|done].
           pose proof (proj1 Hiff' eq_refl). lia.
        -- rewrite geometric_empty by lia. lia.
      * left. split; [apply Hiff'; lia | lia].
Qed.

End Counting.

Section EagerRanges.

Import IndexMap _Range.

Variables (m : IndexMap) (n : Z).
Hypothesis Hinv : invariant m n.
Hypothesis Heager : _maps_populated m = true.

Lemma contains_eager item r m' :
  __contains__ item m = (r, m') -> m' = m.
Proof.
  intros H. destruct (contains_result m n item r m' Hinv H) as (_ & _ & E & _).
  by apply E.
Qed.

Lemma all_contains_eager l r m' :
  all __contains__ l m = (r, m') ->
  m' = m
  /\ (r = Ok true -> Forall (fun c => __contains__ c m = (Ok true, m)) l).
Proof.
  revert r m'. induction l as [|c l IH]; intros r m'; simpl.
  - intros [= <- <-]. split; [done |]. by constructor.
  - unfold mbind. destruct (__contains__ c m) as [rc mc] eqn:Hc.
    pose proof (contains_eager c rc mc Hc) as ->.
    destruct rc as [[|]|e].
    + intros H. destruct (IH r m' H) as [-> Hall]. split; [done |].
      intros Hr. constructor; [done | by apply Hall].
    + by intros [= <- <-].
    + by intros [= <- <-].
Qed.

Lemma is_valid_endpoint_eager cls s r m' :
  _is_valid_endpoint (text cls s) m = (r, m') ->
  m' = m
  /\ (r = Ok true ->
      s <> []
      /\ Forall
           (fun x => exists k, _char_to_index m !! text cls [x] = Some k) s).
Proof.
  unfold _is_valid_endpoint, mbind, lift.
  replace (len (text cls s)) with (Ok (Z.of_nat (length s)) : result Z)
    by by destruct cls.
  destruct (Z.ltb_spec 0 (Z.of_nat (length s))) as [Hlen|Hlen]; simpl;
    [|by intros [= <- <-]].
  intros H. destruct (all_contains_eager _ r m' H) as [-> Hall].
  split; [done |]. intros Hr. split; [by destruct s |].
  specialize (Hall Hr). apply Forall_forall. intros x Hx.
  rewrite Forall_forall in Hall.
  assert (text cls [x] ∈ _split (text cls s)) as Hin.
  { destruct cls; simpl.
    - by apply (list_elem_of_fmap_2 (fun c => PyStr [c]) s x).
    - by apply (list_elem_of_fmap_2 (fun c => PyBytes [c]) s x). }
  destruct (contains_result m n _ _ _ Hinv (Hall _ Hin)) as (_ & _ & _ & Hk).
  destruct (Hk eq_refl) as [(i & Hi & _)|Hk']; [by destruct cls | done].
Qed.

Lemma endpoint_indices cls s :
  Forall (fun x => exists k, _char_to_index m !! text cls [x] = Some k) s ->
  exists ks,
    for_each
      (fun char => let! index := IndexMap.__getitem__ char in as_index index)
      (_split (text cls s)) m = (Ok ks, m)
    /\ length ks = length s
    /\ Forall (fun k => 0 <= k < n) ks.
Proof.
  induction 1 as [|x s [k Hk] _ (ks & Hks & Hlen & Hr)].
  - exists []. by destruct cls.
  - exists (k :: ks). destruct (inv_chars m n Hinv _ _ Hk) as [Hsym Hkr].
    split; [|split; [simpl; lia | by constructor]].
    replace (_split (text cls (x :: s)))
      with (text cls [x] :: _split (text cls s)) by by destruct cls.
    simpl. unfold mbind at 1 2.
    rewrite (getitem_symbol m n _ Hinv Hsym). unfold mbind at 1.
    rewrite (get_index_hit m n _ k Hinv Hk). simpl.
    unfold mbind at 1. by rewrite Hks.
Qed.

Lemma make_collection_eager cls s :
  s <> [] ->
  Forall (fun x => exists k, _char_to_index m !! text cls [x] = Some k) s ->
  exists c,
    _make_collection (text cls s) m = (Ok c, m)
    /\ digits_in_range c
    /\ _IncrementableIndexCollection._base c = n
    /\ _IncrementableIndexCollection.__len__ c = Z.of_nat (length s)
    /\ 0 < n.
Proof.
  intros Hne Hall.
  destruct (endpoint_indices cls s Hall) as (ks & Hks & Hlen & Hr).
  unfold _make_collection, mbind at 1 2, get, lift.
  rewrite (inv_len m n Hinv). unfold mbind at 1. rewrite Hks.
  unfold _IncrementableIndexCollection.__init__. simpl.
  assert (0 < n) as Hn.
  { destruct ks as [|k ks]; [by destruct s |].
    apply Forall_cons in Hr as [? _]. lia. }
  rewrite bool_decide_eq_false_2.
  2:{ intros E. apply (f_equal length) in E. rewrite length_rev, Hlen in E.
      by destruct s. }
  destruct (Z.ltb_spec n 1); [lia |].
  eexists. split; [done |]. unfold digits_in_range,
    _IncrementableIndexCollection.__len__. simpl.
  split; [by apply List.Forall_rev |]. split; [done |].
  split; [by rewrite length_rev, Hlen | done].
Qed.

Lemma digits_to_symbols ds :
  Forall (fun k => 0 <= k < n) ds ->
  exists chars,
    for_each (fun index => IndexMap.__getitem__ (PyInt index)) ds m
    = (Ok chars, m)
    /\ Forall (is_symbol m) chars.
Proof.
  induction 1 as [|k ds Hk _ (chars & Hchars & Hsym)].
  - by exists [].
  - destruct (inv_eager m n Hinv Heager) as (_ & _ & _ & Htotal).
    destruct (Htotal k Hk) as [c Hc].
    destruct (inv_indices m n Hinv k c Hc) as [Hcsym _].
    exists (c :: chars). split; [|by constructor].
    simpl. unfold mbind at 1. unfold IndexMap.__getitem__ at 1, mbind at 1, get.
    rewrite (get_char_hit m n k c Hinv Hc).
    unfold mbind at 1. by rewrite Hchars.
Qed.

Lemma join_symbols cls chars :
  _element_type m = class_type cls -> Forall (is_symbol m) chars ->
  exists joined, join cls chars = Ok joined.
Proof.
  intros Ht. induction 1 as [|c chars Hc _ [joined Hj]]; [by eexists |].
  simpl. rewrite Hj. simpl. unfold is_symbol in Hc. rewrite Ht in Hc.
  destruct cls, c as [l|l| |]; try done; by eexists.
Qed.

Lemma make_element_eager r c :
  _element_type m = class_type (__class__ r) ->
  digits_in_range c -> _IncrementableIndexCollection._base c = n ->
  exists x, _make_element r c m = (Ok x, m).
Proof.
  intros Ht Hc Hb. unfold digits_in_range in Hc. rewrite Hb in Hc.
  destruct (digits_to_symbols (_IncrementableIndexCollection.__iter__ c))
    as (chars & Hchars & Hsym).
  { by apply List.Forall_rev. }
  destruct (join_symbols _ chars Ht Hsym) as [joined Hj].
  unfold _make_element, mbind at 1. rewrite Hchars.
  unfold mbind, lift. rewrite Hj. by eexists.
Qed.

(** The loop of [__iter__] runs for as many rounds as the closed form
    says, and yields one element in each. *)
Lemma iter_loop_count r end_ :
  _element_type m = class_type (__class__ r) ->
  digits_in_range end_ -> _IncrementableIndexCollection._base end_ = n ->
  0 < n ->
  forall g current,
    digits_in_range current ->
    _IncrementableIndexCollection._base current = n ->
    _IncrementableIndexCollection.__le__ current end_ = true ->
    gap current end_ = Z.of_nat g ->
    exists elements,
      __iter___loop g r current end_ m = (Ok (Some elements), m)
      /\ length elements = g.
Proof.
  intros Ht He Hbe Hn.
  induction g as [|g IH]; intros current Hc Hbc Hle Hgap.
  - assert (1 <= gap current end_); [|lia].
    apply gap_positive; try done; congruence.
  - destruct (make_element_eager r current Ht Hc Hbc) as [x Hx].
    simpl. rewrite Hle. unfold mbind at 1. rewrite Hx. unfold mbind at 1.
    destruct (increment_step current end_) as [[Hle' Hgap']|[Hle' Hgap']];
      try done; try congruence.
    + destruct (IH (_IncrementableIndexCollection.increment current))
        as (elements & Hloop & Hlen); try done.
      * apply digits_in_range_increment; [congruence | done].
      * lia.
      * rewrite Hloop. exists (x :: elements). split; [done | simpl; lia].
    + assert (g = 0%nat) as -> by lia. simpl. rewrite Hle'.
      by exists [x].
Qed.

End EagerRanges.

Section LengthAndIteration.

Import IndexMap _Range.

Lemma symbol_type_of_class m n cls x k :
  invariant m n -> _char_to_index m !! text cls [x] = Some k ->
  _element_type m = class_type cls.
Proof.
  intros Hinv Hk. destruct (inv_chars m n Hinv _ _ Hk) as [Hsym _].
  apply is_symbol_isinstance in Hsym.
  by destruct (inv_type m n Hinv) as [E|E]; rewrite E in *; destruct cls.
Qed.

Lemma make_collection_state m n cls s c :
  invariant m n -> _maps_populated m = true ->
  fst (_is_valid_endpoint (text cls s) m) = Ok true ->
  fst (_make_collection (text cls s) m) = Ok c ->
  _make_collection (text cls s) m = (Ok c, m)
  /\ digits_in_range c
  /\ _IncrementableIndexCollection._base c = n
  /\ _IncrementableIndexCollection.__len__ c = Z.of_nat (length s)
  /\ 0 < n
  /\ _element_type m = class_type cls.
Proof.
  intros Hinv Heager Hv Hc.
  destruct (_is_valid_endpoint (text cls s) m) as [rv mv] eqn:Ev.
  simpl in Hv. subst rv.
  destruct (is_valid_endpoint_eager m n Hinv Heager cls s _ _ Ev)
    as [_ Hvalid].
  destruct (Hvalid eq_refl) as [Hne Hall].
  destruct (make_collection_eager m n Hinv cls s Hne Hall)
    as (c' & Hc' & Hr & Hb & Hl & Hn).
  rewrite Hc' in Hc. injection Hc as <-.
  repeat (split; [done |]).
  destruct s as [|x s]; [done |].
  apply Forall_cons in Hall as [[k Hk] _].
  by apply (symbol_type_of_class m n cls x k).
Qed.

(** Where the map has no lookup functions and the collection of [start]
    is not after that of [end] in the order of the collections,
    exhausting the iterator takes as many rounds as [__len__] computes,
    and yields that many elements. *)
Theorem length_agrees_with_iteration_in_index_order cls m s e cs ce :
  reachable m -> _maps_populated m = true ->
  fst (_is_valid_endpoint (text cls s) m) = Ok true ->
  fst (_is_valid_endpoint (text cls e) m) = Ok true ->
  fst (_make_collection (text cls s) m) = Ok cs ->
  fst (_make_collection (text cls e) m) = Ok ce ->
  _IncrementableIndexCollection.__le__ cs ce = true ->
  exists elements,
    fst (_Range.__iter__ (length elements)
           {| __class__ := cls; _start := text cls s; _end := text cls e |} m)
    = Ok (Some elements)
    /\ fst (_Range.__len__
              {| __class__ := cls; _start := text cls s; _end := text cls e |}
              m)
       = Ok (Z.of_nat (length elements)).
Proof.
  intros [n Hinv]%reachable_invariant Heager Hvs Hve Hs He Hle.
  destruct (make_collection_state m n cls s cs Hinv Heager Hvs Hs)
    as (Hcs & Hrs & Hbs & Hls & Hn & Ht).
  destruct (make_collection_state m n cls e ce Hinv Heager Hve He)
    as (Hce & Hre & Hbe & Hle' & _ & _).
  assert (1 <= gap cs ce) as Hgap.
  { apply gap_positive; try done; congruence. }
  destruct (iter_loop_count m n Hinv Heager
              {| __class__ := cls; _start := text cls s; _end := text cls e |}
              ce Ht Hre Hbe Hn (Z.to_nat (gap cs ce)) cs Hrs Hbs Hle)
    as (elements & Hloop & Hlen); [lia |].
  exists elements. rewrite Hlen. split.
  - unfold _Range.__iter__, mbind. cbn [_start _end].
    by rewrite Hcs, Hce, Hloop.
  - unfold _Range.__len__, mbind, get, lift, ret. cbn [_start _end].
    rewrite (inv_len m n Hinv), Hcs, Hce, !len_text. cbn [fst].
    f_equal. rewrite Z2Nat.id by lia. unfold gap, geometric.
    by rewrite Hbs, Hls, Hle'.
Qed.

Lemma built_property {A} r m (f : IndexMap -> A) v :
  r = Ok m -> (let? m' := r in Ok (f m')) = Ok v -> f m = v.
Proof. by intros -> [= ->]. Qed.

(** From "8" to "05" over [ASCII_DIGITS]: 2 + 6 elements. *)
Lemma length_agrees_with_iteration_in_index_order_example :
  match CharacterMap.member CharacterMap.ASCII_DIGITS with
  | Ok m =>
      exists elements,
        fst (_Range.__iter__ (length elements)
               {| __class__ := StringRange;
                  _start := str "8"; _end := str "05" |} m)
        = Ok (Some elements)
        /\ fst (_Range.__len__
                  {| __class__ := StringRange;
                     _start := str "8"; _end := str "05" |} m)
           = Ok (Z.of_nat (length elements))
  | Raise _ => False
  end.
Proof.
  assert (match CharacterMap.member CharacterMap.ASCII_DIGITS with
          | Ok _ => true
          | Raise _ => false
          end = true) as Hbuilt by by vm_compute.
  destruct (CharacterMap.member CharacterMap.ASCII_DIGITS) as [m|] eqn:E;
    [clear Hbuilt | done].
  apply (length_agrees_with_iteration_in_index_order
           StringRange m (code_points "8") (code_points "05")
           {| _IncrementableIndexCollection._inverted_indices := [8];
              _IncrementableIndexCollection._base := 10 |}
           {| _IncrementableIndexCollection._inverted_indices := [5; 0];
              _IncrementableIndexCollection._base := 10 |}).
  - apply (reachable_init
             [{| Interval.__class__ := Interval.CharacterInterval;
                 Interval.start := str "0"; Interval.end_ := str "9" |}]
             None None m); [repeat constructor | exact E].
  - by apply (built_property _ m _maps_populated true E).
  - by apply (built_property _ m
                (fun m => fst (_is_valid_endpoint (str "8") m)) _ E).
  - by apply (built_property _ m
                (fun m => fst (_is_valid_endpoint (str "05") m)) _ E).
  - by apply (built_property _ m
                (fun m => fst (_make_collection (str "8") m)) _ E).
  - by apply (built_property _ m
                (fun m => fst (_make_collection (str "05") m)) _ E).
  - reflexivity.
Qed.

End LengthAndIteration.

(** ** Intervals: construction, iteration, indexing, comparison *)

Section IntervalOperations.

Import Interval.

Lemma validate_symbols cls lo hi :
  _validate
    {| __class__ := cls; start := symbol cls lo; end_ := symbol cls hi |}
    (exception_type cls)
  = if lo <=? hi then Ok () else Raise InvalidIntervalDirection.
Proof.
  unfold _validate. cbn [start end_ element_type __class__].
  rewrite !(is_char_symbol cls _ _ eq_refl). cbn [bind negb].
  unfold gt. rewrite lt_symbol. cbn [bind].
  destruct (Z.leb_spec lo hi), (Z.ltb_spec hi lo); try lia; done.
Qed.

Lemma not_symbol_not_char cls o :
  (forall c, o <> symbol cls c) ->
  _is_char_of_type o
    (match cls with
     | CharacterInterval => type_str
     | ByteInterval => type_bytes
     end) = Ok false.
Proof.
  intros H.
  destruct (is_char_of_type_cases cls o) as [(c & -> & _)|[_ E]].
  - by destruct (H c).
  - exact E.
Qed.

(** X1: the constructor of an interval accepts two one-symbol objects of
    its own kind whose first code point is not above the second, and
    nothing else: an endpoint that is not such a symbol raises
    [NotACharacter] or [NotAByte], two symbols in the wrong order raise
    [InvalidIntervalDirection]. *)
Theorem interval_constructor_outcome cls s e :
  (forall lo hi, s = symbol cls lo -> e = symbol cls hi ->
     new cls s e
     = if lo <=? hi
       then Ok {| __class__ := cls; start := s; end_ := e |}
       else Raise InvalidIntervalDirection)
  /\ ((forall c, s <> symbol cls c) ->
      new cls s e = Raise (exception_type cls))
  /\ ((forall c, e <> symbol cls c) ->
      new cls s e = Raise (exception_type cls)).
Proof.
  split; [|split].
  - intros lo hi -> ->. unfold new. rewrite validate_symbols.
    by destruct (lo <=? hi).
  - intros Hs. unfold new, _validate, element_type. cbn [start end_ __class__].
    rewrite (not_symbol_not_char cls s Hs). done.
  - intros He. unfold new, _validate, element_type. cbn [start end_ __class__].
    rewrite (not_symbol_not_char cls e He).
    destruct (is_char_of_type_cases cls s) as [(c & -> & E)|[_ E]];
      unfold element_type in E; cbn [__class__] in E; rewrite E; done.
Qed.

Lemma interval_constructor_outcome_witness :
  new CharacterInterval (PyStr [97]) (PyStr [122])
  = Ok {| __class__ := CharacterInterval;
          start := PyStr [97]; end_ := PyStr [122] |}
  /\ new CharacterInterval (PyStr [122]) (PyStr [97])
     = Raise InvalidIntervalDirection
  /\ new ByteInterval (PyStr [97]) (PyBytes [98]) = Raise NotAByte.
Proof.
  split; [|split].
  - exact (proj1 (interval_constructor_outcome CharacterInterval
                    (PyStr [97]) (PyStr [122])) 97 122 eq_refl eq_refl).
  - exact (proj1 (interval_constructor_outcome CharacterInterval
                    (PyStr [122]) (PyStr [97])) 122 97 eq_refl eq_refl).
  - refine (proj1 (proj2 (interval_constructor_outcome ByteInterval
                    (PyStr [97]) (PyBytes [98]))) _).
    intros c. done.
Defined.

Lemma seqZ_head lo n : 0 < n -> head (seqZ lo n) = Some lo.
Proof.
  intros H. rewrite head_lookup. rewrite lookup_seqZ. split; [lia|lia].
Qed.

Lemma seqZ_last lo n : 0 < n -> last (seqZ lo n) = Some (lo + n - 1).
Proof.
  intros H. rewrite last_lookup. rewrite lookup_seqZ.
  rewrite length_seqZ. split; lia.
Qed.

Lemma symbol_inj cls : Inj (=) (=) (symbol cls).
Proof. intros x y H. destruct cls; by injection H. Qed.

Lemma len_valid i lo hi :
  i = {| __class__ := __class__ i;
         start := symbol (__class__ i) lo; end_ := symbol (__class__ i) hi |} ->
  lo <= hi -> Interval.__len__ i = Ok (hi - lo + 1).
Proof. intros -> H. cbn [__class__]. by apply len_symbols. Qed.

Lemma elem_of_symbols_iff i x :
  valid i -> (x ∈ symbols i <-> Interval.__contains__ i x = Ok true).
Proof.
  intros Hv. split; [|by apply elem_of_symbols].
  destruct (symbols_valid i Hv) as (lo & hi & Hle & Ei & Es).
  rewrite Es. intros (c & -> & Hc)%list_elem_of_fmap.
  apply elem_of_seqZ in Hc. rewrite Ei, contains_symbol.
  f_equal. apply andb_true_iff. lia.
Qed.

(** X2: iterating an interval yields, without repetition and in
    ascending order, exactly the objects that [in] accepts; the first is
    [start], the last is [end], and there are [len] of them, at least
    one. *)
Theorem interval_iterates_its_members i :
  valid i ->
  exists l,
    Interval.__iter__ i = Ok l
    /\ Interval.__len__ i = Ok (Z.of_nat (length l))
    /\ (1 <= length l)%nat
    /\ head l = Some (start i) /\ last l = Some (end_ i)
    /\ NoDup l
    /\ (forall x, x ∈ l <-> Interval.__contains__ i x = Ok true)
    /\ (forall (a b : nat) x y,
          l !! a = Some x -> l !! b = Some y ->
          ((a < b)%nat <-> lt x y = Ok true)).
Proof.
  intros Hv. destruct (symbols_valid i Hv) as (lo & hi & Hle & Ei & Es).
  exists (symbols i). rewrite (iter_valid i Hv).
  split; [done|].
  rewrite (len_valid i lo hi Ei Hle).
  rewrite Es. rewrite length_fmap, length_seqZ.
  split; [f_equal; lia|]. split; [lia|].
  pose proof (f_equal start Ei) as Hs. pose proof (f_equal end_ Ei) as He.
  cbn [start end_] in Hs. cbn [start end_] in He. rewrite Hs, He.
  split; [|split; [|split; [|split]]].
  - rewrite head_lookup, list_lookup_fmap, <- head_lookup, seqZ_head by lia.
    done.
  - rewrite fmap_last, seqZ_last by lia. cbn. do 2 f_equal. lia.
  - apply NoDup_fmap_2; [apply symbol_inj|apply NoDup_seqZ].
  - intros x. rewrite <- Es. by apply elem_of_symbols_iff.
  - intros a b x y Ha Hb.
    rewrite list_lookup_fmap in Ha, Hb.
    destruct (seqZ lo (hi + 1 - lo) !! a) as [ca|] eqn:Ea; [|done].
    destruct (seqZ lo (hi + 1 - lo) !! b) as [cb|] eqn:Eb; [|done].
    injection Ha as <-. injection Hb as <-.
    apply lookup_seqZ in Ea, Eb. rewrite lt_symbol.
    destruct (Z.ltb_spec ca cb); split; try done; try lia.
Qed.

Lemma interval_iterates_its_members_witness :
  exists l,
    Interval.__iter__
      {| __class__ := CharacterInterval; start := PyStr [97]; end_ := PyStr [99] |}
    = Ok l
    /\ Interval.__len__
         {| __class__ := CharacterInterval;
            start := PyStr [97]; end_ := PyStr [99] |}
       = Ok (Z.of_nat (length l))
    /\ (1 <= length l)%nat
    /\ head l = Some (PyStr [97]) /\ last l = Some (PyStr [99])
    /\ NoDup l
    /\ (forall x, x ∈ l
          <-> Interval.__contains__
                {| __class__ := CharacterInterval;
                   start := PyStr [97]; end_ := PyStr [99] |} x = Ok true)
    /\ (forall (a b : nat) x y,
          l !! a = Some x -> l !! b = Some y ->
          ((a < b)%nat <-> lt x y = Ok true)).
Proof.
  apply (interval_iterates_its_members
           {| __class__ := CharacterInterval;
              start := PyStr [97]; end_ := PyStr [99] |}).
  reflexivity.
Defined.

End IntervalOperations.

Section IntervalComparison.

Import Interval.

Lemma getitem_symbols cls lo hi k :
  lo <= hi ->
  Interval.__getitem__
    {| __class__ := cls; start := symbol cls lo; end_ := symbol cls hi |}
    (PyInt k)
  = if (0 <=? k) && (k <? hi - lo + 1) then Ok (symbol cls (lo + k))
    else Raise IndexError.
Proof.
  intros Hle. unfold Interval.__getitem__.
  rewrite len_symbols by done. cbn [start __class__].
  rewrite ord_symbol.
  destruct (Z.leb_spec 0 k); cbn [negb bind andb]; [|done].
  destruct (Z.ltb_spec k (hi - lo + 1)); cbn [negb bind]; [|done].
  by destruct cls.
Qed.

Lemma interval_getitem_lookup i k :
  valid i ->
  Interval.__getitem__ i (PyInt k)
  = match (if 0 <=? k then symbols i !! Z.to_nat k else None) with
    | Some x => Ok x
    | None => Raise IndexError
    end.
Proof.
  intros Hv. destruct (symbols_valid i Hv) as (lo & hi & Hle & Ei & Es).
  rewrite Es. rewrite Ei, getitem_symbols by done.
  destruct (Z.leb_spec 0 k); cbn [andb]; [|done].
  rewrite list_lookup_fmap.
  destruct (Z.ltb_spec k (hi - lo + 1)).
  - rewrite (proj2 (lookup_seqZ lo (hi + 1 - lo) (Z.to_nat k) (lo + k)));
      [done | lia].
  - rewrite lookup_seqZ_ge by lia. done.
Qed.



Lemma share_symbol_symbols cls lo1 hi1 lo2 hi2 :
  share_symbol
    {| __class__ := cls; start := symbol cls lo1; end_ := symbol cls hi1 |}
    {| __class__ := cls; start := symbol cls lo2; end_ := symbol cls hi2 |}
  <-> Z.max lo1 lo2 <= Z.min hi1 hi2.
Proof.
  split.
  - intros (x & H1 & H2).
    destruct (is_char_of_type_cases cls x) as [(c & -> & _)|[Hn _]].
    + rewrite contains_symbol in H1, H2.
      injection H1 as H1. injection H2 as H2.
      apply andb_true_iff in H1, H2. lia.
    + rewrite contains_not_symbol in H1 by done. done.
  - intros H. exists (symbol cls (Z.max lo1 lo2)).
    rewrite !contains_symbol. split; f_equal; apply andb_true_iff; lia.
Qed.

(** X4: for two intervals of one class [intersects] is symmetric and
    true exactly when some symbol lies in both; for intervals of
    different classes it raises [TypeError]. *)
Theorem intersects_iff_share_symbol i j :
  valid i -> valid j ->
  (__class__ i = __class__ j ->
   exists b,
     intersects i j = Ok b /\ intersects j i = Ok b
     /\ (b = true <-> share_symbol i j))
  /\ (__class__ i <> __class__ j ->
      intersects i j = Raise TypeError /\ intersects j i = Raise TypeError).
Proof.
  intros Hi Hj. split.
  - intros Hc.
    destruct (symbols_valid i Hi) as (lo1 & hi1 & _ & Ei & _).
    destruct (symbols_valid j Hj) as (lo2 & hi2 & _ & Ej & _).
    rewrite <- Hc in Ej. rewrite Ei, Ej.
    exists (Z.max lo1 lo2 <=? Z.min hi1 hi2).
    rewrite !intersects_symbols, share_symbol_symbols.
    split; [done|]. split.
    + by rewrite (Z.max_comm lo2), (Z.min_comm hi2).
    + apply Z.leb_le.
  - intros Hc. unfold intersects, __and__.
    rewrite !bool_decide_eq_false_2; [done|congruence|congruence].
Qed.

Lemma intersects_iff_share_symbol_witness :
  exists b,
    intersects
      {| __class__ := CharacterInterval;
         start := PyStr [97]; end_ := PyStr [102] |}
      {| __class__ := CharacterInterval;
         start := PyStr [102]; end_ := PyStr [122] |} = Ok b
    /\ intersects
         {| __class__ := CharacterInterval;
            start := PyStr [102]; end_ := PyStr [122] |}
         {| __class__ := CharacterInterval;
            start := PyStr [97]; end_ := PyStr [102] |} = Ok b
    /\ (b = true
        <-> share_symbol
              {| __class__ := CharacterInterval;
                 start := PyStr [97]; end_ := PyStr [102] |}
              {| __class__ := CharacterInterval;
                 start := PyStr [102]; end_ := PyStr [122] |}).
Proof.
  exact (proj1 (intersects_iff_share_symbol
                  {| __class__ := CharacterInterval;
                     start := PyStr [97]; end_ := PyStr [102] |}
                  {| __class__ := CharacterInterval;
                     start := PyStr [102]; end_ := PyStr [122] |}
                  eq_refl eq_refl) eq_refl).
Defined.

Lemma seqZ_inj lo1 n1 lo2 n2 :
  0 < n1 -> seqZ lo1 n1 = seqZ lo2 n2 -> lo1 = lo2 /\ n1 = n2.
Proof.
  intros H E.
  assert (Hl : length (seqZ lo1 n1) = length (seqZ lo2 n2)) by by rewrite E.
  rewrite !length_seqZ in Hl.
  assert (Hh : head (seqZ lo1 n1) = head (seqZ lo2 n2)) by by rewrite E.
  rewrite !seqZ_head in Hh by lia. injection Hh as ->. lia.
Qed.

(** X5: two intervals of one class are equal under [__eq__] exactly
    when they have the same endpoints; for an interval of the other
    class [__eq__] answers [NotImplemented]. *)
Theorem interval_eq_iff_same_endpoints i j :
  valid i -> valid j ->
  (__class__ i = __class__ j ->
   exists b, Interval.__eq__ i j = Ok (Some b) /\ (b = true <-> i = j))
  /\ (__class__ i <> __class__ j -> Interval.__eq__ i j = Ok None).
Proof.
  intros Hi Hj. split.
  - intros Hc.
    destruct (symbols_valid i Hi) as (lo1 & hi1 & H1 & Ei & _).
    destruct (symbols_valid j Hj) as (lo2 & hi2 & H2 & Ej & _).
    rewrite <- Hc in Ej. rewrite Ei, Ej. unfold Interval.__eq__.
    cbn [__class__]. rewrite bool_decide_eq_true_2 by done.
    unfold to_codepoint_range. cbn [start end_ negb].
    rewrite !ord_symbol. cbn [bind]. eexists. split; [done|].
    rewrite bool_decide_eq_true. unfold range. split.
    + intros [-> E]%seqZ_inj; [|lia]. do 2 f_equal. lia.
    + intros [= E1%symbol_inj E2%symbol_inj]. by subst.
  - intros Hc. unfold Interval.__eq__.
    rewrite bool_decide_eq_false_2; [done|congruence].
Qed.

Lemma interval_eq_iff_same_endpoints_witness :
  (exists b,
     Interval.__eq__
       {| __class__ := CharacterInterval;
          start := PyStr [97]; end_ := PyStr [98] |}
       {| __class__ := CharacterInterval;
          start := PyStr [97]; end_ := PyStr [99] |} = Ok (Some b)
     /\ (b = true
         <-> {| __class__ := CharacterInterval;
                start := PyStr [97]; end_ := PyStr [98] |}
             = {| __class__ := CharacterInterval;
                  start := PyStr [97]; end_ := PyStr [99] |}))
  /\ Interval.__eq__
       {| __class__ := CharacterInterval;
          start := PyStr [97]; end_ := PyStr [98] |}
       {| __class__ := ByteInterval;
          start := PyBytes [97]; end_ := PyBytes [98] |}
     = Ok None.
Proof.
  split.
  - exact (proj1 (interval_eq_iff_same_endpoints
                    {| __class__ := CharacterInterval;
                       start := PyStr [97]; end_ := PyStr [98] |}
                    {| __class__ := CharacterInterval;
                       start := PyStr [97]; end_ := PyStr [99] |}
                    eq_refl eq_refl) eq_refl).
  - refine (proj2 (interval_eq_iff_same_endpoints
                     {| __class__ := CharacterInterval;
                        start := PyStr [97]; end_ := PyStr [98] |}
                     {| __class__ := ByteInterval;
                        start := PyBytes [97]; end_ := PyBytes [98] |}
                     eq_refl eq_refl) _).
    done.
Defined.

End IntervalComparison.

(** ** The index collection: construction, order, successor *)

Section CounterOrder.

Import _IncrementableIndexCollection.

Lemma big_endian_from base l : forall acc,
  fold_left (fun total d => total * base + d) l acc
  = acc * base ^ Z.of_nat (length l) + little_endian base (rev l).
Proof.
  induction l as [|d l IH]; intros acc.
  - cbn. lia.
  - cbn [fold_left rev length]. rewrite IH, little_endian_app.
    rewrite length_rev. cbn [little_endian].
    rewrite Nat2Z.inj_succ, Z.pow_succ_r by lia. lia.
Qed.

Lemma little_endian_rev base l :
  little_endian base (rev l) = big_endian base l.
Proof. unfold big_endian. rewrite big_endian_from. lia. Qed.

(** X6: the collection is built from a non-empty list of indices and a
    base of at least 1; it then holds these indices in their order and
    its integer value is the number they spell in that base, most
    significant first.  An empty list raises [_EmptyListOfIndices],
    whatever the base; otherwise a base below 1 raises [_InvalidBase]. *)
Theorem counter_constructor_and_value indices base :
  (forall c,
     __init__ indices base = Ok c ->
     indices <> [] /\ 1 <= base
     /\ _indices c = indices /\ _base c = base
     /\ __len__ c = Z.of_nat (length indices)
     /\ __index__ c = big_endian base indices)
  /\ (indices <> [] -> 1 <= base -> exists c, __init__ indices base = Ok c)
  /\ (indices = [] -> __init__ indices base = Raise _EmptyListOfIndices)
  /\ (indices <> [] -> base < 1 -> __init__ indices base = Raise _InvalidBase).
Proof.
  assert (Hrev : rev indices = [] <-> indices = []).
  { split; [|by intros ->].
    intros H. apply (f_equal (@rev Z)) in H. by rewrite rev_involutive in H. }
  unfold __init__. cbn [_inverted_indices].
  split; [|split; [|split]].
  - intros c. case_bool_decide as Hnil; [done|].
    destruct (Z.ltb_spec base 1); [done|]. intros [= <-].
    split; [tauto|]. split; [lia|].
    unfold _indices, __iter__, __len__. cbn [_inverted_indices _base].
    rewrite rev_involutive, length_rev. split; [done|]. split; [done|].
    split; [done|].
    rewrite index_little_endian. cbn [_inverted_indices _base].
    apply little_endian_rev.
  - intros Hn Hb. rewrite bool_decide_eq_false_2 by tauto.
    destruct (Z.ltb_spec base 1); [lia|]. by eexists.
  - intros ->. done.
  - intros Hn Hb. rewrite bool_decide_eq_false_2 by tauto.
    destruct (Z.ltb_spec base 1); [done|lia].
Qed.

Lemma counter_constructor_and_value_witness :
  (exists c, __init__ [1; 2; 3] 10 = Ok c)
  /\ __init__ [] 0 = Raise _EmptyListOfIndices
  /\ __init__ [0] 0 = Raise _InvalidBase.
Proof.
  split; [|split].
  - refine (proj1 (proj2 (counter_constructor_and_value [1; 2; 3] 10)) _ _).
    + done.
    + lia.
  - exact (proj1 (proj2 (proj2 (counter_constructor_and_value [] 0))) eq_refl).
  - refine (proj2 (proj2 (proj2 (counter_constructor_and_value [0] 0))) _ _).
    + done.
    + lia.
Defined.

Lemma seq_lt_irrefl a : seq_lt a a = false.
Proof.
  induction a as [|x a IH]; [done|]. cbn. by rewrite Z.eqb_refl.
Qed.

Lemma seq_lt_trichotomy : forall a b,
  length a = length b ->
  (seq_lt a b = true /\ a <> b /\ seq_lt b a = false)
  \/ (seq_lt a b = false /\ a = b /\ seq_lt b a = false)
  \/ (seq_lt a b = false /\ a <> b /\ seq_lt b a = true).
Proof.
  induction a as [|x a IH]; intros [|y b] Hl; try done.
  - right. left. done.
  - injection Hl as Hl. cbn [seq_lt].
    destruct (Z.eqb_spec x y) as [->|Hne].
    + rewrite Z.eqb_refl.
      destruct (IH b Hl) as [(?&?&?)|[(?&?&?)|(?&?&?)]].
      * left. split; [done|]. split; [congruence|done].
      * right. left. split; [done|]. split; [congruence|done].
      * right. right. split; [done|]. split; [congruence|done].
    + destruct (Z.eqb_spec y x) as [->|_]; [done|].
      destruct (Z.ltb_spec x y), (Z.ltb_spec y x); try lia.
      * left. split; [done|]. split; [congruence|done].
      * right. right. split; [done|]. split; [congruence|done].
Qed.

Lemma seq_lt_trans : forall a b c,
  seq_lt a b = true -> seq_lt b c = true -> seq_lt a c = true.
Proof.
  induction a as [|x a IH]; intros [|y b] [|z c]; cbn [seq_lt]; try done.
  destruct (Z.eqb_spec x y) as [->|Hxy].
  - destruct (Z.eqb_spec y z) as [->|Hyz]; [apply IH|done].
  - intros Hxy'%Z.ltb_lt.
    destruct (Z.eqb_spec y z) as [->|Hyz].
    + intros _. destruct (Z.eqb_spec x z); [lia|]. by apply Z.ltb_lt.
    + intros Hyz'%Z.ltb_lt. destruct (Z.eqb_spec x z); [lia|].
      apply Z.ltb_lt. lia.
Qed.

Lemma indices_inj a b :
  _base a = _base b -> _indices a = _indices b -> a = b.
Proof.
  destruct a as [ia ba], b as [ib bb]. unfold _indices, __iter__. cbn.
  intros -> H. apply (f_equal (@rev Z)) in H. rewrite !rev_involutive in H.
  by subst.
Qed.

Lemma eq_iff a b : __eq__ a b = true <-> a = b.
Proof.
  unfold __eq__. rewrite andb_true_iff, Z.eqb_eq, bool_decide_eq_true.
  split.
  - intros [? ?]. by apply indices_inj.
  - by intros ->.
Qed.

Lemma lt_cases a b :
  __lt__ a b = true
  <-> __len__ a < __len__ b
      \/ (__len__ a = __len__ b /\ seq_lt (_indices a) (_indices b) = true).
Proof.
  unfold __lt__.
  destruct (Z.ltb_spec (__len__ a) (__len__ b)).
  - split; [by left|done].
  - rewrite andb_true_iff, Z.eqb_eq. split; [by right|]. intros [?|?]; [lia|done].
Qed.

Lemma len_indices a : __len__ a = Z.of_nat (length (_indices a)).
Proof. unfold __len__, _indices, __iter__. by rewrite length_rev. Qed.

(** X7: on collections of one base, [<] is irreflexive and transitive,
    exactly one of [a < b], [a == b], [b < a] holds, the derived [>] and
    [>=] are [<] and [<=] with the operands swapped, and [==] holds only
    of two collections with the same indices. *)
Theorem counter_order_is_strict_and_total a b c :
  _base a = _base b ->
  __lt__ a a = false
  /\ (__lt__ a b = true -> __lt__ b c = true -> __lt__ a c = true)
  /\ ((__lt__ a b = true /\ __eq__ a b = false /\ __lt__ b a = false)
      \/ (__lt__ a b = false /\ __eq__ a b = true /\ __lt__ b a = false)
      \/ (__lt__ a b = false /\ __eq__ a b = false /\ __lt__ b a = true))
  /\ __gt__ a b = __lt__ b a
  /\ __ge__ a b = __le__ b a
  /\ (__eq__ a b = true <-> a = b).
Proof.
  intros Hb.
  assert (Htri :
    (__lt__ a b = true /\ __eq__ a b = false /\ __lt__ b a = false)
    \/ (__lt__ a b = false /\ __eq__ a b = true /\ __lt__ b a = false)
    \/ (__lt__ a b = false /\ __eq__ a b = false /\ __lt__ b a = true)).
  { destruct (Z.lt_trichotomy (__len__ a) (__len__ b)) as [H|[H|H]].
    - left. destruct (lt_shorter a b H) as (H1 & H2 & H3). done.
    - assert (Hl : length (_indices a) = length (_indices b)).
      { rewrite !len_indices in H. lia. }
      destruct (seq_lt_trichotomy _ _ Hl) as [(H1&H2&H3)|[(H1&H2&H3)|(H1&H2&H3)]].
      + left. split; [apply lt_cases; by right|]. split.
        * apply not_true_is_false. intros ->%eq_iff. done.
        * apply not_true_is_false. intros [?|[_ ?]]%lt_cases; [lia|congruence].
      + right. left. split.
        * apply not_true_is_false. intros [?|[_ ?]]%lt_cases; [lia|congruence].
        * split; [apply eq_iff; by apply indices_inj|].
          apply not_true_is_false. intros [?|[_ ?]]%lt_cases; [lia|congruence].
      + right. right. split.
        * apply not_true_is_false. intros [?|[_ ?]]%lt_cases; [lia|congruence].
        * split; [|apply lt_cases; by right].
          apply not_true_is_false. intros ->%eq_iff. done.
    - right. right.
      destruct (lt_shorter b a) as (H1 & H2 & H3); [lia|].
      split; [done|]. split; [|done].
      apply not_true_is_false. intros E%eq_iff. subst b. lia. }
  split; [|split; [|split; [|split; [|split]]]].
  - apply not_true_is_false. intros [?|[_ H]]%lt_cases; [lia|].
    by rewrite seq_lt_irrefl in H.
  - intros [H1|[H1 H1']]%lt_cases [H2|[H2 H2']]%lt_cases; apply lt_cases.
    + left. lia.
    + left. lia.
    + left. lia.
    + right. split; [lia|]. by apply (seq_lt_trans _ (_indices b)).
  - exact Htri.
  - unfold __gt__.
    destruct Htri as [(->&->&->)|[(->&->&->)|(->&->&->)]]; done.
  - unfold __ge__, __le__.
    destruct Htri as [(H1&H2&H3)|[(H1&H2&H3)|(H1&H2&H3)]]; rewrite H1, H3.
    + assert (__eq__ b a = false) as ->; [|done].
      apply not_true_is_false. intros E%eq_iff. subst b.
      by rewrite (proj2 (eq_iff a a) eq_refl) in H2.
    + cbn. symmetry. apply eq_iff. apply eq_iff in H2. done.
    + done.
  - apply eq_iff.
Qed.

End CounterOrder.

Section CounterSuccessor.

Import _IncrementableIndexCollection.

Lemma counter_order_is_strict_and_total_witness :
  __lt__ {| _inverted_indices := [5]; _base := 10 |}
         {| _inverted_indices := [5]; _base := 10 |} = false
  /\ __gt__ {| _inverted_indices := [0; 1]; _base := 10 |}
            {| _inverted_indices := [9]; _base := 10 |}
     = __lt__ {| _inverted_indices := [9]; _base := 10 |}
              {| _inverted_indices := [0; 1]; _base := 10 |}.
Proof.
  split.
  - exact (proj1 (counter_order_is_strict_and_total
                    {| _inverted_indices := [5]; _base := 10 |}
                    {| _inverted_indices := [5]; _base := 10 |}
                    {| _inverted_indices := [5]; _base := 10 |} eq_refl)).
  - exact (proj1 (proj2 (proj2 (proj2 (counter_order_is_strict_and_total
                    {| _inverted_indices := [0; 1]; _base := 10 |}
                    {| _inverted_indices := [9]; _base := 10 |}
                    {| _inverted_indices := [9]; _base := 10 |} eq_refl))))).
Defined.

Lemma lt_iff a b :
  _base a = _base b -> digits_in_range a -> digits_in_range b ->
  (__lt__ a b = true
   <-> __len__ a < __len__ b
       \/ (__len__ a = __len__ b /\ __index__ a < __index__ b)).
Proof.
  intros Hb Ha Hc.
  destruct (Z.lt_trichotomy (__len__ a) (__len__ b)) as [H|[H|H]].
  - destruct (lt_shorter a b H) as (-> & _). split; [by left|done].
  - assert (Hl : length (_inverted_indices a) = length (_inverted_indices b)).
    { unfold __len__ in H. lia. }
    rewrite (lt_same_length a b Hb Ha Hc Hl). split; [by right|].
    intros [?|[_ ?]]; [lia|done].
  - destruct (lt_shorter b a H) as (_ & -> & _). split; [done|].
    intros [?|[? _]]; lia.
Qed.

Lemma len_increment_cases k :
  digits_in_range k ->
  (Forall (fun d => d = _base k - 1) (_inverted_indices k)
   /\ __len__ (increment k) = __len__ k + 1
   /\ __index__ (increment k) = 0
   /\ __index__ k = _base k ^ __len__ k - 1)
  \/ (__len__ (increment k) = __len__ k
      /\ __index__ (increment k) = __index__ k + 1).
Proof.
  intros Hk. rewrite !index_little_endian. unfold __len__.
  rewrite increment_carry. cbn [increment _base].
  destruct (carry_cases _ _ Hk) as [[Hmax E]|(Hl & Hr & Hv)].
  - left. split; [done|]. rewrite E, little_endian_zeros.
    rewrite repeat_length. split; [lia|]. split; [done|].
    by apply little_endian_all_max.
  - right. rewrite Hl. done.
Qed.

(** X8: [increment] gives the next collection: the base is kept, the
    indices stay in range, the integer value grows by one where the
    length is kept, and no collection of that base lies strictly between
    a collection and its increment. *)
Theorem increment_is_successor k c :
  0 < _base k -> digits_in_range k ->
  _base c = _base k -> digits_in_range c ->
  _base (increment k) = _base k
  /\ digits_in_range (increment k)
  /\ (__len__ (increment k) = __len__ k ->
      __index__ (increment k) = __index__ k + 1)
  /\ (__lt__ k c = true -> __le__ (increment k) c = true)
  /\ (__lt__ c (increment k) = true -> __le__ c k = true).
Proof.
  intros Hpos Hk Hb Hc.
  pose proof (digits_in_range_increment k Hpos Hk) as Hi.
  assert (Hbi : _base (increment k) = _base c) by by rewrite Hb.
  pose proof (index_bound c Hc) as Bc. pose proof (index_bound k Hk) as Bk.
  rewrite Hb in Bc.
  split; [done|]. split; [done|].
  rewrite (lt_iff k c (eq_sym Hb) Hk Hc).
  rewrite (lt_iff c (increment k) (eq_sym Hbi) Hc Hi).
  rewrite (le_iff (increment k) c Hbi Hi Hc).
  rewrite (le_iff c k Hb Hc Hk).
  destruct (len_increment_cases k Hk) as [(_ & Hl & Hv & Hv')|[Hl Hv]].
  - split; [lia|]. split.
    + intros [H|[H1 H2]]; [|rewrite H1 in Hv'; lia].
      destruct (Z.eq_dec (__len__ k + 1) (__len__ c)); [right; lia|left; lia].
    + intros [H|[H1 H2]]; [|lia].
      destruct (Z.eq_dec (__len__ c) (__len__ k)) as [E|]; [right|left; lia].
      split; [done|]. rewrite E in Bc. lia.
  - split; [done|]. split.
    + intros [H|[H1 H2]]; [left; lia|right; lia].
    + intros [H|[H1 H2]]; [left; lia|right; lia].
Qed.

Lemma increment_is_successor_witness :
  __lt__ {| _inverted_indices := [9; 9]; _base := 10 |}
         {| _inverted_indices := [3; 0; 0]; _base := 10 |} = true
  /\ __le__ (increment {| _inverted_indices := [9; 9]; _base := 10 |})
            {| _inverted_indices := [3; 0; 0]; _base := 10 |} = true.
Proof.
  assert (H : forall l, Forall (fun d => 0 <= d < 10) l
                        -> digits_in_range {| _inverted_indices := l;
                                              _base := 10 |}) by done.
  split; [reflexivity|].
  refine (proj1 (proj2 (proj2 (proj2 (increment_is_successor
            {| _inverted_indices := [9; 9]; _base := 10 |}
            {| _inverted_indices := [3; 0; 0]; _base := 10 |} _ _ _ _)))) _).
  - cbn. lia.
  - apply H. repeat constructor; lia.
  - reflexivity.
  - apply H. repeat constructor; lia.
  - reflexivity.
Defined.

End CounterSuccessor.

(** ** Maps: what the constructor accepts *)

Section MapConstruction.

Import Interval IndexMap.

Lemma NoDup_symbols i : valid i -> NoDup (symbols i).
Proof.
  intros Hv. destruct (symbols_valid i Hv) as (lo & hi & Hle & Ei & ->).
  apply NoDup_fmap_2; [apply symbol_inj|apply NoDup_seqZ].
Qed.

Lemma elem_of_all_symbols intervals x :
  x ∈ all_symbols intervals
  <-> exists (b : nat) j, intervals !! b = Some j /\ x ∈ symbols j.
Proof.
  unfold all_symbols. rewrite list_elem_of_In, in_concat. split.
  - intros (l & (j & -> & Hj)%list_elem_of_In%list_elem_of_fmap
              & Hx%list_elem_of_In).
    apply list_elem_of_lookup in Hj as [b Hb]. by exists b, j.
  - intros (b & j & Hb & Hx). exists (symbols j).
    split; [|by apply list_elem_of_In].
    apply list_elem_of_In, list_elem_of_fmap. exists j. split; [done|].
    by eapply list_elem_of_lookup_2.
Qed.

Lemma pairwise_disjoint_tail i rest :
  pairwise_disjoint (i :: rest) -> pairwise_disjoint rest.
Proof.
  intros H a b x y Hab Ha Hb. apply (H (S a) (S b)); [lia|done|done].
Qed.

Lemma NoDup_all_symbols intervals :
  Forall valid intervals -> pairwise_disjoint intervals ->
  NoDup (all_symbols intervals).
Proof.
  induction intervals as [|i rest IH]; intros Hv Hd.
  - constructor.
  - apply Forall_cons in Hv as [Hi Hrest].
    change (all_symbols (i :: rest)) with (symbols i ++ all_symbols rest).
    apply NoDup_app. split; [by apply NoDup_symbols|]. split.
    + intros x Hx (b & j & Hb & Hxj)%elem_of_all_symbols.
      apply (Hd 0%nat (S b) i j); [lia|done|done|].
      exists x. rewrite Forall_forall in Hrest. split.
      * by apply elem_of_symbols_iff.
      * apply elem_of_symbols_iff; [|done]. apply Hrest.
        by eapply list_elem_of_lookup_2.
    + apply IH; [done|]. by eapply pairwise_disjoint_tail.
Qed.

Lemma populate_chars_succeeds : forall chars idx c2i i2c,
  NoDup chars -> (forall c, c ∈ chars -> c2i !! c = None) ->
  exists r, _populate_maps_chars chars idx c2i i2c = Ok r.
Proof.
  induction chars as [|c chars IH]; intros idx c2i i2c Hnd Hfresh.
  - by eexists.
  - cbn [_populate_maps_chars]. apply NoDup_cons in Hnd as [Hc Hnd].
    rewrite bool_decide_eq_false_2.
    + apply IH; [done|]. intros c' Hc'.
      rewrite lookup_insert_ne; [|by intros ->].
      apply Hfresh. by right.
    + rewrite Hfresh; [by intros [? ?]|by left].
Qed.

Lemma intersects_share_symbol i j :
  valid i -> valid j -> __class__ i = __class__ j ->
  intersects i j = Ok true -> share_symbol i j.
Proof.
  intros Hi Hj Hc.
  destruct (symbols_valid i Hi) as (lo1 & hi1 & _ & Ei & _).
  destruct (symbols_valid j Hj) as (lo2 & hi2 & _ & Ej & _).
  rewrite <- Hc in Ej. rewrite Ei, Ej.
  rewrite intersects_symbols, share_symbol_symbols.
  intros [= H]. by apply Z.leb_le.
Qed.

Lemma must_not_overlap_loop_ok : forall intervals seen,
  Forall valid (seen ++ intervals) -> same_kind (seen ++ intervals) ->
  pairwise_disjoint (seen ++ intervals) ->
  _intervals_must_not_overlap_loop intervals seen = Ok ().
Proof.
  induction intervals as [|current rest IH]; intros seen Hv Hk Hd; [done|].
  cbn [_intervals_must_not_overlap_loop].
  assert (Hcur : (seen ++ current :: rest) !! length seen = Some current).
  { by rewrite lookup_app_r, Nat.sub_diag by lia. }
  assert (Hin : forall y, y ∈ seen -> y ∈ seen ++ current :: rest).
  { intros y Hy. apply elem_of_app. by left. }
  rewrite Forall_forall in Hv.
  destruct (any_ok (intersects current) seen) as (b & -> & Hb).
  { intros y Hy. apply intersects_valid_ok.
    - apply Hv. by eapply list_elem_of_lookup_2.
    - by apply Hv, Hin.
    - apply Hk; [by eapply list_elem_of_lookup_2|by apply Hin]. }
  cbn [bind]. destruct b.
  - destruct (proj1 Hb eq_refl) as (y & Hy & Hyi).
    apply list_elem_of_lookup in Hy as Hy'. destruct Hy' as [a Ha].
    exfalso. apply (Hd (length seen) a current y).
    + apply lookup_lt_Some in Ha. lia.
    + done.
    + by rewrite lookup_app_l by by eapply lookup_lt_Some.
    + apply intersects_share_symbol; [| | |done].
      * apply Hv. by eapply list_elem_of_lookup_2.
      * by apply Hv, Hin.
      * apply Hk; [by eapply list_elem_of_lookup_2|by apply Hin].
  - apply IH; rewrite <- app_assoc; [by apply Forall_forall|done|done].
Qed.

Lemma not_a_char_exception_ok first :
  match element_type first with
  | type_str => Ok NotACharacter
  | type_bytes => Ok NotAByte
  | _ => Raise RuntimeError
  end = Ok (exception_type (__class__ first)).
Proof. unfold element_type. by destruct (__class__ first). Qed.

Lemma init_accepts intervals lookup_char lookup_index :
  Forall valid intervals -> intervals <> [] -> same_kind intervals ->
  pairwise_disjoint intervals ->
  (exists m, IndexMap.__init__ intervals None None = Ok m)
  /\ (exists m,
        IndexMap.__init__ intervals (Some lookup_char) (Some lookup_index)
        = Ok m).
Proof.
  intros Hv Hne Hk Hd. unfold IndexMap.__init__.
  destruct intervals as [|first rest] eqn:E; [done |]. rewrite <- E in *.
  rewrite (same_kind_same_type _ Hk). cbn [bind].
  rewrite not_a_char_exception_ok. cbn [bind]. split.
  - cbn. unfold _populate_maps. rewrite populate_loop_flat by done.
    destruct (populate_chars_succeeds (all_symbols intervals) 0 ∅ ∅)
      as [[[idx c2i] i2c] ->].
    + by apply NoDup_all_symbols.
    + intros c _. apply lookup_empty.
    + by eexists.
  - cbn. unfold _intervals_must_not_overlap.
    rewrite must_not_overlap_loop_ok by done. by eexists.
Qed.

Lemma init_ok_inv intervals lookup_char lookup_index m :
  IndexMap.__init__ intervals lookup_char lookup_index = Ok m ->
  intervals <> [] /\ same_kind intervals
  /\ _intervals m = intervals
  /\ lookup_char = IndexMap.lookup_char (_searchers m)
  /\ lookup_index = IndexMap.lookup_index (_searchers m)
  /\ _maps_populated m = negb (given lookup_char)
  /\ given lookup_index = given lookup_char
  /\ (exists first, head intervals = Some first
        /\ _element_type m = element_type first
        /\ _not_a_char_exception m = exception_type (__class__ first)).
Proof.
  unfold IndexMap.__init__.
  destruct (only_one_given _) eqn:Hone; [done |].
  destruct intervals as [|first rest] eqn:E; [done |]. rewrite <- E in *.
  destruct (_intervals_must_have_same_type intervals) as [[]|] eqn:Hsame;
    [|done]. cbn [bind].
  apply same_type_same_kind in Hsame.
  rewrite not_a_char_exception_ok. cbn [bind].
  assert (Hh : head intervals = Some first) by by rewrite E.
  unfold only_one_given, both_given, both_omitted in *.
  cbn [IndexMap.lookup_char IndexMap.lookup_index] in *.
  destruct lookup_char, lookup_index; try done; cbn [given andb negb].
  - destruct (_intervals_must_not_overlap intervals) as [[]|]; [|done].
    cbn [bind]. intros [= <-]. cbn. split; [by rewrite E|].
    repeat (split; [done|]). by exists first.
  - destruct (_populate_maps intervals) as [[c2i i2c]|]; [|done].
    cbn [bind]. intros [= <-]. cbn. split; [by rewrite E|].
    repeat (split; [done|]). by exists first.
Qed.

(** X9: from valid intervals, the constructor of a map succeeds, with or
    without lookup functions, exactly when there is at least one
    interval, all are of one class, and no two of them share a
    symbol. *)
Theorem map_constructor_accepts_exactly_disjoint_intervals
  intervals lookup_char lookup_index :
  Forall valid intervals ->
  ((exists m, IndexMap.__init__ intervals None None = Ok m)
   <-> intervals <> [] /\ same_kind intervals /\ pairwise_disjoint intervals)
  /\ ((exists m,
         IndexMap.__init__ intervals (Some lookup_char) (Some lookup_index)
         = Ok m)
      <-> intervals <> [] /\ same_kind intervals
          /\ pairwise_disjoint intervals).
Proof.
  intros Hv.
  assert (Hback : forall lc li m,
    (lc = None /\ li = None) \/ (lc = Some lookup_char /\ li = Some lookup_index) ->
    IndexMap.__init__ intervals lc li = Ok m ->
    intervals <> [] /\ same_kind intervals /\ pairwise_disjoint intervals).
  { intros lc li m Hl Hm.
    destruct (init_ok_inv _ _ _ _ Hm) as (Hne & Hk & _).
    split; [done|]. split; [done|].
    intros a b i j Hab Ha Hb Hs.
    assert (exists (a' b' : nat) i' j',
              (a' < b')%nat /\ intervals !! a' = Some i'
              /\ intervals !! b' = Some j' /\ share_symbol i' j')
      as (a' & b' & i' & j' & Hlt & Ha' & Hb' & Hs').
    { destruct (Nat.lt_trichotomy a b) as [H|[H|H]]; [|done|].
      - by exists a, b, i, j.
      - exists b, a, j, i. split; [done|]. split; [done|]. split; [done|].
        by apply share_symbol_sym. }
    destruct (init_overlap intervals a' b' i' j' lookup_char lookup_index
                Hv Hk Hlt Ha' Hb' Hs') as [E1 E2].
    destruct Hl as [[-> ->]|[-> ->]]; congruence. }
  split; split.
  - intros [m Hm]. apply (Hback None None m); [by left|done].
  - intros (Hne & Hk & Hd).
    by destruct (init_accepts intervals lookup_char lookup_index Hv Hne Hk Hd).
  - intros [m Hm].
    apply (Hback (Some lookup_char) (Some lookup_index) m); [by right|done].
  - intros (Hne & Hk & Hd).
    by destruct (init_accepts intervals lookup_char lookup_index Hv Hne Hk Hd).
Qed.

End MapConstruction.

Section MapTables.

Import Interval IndexMap.

Lemma map_constructor_accepts_exactly_disjoint_intervals_witness :
  [ {| __class__ := CharacterInterval; start := PyStr [97]; end_ := PyStr [122] |};
    {| __class__ := CharacterInterval; start := PyStr [65]; end_ := PyStr [90] |} ]
  <> []
  /\ same_kind
       [ {| __class__ := CharacterInterval;
            start := PyStr [97]; end_ := PyStr [122] |};
         {| __class__ := CharacterInterval;
            start := PyStr [65]; end_ := PyStr [90] |} ]
  /\ pairwise_disjoint
       [ {| __class__ := CharacterInterval;
            start := PyStr [97]; end_ := PyStr [122] |};
         {| __class__ := CharacterInterval;
            start := PyStr [65]; end_ := PyStr [90] |} ].
Proof.
  refine (proj1 (proj2 (map_constructor_accepts_exactly_disjoint_intervals
            [ {| __class__ := CharacterInterval;
                 start := PyStr [97]; end_ := PyStr [122] |};
              {| __class__ := CharacterInterval;
                 start := PyStr [65]; end_ := PyStr [90] |} ]
            _ascii_index_from_char_or_byte _ascii_char_from_index _))
            (ex_intro _ _ eq_refl)).
  repeat constructor.
Defined.

Lemma mixed_kinds intervals i j :
  i ∈ intervals -> j ∈ intervals -> __class__ i <> __class__ j ->
  _intervals_must_have_same_type intervals = Raise ConfigurationConflict.
Proof.
  intros Hi Hj Hc.
  destruct (_intervals_must_have_same_type intervals) as [[]|e] eqn:E.
  - apply same_type_same_kind in E. destruct Hc. by apply E.
  - unfold _intervals_must_have_same_type in E.
    destruct (_ <? _)%nat; congruence.
Qed.

(** X10: what the constructor of a map refuses first: a single lookup
    function raises [ConfigurationConflict], whatever the intervals; no
    interval raises [NoIntervals]; intervals of both classes raise
    [ConfigurationConflict], before any check for overlaps. *)
Theorem map_constructor_refusals intervals lookup_char lookup_index :
  IndexMap.__init__ intervals (Some lookup_char) None
  = Raise ConfigurationConflict
  /\ IndexMap.__init__ intervals None (Some lookup_index)
     = Raise ConfigurationConflict
  /\ IndexMap.__init__ [] None None = Raise NoIntervals
  /\ IndexMap.__init__ [] (Some lookup_char) (Some lookup_index)
     = Raise NoIntervals
  /\ (forall i j,
        i ∈ intervals -> j ∈ intervals -> __class__ i <> __class__ j ->
        IndexMap.__init__ intervals None None = Raise ConfigurationConflict
        /\ IndexMap.__init__ intervals (Some lookup_char) (Some lookup_index)
           = Raise ConfigurationConflict).
Proof.
  split; [done|]. split; [done|]. split; [done|]. split; [done|].
  intros i j Hi Hj Hc. unfold IndexMap.__init__.
  destruct intervals as [|first rest] eqn:E; [by apply elem_of_nil in Hi|].
  rewrite <- E in *. rewrite (mixed_kinds intervals i j Hi Hj Hc). done.
Qed.

Lemma map_constructor_refusals_witness :
  IndexMap.__init__
    [ {| __class__ := CharacterInterval;
         start := PyStr [97]; end_ := PyStr [122] |};
      {| __class__ := ByteInterval;
         start := PyBytes [97]; end_ := PyBytes [122] |} ]
    None None = Raise ConfigurationConflict.
Proof.
  refine (proj1 (proj2 (proj2 (proj2 (proj2 (map_constructor_refusals
            [ {| __class__ := CharacterInterval;
                 start := PyStr [97]; end_ := PyStr [122] |};
              {| __class__ := ByteInterval;
                 start := PyBytes [97]; end_ := PyBytes [122] |} ]
            _ascii_index_from_char_or_byte _ascii_char_from_index))))
            {| __class__ := CharacterInterval;
               start := PyStr [97]; end_ := PyStr [122] |}
            {| __class__ := ByteInterval;
               start := PyBytes [97]; end_ := PyBytes [122] |} _ _ _)).
  - left.
  - right. left.
  - done.
Defined.

Lemma init_eager_tables intervals m :
  Forall valid intervals -> IndexMap.__init__ intervals None None = Ok m ->
  _maps_populated m = true /\ _intervals m = intervals
  /\ NoDup (all_symbols intervals)
  /\ size (_char_to_index m) = length (all_symbols intervals)
  /\ (forall c k,
        _char_to_index m !! c = Some k
        <-> exists j : nat,
              all_symbols intervals !! j = Some c /\ k = Z.of_nat j)
  /\ (forall k c,
        _index_to_char m !! k = Some c
        <-> exists j : nat,
              all_symbols intervals !! j = Some c /\ k = Z.of_nat j).
Proof.
  intros Hv. unfold IndexMap.__init__.
  destruct intervals as [|first rest] eqn:E; [done |]. rewrite <- E in *.
  cbn [only_one_given both_given both_omitted given IndexMap.lookup_char
       IndexMap.lookup_index andb negb].
  destruct (_intervals_must_have_same_type intervals) as [[]|]; [|done].
  cbn [bind]. rewrite not_a_char_exception_ok. cbn [bind].
  unfold _populate_maps. rewrite populate_loop_flat by done.
  destruct (_populate_maps_chars _ _ _ _) as [[[idx c2i] i2c]|] eqn:Hpop;
    [|done].
  cbn [bind]. intros [= <-]. cbn.
  apply populate_chars_ok in Hpop as (_ & Hnd & _ & Hc2i & Hi2c & Hsize).
  specialize (Hi2c (fun k _ => lookup_empty k)).
  rewrite map_size_empty in Hsize.
  split; [done|]. split; [done|]. split; [done|]. split; [done|]. split.
  - intros c k. rewrite Hc2i. split.
    + intros [?|(j & ? & ->)]; [done|]. exists j. split; [done|lia].
    + intros (j & ? & ->). right. exists j. split; [done|lia].
  - intros k c. rewrite Hi2c. split.
    + intros [?|(j & ? & ->)]; [done|]. exists j. split; [done|lia].
    + intros (j & ? & ->). right. exists j. split; [done|lia].
Qed.

Lemma reachable_origin m :
  reachable m ->
  exists intervals lookup_char lookup_index m0,
    Forall valid intervals
    /\ IndexMap.__init__ intervals lookup_char lookup_index = Ok m0
    /\ same_map m0 m
    /\ (_maps_populated m0 = true -> m = m0).
Proof.
  induction 1 as [intervals lc li m Hv Hm|m item Hr IH|m item Hr IH].
  - exists intervals, lc, li, m. split; [done|]. split; [done|].
    split; [apply same_map_refl|done].
  - destruct IH as (intervals & lc & li & m0 & Hv & Hm0 & Hs & He).
    destruct (reachable_invariant m Hr) as [n Hinv].
    destruct (IndexMap.__getitem__ item m) as [r m'] eqn:E.
    destruct (getitem_result m n item r m' Hinv E) as (_ & Hs' & He').
    exists intervals, lc, li, m0. split; [done|]. split; [done|]. split.
    + by apply (same_map_trans m0 m m').
    + intros Hp. cbn [snd]. rewrite He'; [by apply He|].
      destruct Hs as (_ & _ & _ & -> & _). done.
  - destruct IH as (intervals & lc & li & m0 & Hv & Hm0 & Hs & He).
    destruct (reachable_invariant m Hr) as [n Hinv].
    destruct (IndexMap.__contains__ item m) as [r m'] eqn:E.
    destruct (contains_result m n item r m' Hinv E) as (_ & Hs' & He' & _).
    exists intervals, lc, li, m0. split; [done|]. split; [done|]. split.
    + by apply (same_map_trans m0 m m').
    + intros Hp. cbn [snd]. rewrite He'; [by apply He|].
      destruct Hs as (_ & _ & _ & -> & _). done.
Qed.

Lemma length_symbols i :
  valid i ->
  Interval.__len__ i = Ok (Z.of_nat (length (symbols i)))
  /\ (1 <= length (symbols i))%nat.
Proof.
  intros Hv. destruct (symbols_valid i Hv) as (lo & hi & Hle & Ei & Es).
  rewrite (len_valid i lo hi Ei Hle), Es, length_fmap, length_seqZ.
  split; [f_equal; lia|lia].
Qed.

Lemma sum_of_lengths_all_symbols : forall intervals total,
  Forall valid intervals ->
  sum_of_lengths intervals total
  = Ok (total + Z.of_nat (length (all_symbols intervals))).
Proof.
  induction intervals as [|i rest IH]; intros total Hv.
  - cbn. f_equal. lia.
  - apply Forall_cons in Hv as [Hi Hrest].
    cbn [sum_of_lengths]. rewrite (proj1 (length_symbols i Hi)). cbn [bind].
    rewrite IH by done.
    change (all_symbols (i :: rest)) with (symbols i ++ all_symbols rest).
    rewrite length_app. f_equal. lia.
Qed.

Lemma all_symbols_nonempty intervals :
  Forall valid intervals -> intervals <> [] ->
  (1 <= length (all_symbols intervals))%nat.
Proof.
  intros Hv Hne. destruct intervals as [|i rest]; [done|].
  apply Forall_cons in Hv as [Hi _].
  change (all_symbols (i :: rest)) with (symbols i ++ all_symbols rest).
  rewrite length_app. pose proof (proj2 (length_symbols i Hi)). lia.
Qed.

Lemma reachable_len m :
  reachable m ->
  Forall valid (_intervals m)
  /\ IndexMap.__len__ m
     = Ok (Z.of_nat (length (all_symbols (_intervals m))))
  /\ (1 <= length (all_symbols (_intervals m)))%nat.
Proof.
  intros Hr.
  destruct (reachable_origin m Hr)
    as (intervals & lc & li & m0 & Hv & Hm0 & Hs & He).
  destruct (init_ok_inv _ _ _ _ Hm0)
    as (Hne & _ & Hint & Hlc & Hli & Hpop & Hgiven & _).
  destruct Hs as (Hi & _ & _ & Hp & _).
  rewrite Hi, Hint. split; [done|].
  split; [|by apply all_symbols_nonempty].
  unfold IndexMap.__len__. rewrite Hi, Hint.
  destruct (_maps_populated m) eqn:Hpm.
  - rewrite <- Hp in Hpop. rewrite (He (eq_sym Hp)).
    destruct lc; [done|]. destruct li; [done|].
    destruct (init_eager_tables intervals m0 Hv Hm0) as (_ & _ & _ & -> & _).
    done.
  - by rewrite sum_of_lengths_all_symbols.
Qed.

(** X11: the size of a map, with or without lookup functions and after
    any lookups, is the sum of the lengths of its intervals, the number
    of their symbols, and is at least 1. *)
Theorem map_len_is_sum_of_interval_lengths m :
  reachable m ->
  exists n,
    IndexMap.__len__ m = Ok n
    /\ sum_of_lengths (_intervals m) 0 = Ok n
    /\ n = Z.of_nat (length (all_symbols (_intervals m)))
    /\ 1 <= n.
Proof.
  intros Hr. destruct (reachable_len m Hr) as (Hv & Hl & Hn).
  exists (Z.of_nat (length (all_symbols (_intervals m)))).
  split; [done|]. split; [by rewrite sum_of_lengths_all_symbols|].
  split; [done|lia].
Qed.

Lemma map_len_is_sum_of_interval_lengths_witness :
  exists n,
    IndexMap.__len__ ASCII_map = Ok n
    /\ sum_of_lengths (_intervals ASCII_map) 0 = Ok n
    /\ n = Z.of_nat (length (all_symbols (_intervals ASCII_map)))
    /\ 1 <= n.
Proof.
  apply map_len_is_sum_of_interval_lengths.
  apply (reachable_init
           [{| __class__ := CharacterInterval;
               start := PyStr [0]; end_ := PyStr [255] |}]
           (Some _ascii_index_from_char_or_byte)
           (Some _ascii_char_from_index)).
  - repeat constructor.
  - reflexivity.
Defined.

Lemma is_symbol_not_int' m c : is_symbol m c -> forall i, c <> PyInt i.
Proof.
  unfold is_symbol, _is_char_of_type. intros H i ->.
  by destruct (_element_type m).
Qed.

Lemma eager_getitem_char intervals m c k :
  Forall valid intervals -> IndexMap.__init__ intervals None None = Ok m ->
  (IndexMap.__getitem__ c m = (Ok (PyInt k), m)
   <-> _char_to_index m !! c = Some k).
Proof.
  intros Hv Hm.
  destruct (init_invariant intervals None None m Hv Hm) as [n Hinv].
  destruct (init_eager_tables intervals m Hv Hm) as (Hp & _).
  split.
  - intros E.
    assert ((exists k', c = PyInt k') \/ (forall k', c <> PyInt k'))
      as [[k' ->]|Hc].
    { destruct c; try (by right); left; by eexists. }
    + change (IndexMap.__getitem__ (PyInt k') m)
        with (_get_char_given_index k' m) in E.
      destruct (get_char_result m n k' _ _ Hinv E) as (_ & _ & _ & Hr).
      specialize (Hr _ eq_refl).
      apply (inv_indices m n Hinv) in Hr as [Hr _].
      by destruct (is_symbol_not_int' m _ Hr k).
    + assert (E0 : IndexMap.__getitem__ c m
                   = (if isinstance c (_element_type m)
                      then let! index := _get_index_given_char c in
                           ret (PyInt index)
                      else raise TypeError) m).
      { destruct c as [| |k'|]; try done. by destruct (Hc k'). }
      rewrite E0 in E. clear E0.
      destruct (isinstance _ _); [|done]. unfold mbind in E.
      destruct (_get_index_given_char c m) as [r m'] eqn:E'.
      destruct (get_index_result m n _ r m' Hinv E') as (_ & _ & He & Hr).
      rewrite (He Hp) in *. destruct r as [k0|]; [|done].
      injection E as ->. by apply Hr.
  - intros Hc. pose proof (inv_chars m n Hinv c k Hc) as [Hs _].
    rewrite (getitem_symbol m n c Hinv Hs). unfold mbind.
    by rewrite (get_index_hit m n c k Hinv Hc).
Qed.

Lemma eager_getitem_index intervals m k c :
  Forall valid intervals -> IndexMap.__init__ intervals None None = Ok m ->
  (IndexMap.__getitem__ (PyInt k) m = (Ok c, m)
   <-> _index_to_char m !! k = Some c).
Proof.
  intros Hv Hm.
  destruct (init_invariant intervals None None m Hv Hm) as [n Hinv].
  change (IndexMap.__getitem__ (PyInt k) m) with (_get_char_given_index k m).
  split.
  - intros E. destruct (get_char_result m n k _ _ Hinv E) as (_ & _ & _ & Hr).
    by apply Hr.
  - intros Hc. by apply (get_char_hit m n).
Qed.

Lemma position_iff (l : list object) c k :
  (exists j : nat, l !! j = Some c /\ k = Z.of_nat j)
  <-> 0 <= k /\ l !! Z.to_nat k = Some c.
Proof.
  split.
  - intros (j & Hj & ->). rewrite Nat2Z.id. split; [lia|done].
  - intros [Hk Hc]. exists (Z.to_nat k). split; [done|lia].
Qed.

(** X12: in a map without lookup functions the index of a symbol is its
    position in the intervals chained in the order given, and the symbol
    at an index is the one at that position. *)
Theorem eager_index_is_position intervals m c k :
  Forall valid intervals -> IndexMap.__init__ intervals None None = Ok m ->
  (IndexMap.__getitem__ c m = (Ok (PyInt k), m)
   <-> 0 <= k /\ all_symbols intervals !! Z.to_nat k = Some c)
  /\ (IndexMap.__getitem__ (PyInt k) m = (Ok c, m)
      <-> 0 <= k /\ all_symbols intervals !! Z.to_nat k = Some c).
Proof.
  intros Hv Hm.
  destruct (init_eager_tables intervals m Hv Hm) as (_ & _ & _ & _ & Hc & Hi).
  rewrite (eager_getitem_char intervals m c k Hv Hm).
  rewrite (eager_getitem_index intervals m k c Hv Hm).
  rewrite Hc, Hi. split; apply position_iff.
Qed.

End MapTables.

(** ** Maps: lookups and their failures *)

Section MapLookups.

Import Interval IndexMap.

Lemma eager_index_is_position_witness :
  match
    IndexMap.__init__
      [ {| __class__ := CharacterInterval;
           start := PyStr [97]; end_ := PyStr [99] |};
        {| __class__ := CharacterInterval;
           start := PyStr [48]; end_ := PyStr [57] |} ] None None
  with
  | Ok m =>
      (IndexMap.__getitem__ (PyStr [48]) m = (Ok (PyInt 3), m)
       <-> 0 <= 3
           /\ all_symbols
                [ {| __class__ := CharacterInterval;
                     start := PyStr [97]; end_ := PyStr [99] |};
                  {| __class__ := CharacterInterval;
                     start := PyStr [48]; end_ := PyStr [57] |} ]
              !! Z.to_nat 3 = Some (PyStr [48]))
      /\ (IndexMap.__getitem__ (PyInt 3) m = (Ok (PyStr [48]), m)
          <-> 0 <= 3
              /\ all_symbols
                   [ {| __class__ := CharacterInterval;
                        start := PyStr [97]; end_ := PyStr [99] |};
                     {| __class__ := CharacterInterval;
                        start := PyStr [48]; end_ := PyStr [57] |} ]
                 !! Z.to_nat 3 = Some (PyStr [48]))
  | Raise _ => False
  end.
Proof.
  assert (match
            IndexMap.__init__
              [ {| __class__ := CharacterInterval;
                   start := PyStr [97]; end_ := PyStr [99] |};
                {| __class__ := CharacterInterval;
                   start := PyStr [48]; end_ := PyStr [57] |} ] None None
          with
          | Ok _ => true
          | Raise _ => false
          end = true) as Hbuilt by by vm_compute.
  destruct (IndexMap.__init__ _ None None) as [m|] eqn:E;
    [clear Hbuilt | done].
  apply (eager_index_is_position _ m (PyStr [48]) 3); [|exact E].
  repeat constructor.
Defined.

Lemma reachable_exception m :
  reachable m ->
  (_element_type m = type_str /\ _not_a_char_exception m = NotACharacter)
  \/ (_element_type m = type_bytes /\ _not_a_char_exception m = NotAByte).
Proof.
  intros Hr.
  destruct (reachable_origin m Hr)
    as (intervals & lc & li & m0 & Hv & Hm0 & Hs & He).
  destruct (init_ok_inv _ _ _ _ Hm0)
    as (_ & _ & _ & _ & _ & _ & _ & first & _ & Ht & Hx).
  destruct Hs as (_ & _ & -> & _ & ->). rewrite Ht, Hx.
  unfold element_type. destruct (__class__ first); [by left|by right].
Qed.

Lemma not_symbol_cases m item :
  _element_type m = type_str \/ _element_type m = type_bytes ->
  isinstance item (_element_type m) = true -> ~ is_symbol m item ->
  _is_char_of_type item (_element_type m) = Ok false.
Proof.
  unfold is_symbol, _is_char_of_type. intros Ht Hi Hn. rewrite Hi in *.
  destruct item as [s|b|i|].
  - cbn in *. destruct (_ =? 1); [by destruct Hn|done].
  - cbn in *. destruct (_ =? 1); [by destruct Hn|done].
  - by destruct Ht as [Ht|Ht]; rewrite Ht in Hi.
  - by destruct Ht as [Ht|Ht]; rewrite Ht in Hi.
Qed.

(** X13: how a lookup fails, on any state of a map: an integer outside
    [[0, len)] raises [IndexError]; an object that is neither an integer
    nor of the element type raises [TypeError]; an object of the element
    type that is not a single symbol raises [NotACharacter] or
    [NotAByte].  The last two are not [in] the map, and the map is left
    as it was. *)
Theorem lookup_errors m n :
  reachable m -> IndexMap.__len__ m = Ok n ->
  (forall k, ~ 0 <= k < n ->
     IndexMap.__getitem__ (PyInt k) m = (Raise IndexError, m))
  /\ (forall item,
        (forall i, item <> PyInt i) ->
        isinstance item (_element_type m) = false ->
        IndexMap.__getitem__ item m = (Raise TypeError, m)
        /\ IndexMap.__contains__ item m = (Ok false, m))
  /\ (forall item,
        isinstance item (_element_type m) = true -> ~ is_symbol m item ->
        IndexMap.__getitem__ item m
        = (Raise (match _element_type m with
                  | type_str => NotACharacter
                  | _ => NotAByte
                  end), m)
        /\ IndexMap.__contains__ item m = (Ok false, m)).
Proof.
  intros Hr Hn.
  pose proof (reachable_exception m Hr) as Hx.
  split; [|split].
  - intros k Hk.
    change (IndexMap.__getitem__ (PyInt k) m) with (_get_char_given_index k m).
    unfold _get_char_given_index, mbind, get, lift.
    rewrite (contains_int_spec m n k Hn).
    rewrite bool_decide_eq_false_2 by done. done.
  - intros item Hni Hi. unfold IndexMap.__getitem__, IndexMap.__contains__.
    unfold mbind, get. rewrite Hi.
    destruct item as [| |i|]; try done. by destruct (Hni i).
  - intros item Hi Hs.
    assert (Ht : _element_type m = type_str \/ _element_type m = type_bytes).
    { destruct Hx as [[? _]|[? _]]; auto. }
    pose proof (not_symbol_cases m item Ht Hi Hs) as Hc.
    assert (Hni : forall i, item <> PyInt i).
    { intros i ->. by destruct Ht as [Ht|Ht]; rewrite Ht in Hi. }
    assert (Hg : _get_index_given_char item m
                 = (Raise (_not_a_char_exception m), m)).
    { unfold _get_index_given_char, mbind, get, lift. by rewrite Hc. }
    assert (He : _not_a_char_exception m
                 = match _element_type m with
                   | type_str => NotACharacter
                   | _ => NotAByte
                   end).
    { by destruct Hx as [[-> ->]|[-> ->]]. }
    split.
    + unfold IndexMap.__getitem__, mbind, get. rewrite Hi.
      destruct item as [| |i|]; try (by rewrite Hg, He).
      by destruct (Hni i).
    + unfold IndexMap.__contains__, mbind, get. rewrite Hi. cbn [orb negb].
      unfold try_except_else.
      destruct item as [| |i|]; try (rewrite Hg, He; by destruct (_element_type m)).
      by destruct (Hni i).
Qed.

Lemma lookup_errors_witness :
  IndexMap.__getitem__ (PyInt 256) ASCII_map = (Raise IndexError, ASCII_map)
  /\ IndexMap.__getitem__ (PyInt (-1)) ASCII_map
     = (Raise IndexError, ASCII_map).
Proof.
  assert (Hr : reachable ASCII_map).
  { apply (reachable_init
             [{| __class__ := CharacterInterval;
                 start := PyStr [0]; end_ := PyStr [255] |}]
             (Some _ascii_index_from_char_or_byte)
             (Some _ascii_char_from_index)).
    - repeat constructor.
    - reflexivity. }
  split.
  - refine (proj1 (lookup_errors ASCII_map 256 Hr eq_refl) 256 _). lia.
  - refine (proj1 (lookup_errors ASCII_map 256 Hr eq_refl) (-1) _). lia.
Defined.

(** X14: in a map without lookup functions a symbol is [in] the map
    exactly when it is in one of the intervals; then it has an index,
    and otherwise looking it up raises [LookupError]. *)
Theorem eager_membership_is_interval_membership intervals m c :
  Forall valid intervals -> IndexMap.__init__ intervals None None = Ok m ->
  is_symbol m c ->
  exists b,
    IndexMap.__contains__ c m = (Ok b, m)
    /\ (b = true
        <-> exists i, i ∈ intervals /\ Interval.__contains__ i c = Ok true)
    /\ (b = true -> exists k, IndexMap.__getitem__ c m = (Ok (PyInt k), m))
    /\ (b = false -> IndexMap.__getitem__ c m = (Raise LookupError, m)).
Proof.
  intros Hv Hm Hs.
  destruct (init_invariant intervals None None m Hv Hm) as [n Hinv].
  destruct (init_eager_tables intervals m Hv Hm)
    as (Hp & _ & _ & _ & Hc & _).
  destruct (init_ok_inv _ _ _ _ Hm) as (_ & _ & _ & Hlc & _).
  assert (Hmem : (exists k, _char_to_index m !! c = Some k)
                 <-> exists i, i ∈ intervals
                               /\ Interval.__contains__ i c = Ok true).
  { rewrite Forall_forall in Hv. split.
    - intros [k Hk]. apply Hc in Hk as (j & Hj & _).
      apply list_elem_of_lookup_2, elem_of_all_symbols in Hj
        as (b & i & Hb & Hi).
      apply list_elem_of_lookup_2 in Hb. exists i. split; [done|].
      apply elem_of_symbols_iff; [by apply Hv|done].
    - intros (i & Hi & Hic).
      assert (c ∈ all_symbols intervals) as [j Hj]%list_elem_of_lookup.
      { apply list_elem_of_lookup in Hi as [b Hb].
        apply elem_of_all_symbols. exists b, i. split; [done|].
        apply elem_of_symbols_iff; [|done]. apply Hv.
        by eapply list_elem_of_lookup_2. }
      exists (Z.of_nat j). apply Hc. by exists j. }
  assert (Hni : forall i, c <> PyInt i) by by apply (is_symbol_not_int' m).
  assert (Hi : isinstance c (_element_type m) = true)
    by by apply is_symbol_isinstance.
  assert (Hcont : IndexMap.__contains__ c m
                  = try_except_else (_get_index_given_char c)
                      (ret false) (fun _ => ret true) m).
  { unfold IndexMap.__contains__, mbind, get. rewrite Hi.
    destruct c as [| |i|]; try done. by destruct (Hni i). }
  rewrite Hcont, (getitem_symbol m n c Hinv Hs).
  unfold try_except_else, mbind.
  destruct (_char_to_index m !! c) as [k|] eqn:Hk.
  - exists true. rewrite (get_index_hit m n c k Hinv Hk).
    split; [done|]. split; [|split; [|done]].
    + split; [intros _|done]. apply Hmem. by exists k.
    + intros _. by exists k.
  - exists false.
    assert (Hg : _get_index_given_char c m = (Raise LookupError, m)).
    { unfold _get_index_given_char, mbind, get, lift.
      unfold is_symbol in Hs. rewrite Hs. cbn [negb]. rewrite Hk.
      by rewrite <- Hlc. }
    rewrite Hg. split; [done|]. split; [|split; [done|done]].
    split; [done|]. intros [k Hk']%Hmem. congruence.
Qed.

End MapLookups.

Section LazyLookups.

Import Interval IndexMap.

Lemma eager_membership_is_interval_membership_witness :
  match
    IndexMap.__init__
      [ {| __class__ := CharacterInterval;
           start := PyStr [97]; end_ := PyStr [99] |} ] None None
  with
  | Ok m =>
      exists b,
        IndexMap.__contains__ (PyStr [100]) m = (Ok b, m)
        /\ (b = true
            <-> exists i,
                  i ∈ [ {| __class__ := CharacterInterval;
                           start := PyStr [97]; end_ := PyStr [99] |} ]
                  /\ Interval.__contains__ i (PyStr [100]) = Ok true)
        /\ (b = true ->
            exists k, IndexMap.__getitem__ (PyStr [100]) m = (Ok (PyInt k), m))
        /\ (b = false ->
            IndexMap.__getitem__ (PyStr [100]) m = (Raise LookupError, m))
  | Raise _ => False
  end.
Proof.
  assert (match
            IndexMap.__init__
              [ {| __class__ := CharacterInterval;
                   start := PyStr [97]; end_ := PyStr [99] |} ] None None
          with
          | Ok _ => true
          | Raise _ => false
          end = true) as Hbuilt by by vm_compute.
  destruct (IndexMap.__init__ _ None None) as [m|] eqn:E;
    [clear Hbuilt | done].
  apply (eager_membership_is_interval_membership _ m (PyStr [100]));
    [repeat constructor | exact E |].
  by apply (built_property _ m
              (fun m => _is_char_of_type (PyStr [100]) (_element_type m)) _ E).
Defined.

Lemma getitem_not_int m c :
  (forall i, c <> PyInt i) -> isinstance c (_element_type m) = true ->
  IndexMap.__getitem__ c m
  = (let! index := _get_index_given_char c in ret (PyInt index)) m
  /\ IndexMap.__contains__ c m
     = try_except_else (_get_index_given_char c)
         (ret false) (fun _ => ret true) m.
Proof.
  intros Hni Hi. unfold IndexMap.__getitem__, IndexMap.__contains__.
  unfold mbind, get. rewrite Hi.
  destruct c as [| |i|]; try done. by destruct (Hni i).
Qed.

(** X15: the first lookup of a symbol in a map with lookup functions is
    decided by [lookup_char] alone: an integer in [[0, len)] is returned
    and cached; any other result raises [InvalidIndex]; an exception of
    [lookup_char] is passed on.  The membership test answers [False]
    where the lookup raises a [LookupError] or a [ValueError], and
    passes any other exception on; a failure leaves the caches as they
    were. *)
Theorem lazy_char_lookup_outcome m n f c :
  reachable m -> IndexMap.__len__ m = Ok n ->
  lookup_char (_searchers m) = Some f ->
  is_symbol m c -> _char_to_index m !! c = None ->
  match f c with
  | Ok (PyInt k) =>
      if bool_decide (0 <= k < n)
      then IndexMap.__getitem__ c m = (Ok (PyInt k), cache_index m c k)
           /\ IndexMap.__contains__ c m = (Ok true, cache_index m c k)
      else IndexMap.__getitem__ c m = (Raise InvalidIndex, m)
           /\ IndexMap.__contains__ c m = (Ok false, m)
  | Ok _ =>
      IndexMap.__getitem__ c m = (Raise InvalidIndex, m)
      /\ IndexMap.__contains__ c m = (Ok false, m)
  | Raise e =>
      IndexMap.__getitem__ c m = (Raise e, m)
      /\ IndexMap.__contains__ c m
         = (if is_LookupError_or_ValueError e then Ok false else Raise e, m)
  end.
Proof.
  intros Hr Hn Hf Hs Hc.
  assert (Hni : forall i, c <> PyInt i) by by apply (is_symbol_not_int' m).
  destruct (getitem_not_int m c Hni (is_symbol_isinstance m c Hs))
    as [-> ->].
  unfold try_except_else, mbind.
  assert (Hg : _get_index_given_char c m
               = match f c with
                 | Ok (PyInt k) =>
                     if bool_decide (0 <= k < n)
                     then (Ok k, cache_index m c k)
                     else (Raise InvalidIndex, m)
                 | Ok _ => (Raise InvalidIndex, m)
                 | Raise e => (Raise e, m)
                 end).
  { unfold _get_index_given_char, mbind, get, lift.
    unfold is_symbol in Hs. rewrite Hs. cbn [negb]. rewrite Hc, Hf.
    destruct (f c) as [[| |k|]|e]; try (by rewrite Hn); try done.
    rewrite (contains_int_spec m n k Hn), Hn.
    by case_bool_decide. }
  rewrite Hg. destruct (f c) as [[| |k|]|e]; try done.
  - by case_bool_decide.
  - by destruct (is_LookupError_or_ValueError e).
Qed.

Lemma lazy_char_lookup_outcome_witness :
  IndexMap.__getitem__ (PyStr [300]) ASCII_map = (Raise ValueError, ASCII_map)
  /\ IndexMap.__contains__ (PyStr [300]) ASCII_map = (Ok false, ASCII_map).
Proof.
  exact (lazy_char_lookup_outcome ASCII_map 256
           _ascii_index_from_char_or_byte (PyStr [300])
           ASCII_map_reachable eq_refl eq_refl eq_refl eq_refl).
Defined.

(** X16: the first lookup of an index below the size of a map with
    lookup functions returns and caches what [lookup_index] answers if
    that is a single symbol of the element type, raises [InvalidChar]
    if it is anything else, and passes an exception of [lookup_index]
    on. *)
Theorem lazy_index_lookup_outcome m n g k :
  reachable m -> IndexMap.__len__ m = Ok n ->
  lookup_index (_searchers m) = Some g ->
  0 <= k < n -> _index_to_char m !! k = None ->
  match g k with
  | Ok r =>
      exists b,
        _is_char_of_type r (_element_type m) = Ok b
        /\ IndexMap.__getitem__ (PyInt k) m
           = if b then (Ok r, cache_char m k r) else (Raise InvalidChar, m)
  | Raise e => IndexMap.__getitem__ (PyInt k) m = (Raise e, m)
  end.
Proof.
  intros Hr Hn Hg Hk Hc.
  change (IndexMap.__getitem__ (PyInt k) m) with (_get_char_given_index k m).
  unfold _get_char_given_index, mbind, get, lift.
  rewrite (contains_int_spec m n k Hn), bool_decide_eq_true_2 by done.
  cbn [negb]. rewrite Hc, Hg.
  destruct (g k) as [r|e]; [|done].
  assert (exists b, _is_char_of_type r (_element_type m) = Ok b) as [b Hb].
  { unfold _is_char_of_type.
    destruct (reachable_exception m Hr) as [[-> _]|[-> _]];
      destruct r; cbn; by eexists. }
  exists b. rewrite Hb. split; [done|]. by destruct b.
Qed.

Lemma lazy_index_lookup_outcome_witness :
  exists b,
    _is_char_of_type (PyStr [65]) (_element_type ASCII_map) = Ok b
    /\ IndexMap.__getitem__ (PyInt 65) ASCII_map
       = if b then (Ok (PyStr [65]), cache_char ASCII_map 65 (PyStr [65]))
         else (Raise InvalidChar, ASCII_map).
Proof.
  refine (lazy_index_lookup_outcome ASCII_map 256 _ascii_char_from_index 65
            ASCII_map_reachable eq_refl eq_refl _ eq_refl).
  lia.
Defined.

Lemma get_index_grows c m r m' :
  _get_index_given_char c m = (r, m') ->
  _char_to_index m ⊆ _char_to_index m'
  /\ _index_to_char m' = _index_to_char m.
Proof.
  unfold _get_index_given_char, mbind, get, lift, ret, raise, put.
  destruct (_is_char_of_type c (_element_type m)) as [[]|]; cbn [negb];
    try (by intros [= <- <-]).
  destruct (_char_to_index m !! c) as [k|] eqn:Hc;
    try (by intros [= <- <-]).
  destruct (lookup_char (_searchers m)) as [f|]; try (by intros [= <- <-]).
  destruct (f c) as [[| |k|]|e]; try (by intros [= <- <-]);
    try (destruct (IndexMap.__len__ m); by intros [= <- <-]).
  destruct (__contains__int k m) as [[]|]; cbn [negb];
    try (by intros [= <- <-]);
    try (destruct (IndexMap.__len__ m); by intros [= <- <-]).
  intros [= <- <-]. cbn. split; [|done]. by apply insert_subseteq.
Qed.

Lemma get_char_grows k m r m' :
  _get_char_given_index k m = (r, m') ->
  _index_to_char m ⊆ _index_to_char m'
  /\ _char_to_index m' = _char_to_index m.
Proof.
  unfold _get_char_given_index, mbind, get, lift, ret, raise, put.
  destruct (__contains__int k m) as [[]|]; cbn [negb];
    try (by intros [= <- <-]).
  destruct (_index_to_char m !! k) as [c|] eqn:Hc;
    try (by intros [= <- <-]).
  destruct (lookup_index (_searchers m)) as [g|]; try (by intros [= <- <-]).
  destruct (g k) as [c|e]; try (by intros [= <- <-]).
  destruct (_is_char_of_type c (_element_type m)) as [[]|]; cbn [negb];
    try (by intros [= <- <-]).
  intros [= <- <-]. cbn. split; [|done]. by apply insert_subseteq.
Qed.

(** X17: a lookup that succeeded gives the same answer when repeated,
    and then changes nothing; lookups only add to the caches and leave
    the intervals, the lookup functions and the element type as they
    were. *)
Theorem lookups_are_repeatable m item r m' :
  reachable m -> IndexMap.__getitem__ item m = (Ok r, m') ->
  IndexMap.__getitem__ item m' = (Ok r, m')
  /\ same_map m m'
  /\ _char_to_index m ⊆ _char_to_index m'
  /\ _index_to_char m ⊆ _index_to_char m'.
Proof.
  intros Hr E. destruct (reachable_invariant m Hr) as [n Hinv].
  destruct (getitem_result m n item _ _ Hinv E) as (Hinv' & Hsame & _).
  assert ((exists k, item = PyInt k) \/ (forall k, item <> PyInt k))
    as [[k ->]|Hni].
  { destruct item; try (by right); left; by eexists. }
  - change (IndexMap.__getitem__ (PyInt k))
      with (_get_char_given_index k) in *.
    destruct (get_char_result m n k _ _ Hinv E) as (_ & _ & _ & Hc).
    destruct (get_char_grows k m _ _ E) as [Hsub Heq].
    split; [by apply (get_char_hit m' n); [|apply Hc]|].
    split; [done|]. split; [by rewrite Heq|done].
  - destruct (isinstance item (_element_type m)) eqn:Hi.
    + destruct (getitem_not_int m item Hni Hi) as [E0 _].
      rewrite E0 in E. unfold mbind in E.
      destruct (_get_index_given_char item m) as [[k|e] m1] eqn:E1; [|done].
      injection E as <- <-.
      destruct (get_index_result m n item _ _ Hinv E1) as (_ & _ & _ & Hc).
      specialize (Hc k eq_refl).
      destruct (get_index_grows item m _ _ E1) as [Hsub Heq].
      pose proof (inv_chars m1 n Hinv' item k Hc) as [Hs _].
      rewrite (getitem_symbol m1 n item Hinv' Hs). unfold mbind.
      rewrite (get_index_hit m1 n item k Hinv' Hc).
      split; [done|]. split; [done|]. split; [done|by rewrite Heq].
    + unfold IndexMap.__getitem__, mbind, get in E. rewrite Hi in E.
      destruct item as [| |k|]; try done. by destruct (Hni k).
Qed.

Lemma lookups_are_repeatable_witness :
  IndexMap.__getitem__ (PyInt 65) (cache_char ASCII_map 65 (PyStr [65]))
  = (Ok (PyStr [65]), cache_char ASCII_map 65 (PyStr [65])).
Proof.
  exact (proj1 (lookups_are_repeatable ASCII_map (PyInt 65) (PyStr [65])
                  (cache_char ASCII_map 65 (PyStr [65]))
                  ASCII_map_reachable eq_refl)).
Defined.

End LazyLookups.

(** ** Pre-built maps with lookup functions, and sums of maps *)

Section PrebuiltLookups.

Import Interval IndexMap.

Lemma offset_lookups_inverse cls lo hi f g m :
  lo <= hi ->
  IndexMap.__len__ m = Ok (hi - lo + 1) ->
  _element_type m
  = match cls with
    | CharacterInterval => type_str
    | ByteInterval => type_bytes
    end ->
  lookup_char (_searchers m) = Some f ->
  lookup_index (_searchers m) = Some g ->
  (forall x, lo <= x <= hi -> f (symbol cls x) = Ok (PyInt (x - lo))) ->
  (forall x k, f (symbol cls x) = Ok (PyInt k) -> k = x - lo) ->
  (forall k, g k = Ok (symbol cls (k + lo))) ->
  mutually_inverse m.
Proof.
  intros Hle Hn Ht Hf Hg Hfx Hfk Hgk f' g'. rewrite Hf, Hg.
  intros [= <-] [= <-]. unfold is_symbol. rewrite Ht. split.
  - intros c k Hc Hk Hfc.
    destruct (is_char_of_type_cases cls c) as [(x & -> & _)|[_ Hne]].
    + apply Hfk in Hfc as ->. rewrite Hgk. do 2 f_equal. lia.
    + unfold element_type in Hne. cbn [__class__] in Hne. congruence.
  - intros k Hk. rewrite (contains_int_spec m _ k Hn) in Hk.
    injection Hk as Hk. apply bool_decide_eq_true in Hk.
    exists (symbol cls (k + lo)). split; [apply Hgk|].
    split; [by apply is_char_symbol|].
    rewrite Hfx by lia. do 2 f_equal. lia.
Qed.

Lemma lazy_single_len cls lo hi f g m :
  lo <= hi ->
  IndexMap.__init__
    [{| __class__ := cls; start := symbol cls lo; end_ := symbol cls hi |}]
    (Some f) (Some g) = Ok m ->
  reachable m /\ IndexMap.__len__ m = Ok (hi - lo + 1)
  /\ _element_type m
     = match cls with
       | CharacterInterval => type_str
       | ByteInterval => type_bytes
       end
  /\ lookup_char (_searchers m) = Some f
  /\ lookup_index (_searchers m) = Some g.
Proof.
  intros Hle Hm. split.
  - eapply reachable_init; [|exact Hm].
    constructor; [by apply valid_symbols|constructor].
  - destruct (init_ok_inv _ _ _ _ Hm)
      as (_ & _ & Hi & Hf & Hg & Hp & _ & first & [= <-] & Ht & _).
    split; [|split; [exact Ht|by split]].
    unfold IndexMap.__len__. rewrite Hp, Hi. cbn [given negb sum_of_lengths].
    rewrite len_symbols by done. done.
Qed.

(** X18: the pre-built maps with lookup functions, [CharacterMap.ASCII],
    [NON_ASCII], [UNICODE] and [ByteMap.ASCII], are built without error,
    have 256, 1113856, 1114112 and 256 elements, and their two lookup
    functions undo each other on every index below that size. *)
Theorem prebuilt_lookups_are_mutually_inverse :
  Forall
    (fun '(map, size) =>
       exists m,
         map = Ok m /\ reachable m /\ IndexMap.__len__ m = Ok size
         /\ mutually_inverse m)
    [ (CharacterMap.ASCII, 256);
      (CharacterMap.NON_ASCII, 1113856);
      (CharacterMap.UNICODE, 1114112);
      (ByteMap.ASCII, 256) ].
Proof.
  repeat apply Forall_cons_2; [| | | |constructor].
  - eexists. split; [reflexivity|].
    edestruct (lazy_single_len CharacterInterval 0 255) as (Hr & Hn & Ht & Hf & Hg);
      [|reflexivity|]; [lia|].
    split; [done|]. split; [done|].
    apply (offset_lookups_inverse CharacterInterval 0 255 _ _ _ ltac:(lia)
             Hn Ht Hf Hg).
    + intros x Hx. unfold _ascii_index_from_char_or_byte.
      rewrite ord_symbol. cbn [bind].
      destruct (Z.leb_spec 0 x), (Z.leb_spec x 255); try lia.
      cbn. do 2 f_equal. lia.
    + intros x k. unfold _ascii_index_from_char_or_byte.
      rewrite ord_symbol. cbn [bind].
      destruct (negb _); [done|]. intros [= <-]. lia.
    + intros k. unfold _ascii_char_from_index, chr. cbn. do 3 f_equal. lia.
  - eexists. split; [reflexivity|].
    edestruct (lazy_single_len CharacterInterval 256 1114111)
      as (Hr & Hn & Ht & Hf & Hg); [|reflexivity|]; [lia|].
    split; [done|]. split; [done|].
    apply (offset_lookups_inverse CharacterInterval 256 1114111 _ _ _
             ltac:(lia) Hn Ht Hf Hg).
    + intros x Hx. by rewrite ord_symbol.
    + intros x k. rewrite ord_symbol. cbn [bind]. intros [= <-]. done.
    + intros k. done.
  - eexists. split; [reflexivity|].
    edestruct (lazy_single_len CharacterInterval 0 1114111)
      as (Hr & Hn & Ht & Hf & Hg); [|reflexivity|]; [lia|].
    split; [done|]. split; [done|].
    apply (offset_lookups_inverse CharacterInterval 0 1114111 _ _ _
             ltac:(lia) Hn Ht Hf Hg).
    + intros x Hx. rewrite ord_symbol. cbn [bind]. do 2 f_equal. lia.
    + intros x k. rewrite ord_symbol. cbn [bind]. intros [= <-]. lia.
    + intros k. unfold chr. cbn. do 3 f_equal. lia.
  - eexists. split; [reflexivity|].
    edestruct (lazy_single_len ByteInterval 0 255) as (Hr & Hn & Ht & Hf & Hg);
      [|reflexivity|]; [lia|].
    split; [done|]. split; [done|].
    apply (offset_lookups_inverse ByteInterval 0 255 _ _ _ ltac:(lia)
             Hn Ht Hf Hg).
    + intros x Hx. unfold _ascii_index_from_char_or_byte.
      rewrite ord_symbol. cbn [bind].
      destruct (Z.leb_spec 0 x), (Z.leb_spec x 255); try lia.
      cbn. do 2 f_equal. lia.
    + intros x k. unfold _ascii_index_from_char_or_byte.
      rewrite ord_symbol. cbn [bind].
      destruct (negb _); [done|]. intros [= <-]. lia.
    + intros k. unfold _ascii_byte_from_index, to_bytes. cbn.
      do 3 f_equal. lia.
Qed.

End PrebuiltLookups.

Section SumsOfMaps.

Import Interval IndexMap.

Lemma all_symbols_app l1 l2 :
  all_symbols (l1 ++ l2) = all_symbols l1 ++ all_symbols l2.
Proof. unfold all_symbols. by rewrite fmap_app, concat_app. Qed.

Lemma init_lookups_paired intervals lookup_char lookup_index m :
  IndexMap.__init__ intervals lookup_char lookup_index = Ok m ->
  (lookup_char = None /\ lookup_index = None)
  \/ (exists f g, lookup_char = Some f /\ lookup_index = Some g).
Proof.
  intros Hm. destruct (init_ok_inv _ _ _ _ Hm) as (_&_&_&_&_&_& Hg &_).
  destruct lookup_char as [f|], lookup_index as [g|]; try done.
  - right. by exists f, g.
  - by left.
Qed.

Lemma init_ok_disjoint intervals lookup_char lookup_index m :
  Forall valid intervals ->
  IndexMap.__init__ intervals lookup_char lookup_index = Ok m ->
  pairwise_disjoint intervals.
Proof.
  intros Hv Hm. destruct (init_ok_inv _ _ _ _ Hm) as (_ & Hk & _).
  intros a b i j Hab Ha Hb Hs.
  assert (exists (a' b' : nat) i' j',
            (a' < b')%nat /\ intervals !! a' = Some i'
            /\ intervals !! b' = Some j' /\ share_symbol i' j')
    as (a' & b' & i' & j' & Hlt & Ha' & Hb' & Hs').
  { destruct (Nat.lt_trichotomy a b) as [H|[H|H]]; [|done|].
    - by exists a, b, i, j.
    - exists b, a, j, i. split; [done|]. split; [done|]. split; [done|].
      by apply share_symbol_sym. }
  destruct (init_lookups_paired _ _ _ _ Hm) as [[-> ->]|(f & g & -> & ->)].
  - destruct (init_overlap intervals a' b' i' j' (fun _ => Ok PyOther)
                (fun _ => Ok PyOther) Hv Hk Hlt Ha' Hb' Hs') as [E _].
    congruence.
  - destruct (init_overlap intervals a' b' i' j' f g Hv Hk Hlt Ha' Hb' Hs')
      as [_ E].
    congruence.
Qed.

Lemma reachable_built m :
  reachable m ->
  Forall valid (_intervals m)
  /\ same_kind (_intervals m) /\ pairwise_disjoint (_intervals m)
  /\ (exists first, head (_intervals m) = Some first
        /\ _element_type m = element_type first)
  /\ ((lookup_char (_searchers m) = None
       /\ lookup_index (_searchers m) = None
       /\ _maps_populated m = true
       /\ IndexMap.__init__ (_intervals m) None None = Ok m)
      \/ (exists f g, lookup_char (_searchers m) = Some f
                      /\ lookup_index (_searchers m) = Some g
                      /\ _maps_populated m = false)).
Proof.
  intros Hr.
  destruct (reachable_origin m Hr)
    as (intervals & lc & li & m0 & Hv & Hm0 & Hs & He).
  pose proof (init_ok_disjoint _ _ _ _ Hv Hm0) as Hd.
  destruct (init_ok_inv _ _ _ _ Hm0)
    as (_ & Hk & Hint & Hlc & Hli & Hpop & _ & first & Hh & Ht & _).
  destruct Hs as (Hi & Hse & Hty & Hp & _).
  rewrite Hi, Hint, Hse, Hty, Hp.
  split; [done|]. split; [done|]. split; [done|].
  split; [by exists first|].
  destruct (init_lookups_paired _ _ _ _ Hm0) as [[-> ->]|(f & g & -> & ->)].
  - left. rewrite <- Hlc, <- Hli. cbn in Hpop.
    by rewrite (He Hpop).
  - right. exists f, g. by rewrite <- Hlc, <- Hli.
Qed.

Lemma operand_valid_intervals other :
  match other with
  | an_interval i => valid i
  | a_map o => reachable o
  end ->
  Forall valid (operand_intervals other).
Proof.
  destruct other as [i|o]; cbn.
  - intros Hi. by constructor.
  - intros Hr. by destruct (reachable_built o Hr).
Qed.

Lemma eager_sum m other same_functions m' :
  reachable m -> _maps_populated m = true ->
  IndexMap.__add__ m other same_functions = Ok m' ->
  IndexMap.__init__ (_intervals m) None None = Ok m
  /\ IndexMap.__init__ (_intervals m ++ operand_intervals other) None None
     = Ok m'.
Proof.
  intros Hr Hp Hadd.
  destruct (reachable_built m Hr) as (_ & _ & _ & _ & Hcase).
  destruct Hcase as [(Hlc & Hli & _ & Hm)|(f & g & _ & _ & Hp')];
    [|congruence].
  split; [done|]. revert Hadd. unfold IndexMap.__add__.
  destruct (negb _); [done|]. rewrite Hlc, Hli.
  destruct other as [i|o]; cbn [operand_intervals]; [done|].
  by destruct (searchers_differ _ _ _).
Qed.

(** X19: adding an interval or a map to a map without lookup functions
    appends the intervals: every symbol of the left map keeps its index,
    every index keeps its symbol, and the size is the sum of the two
    sizes. *)
Theorem map_sum_keeps_indices m other same_functions m' :
  reachable m -> _maps_populated m = true ->
  match other with
  | an_interval i => valid i
  | a_map o => reachable o
  end ->
  IndexMap.__add__ m other same_functions = Ok m' ->
  _intervals m' = _intervals m ++ operand_intervals other
  /\ (forall c k,
        IndexMap.__getitem__ c m = (Ok (PyInt k), m) ->
        IndexMap.__getitem__ c m' = (Ok (PyInt k), m'))
  /\ (forall k c,
        IndexMap.__getitem__ (PyInt k) m = (Ok c, m) ->
        IndexMap.__getitem__ (PyInt k) m' = (Ok c, m'))
  /\ (exists n n',
        IndexMap.__len__ m = Ok n
        /\ sum_of_lengths (operand_intervals other) 0 = Ok n'
        /\ IndexMap.__len__ m' = Ok (n + n')).
Proof.
  intros Hr Hp Ho Hadd.
  destruct (eager_sum m other same_functions m' Hr Hp Hadd) as [Hm Hm'].
  destruct (reachable_built m Hr) as (Hv & _).
  pose proof (operand_valid_intervals other Ho) as Hvo.
  assert (Hv' : Forall valid (_intervals m ++ operand_intervals other))
    by by apply Forall_app.
  destruct (init_eager_tables _ m Hv Hm) as (_ & _ & _ & Hsz & Hc & Hi).
  destruct (init_eager_tables _ m' Hv' Hm')
    as (_ & Hint & _ & Hsz' & Hc' & Hi').
  split; [done|]. split; [|split].
  - intros c k. rewrite (eager_getitem_char _ m c k Hv Hm).
    rewrite (eager_getitem_char _ m' c k Hv' Hm'). rewrite Hc, Hc'.
    intros (j & Hj & ->). exists j. split; [|done].
    rewrite all_symbols_app. by apply lookup_app_l_Some.
  - intros k c. rewrite (eager_getitem_index _ m k c Hv Hm).
    rewrite (eager_getitem_index _ m' k c Hv' Hm'). rewrite Hi, Hi'.
    intros (j & Hj & ->). exists j. split; [|done].
    rewrite all_symbols_app. by apply lookup_app_l_Some.
  - exists (Z.of_nat (length (all_symbols (_intervals m)))),
           (Z.of_nat (length (all_symbols (operand_intervals other)))).
    unfold IndexMap.__len__.
    rewrite Hp, Hsz, (proj1 (init_eager_tables _ m' Hv' Hm')), Hsz'.
    rewrite sum_of_lengths_all_symbols by done.
    split; [done|]. split; [done|].
    rewrite all_symbols_app, length_app. f_equal. lia.
Qed.

End SumsOfMaps.

Section SumOfMapAndInterval.

Import Interval IndexMap.

Lemma map_sum_keeps_indices_witness :
  match
    IndexMap.__init__
      [ {| __class__ := CharacterInterval;
           start := PyStr [97]; end_ := PyStr [99] |} ] None None
  with
  | Ok m =>
      match
        IndexMap.__add__ m
          (an_interval {| __class__ := CharacterInterval;
                          start := PyStr [48]; end_ := PyStr [57] |}) false
      with
      | Ok m' =>
          IndexMap.__getitem__ (PyStr [98]) m = (Ok (PyInt 1), m) ->
          IndexMap.__getitem__ (PyStr [98]) m' = (Ok (PyInt 1), m')
      | Raise _ => False
      end
  | Raise _ => False
  end.
Proof.
  assert (match
            IndexMap.__init__
              [ {| __class__ := CharacterInterval;
                   start := PyStr [97]; end_ := PyStr [99] |} ] None None
          with
          | Ok _ => true
          | Raise _ => false
          end = true) as Hbuilt by by vm_compute.
  destruct (IndexMap.__init__ _ None None) as [m|] eqn:E;
    [clear Hbuilt | done].
  assert (match
            IndexMap.__add__ m
              (an_interval {| __class__ := CharacterInterval;
                              start := PyStr [48]; end_ := PyStr [57] |})
              false
          with
          | Ok _ => true
          | Raise _ => false
          end = true) as Hsum.
  { by apply (built_property _ m
                (fun m => match IndexMap.__add__ m _ false with
                          | Ok _ => true
                          | Raise _ => false
                          end) _ E). }
  destruct (IndexMap.__add__ m _ false) as [m'|] eqn:E';
    [clear Hsum | done].
  refine (proj1 (proj2 (map_sum_keeps_indices m _ false m' _ _ _ E'))
            (PyStr [98]) 1).
  - apply (reachable_init
             [ {| __class__ := CharacterInterval;
                  start := PyStr [97]; end_ := PyStr [99] |} ] None None m);
      [repeat constructor | exact E].
  - by apply (built_property _ m _maps_populated true E).
  - reflexivity.
Defined.

Lemma lookup_snoc_inv {A} (l : list A) (x y : A) (b : nat) :
  (l ++ [x]) !! b = Some y ->
  (b < length l)%nat /\ l !! b = Some y \/ b = length l /\ y = x.
Proof.
  intros H. destruct (decide (b < length l)%nat) as [Hlt|Hge].
  - left. split; [done|]. by rewrite lookup_app_l in H.
  - right. rewrite lookup_app_r in H by lia.
    destruct (b - length l)%nat as [|b'] eqn:Eb; [|done].
    injection H as <-. split; [lia|done].
Qed.

Lemma same_kind_snoc intervals first i :
  head intervals = Some first -> same_kind intervals ->
  __class__ i = __class__ first -> same_kind (intervals ++ [i]).
Proof.
  intros Hh Hk Hc x y Hx Hy.
  assert (Hf : first ∈ intervals).
  { destruct intervals; [done|]. injection Hh as ->. left. }
  assert (forall z, z ∈ intervals ++ [i] -> __class__ z = __class__ first)
    as Hall.
  { intros z [Hz|Hz%list_elem_of_singleton]%elem_of_app.
    - by apply Hk.
    - by subst. }
  by rewrite (Hall x Hx), (Hall y Hy).
Qed.

Lemma element_type_class i j :
  element_type i = element_type j <-> __class__ i = __class__ j.
Proof.
  unfold element_type. split.
  - by destruct (__class__ i), (__class__ j).
  - by intros ->.
Qed.

(** X20: [map + interval] succeeds exactly when the interval has the
    element type of the map and shares no symbol with its intervals;
    another element type raises [ConfigurationConflict], a shared symbol
    [OverlappingIntervals]. *)
Theorem map_plus_interval_succeeds_iff m i same_functions :
  reachable m -> valid i ->
  ((exists m', IndexMap.__add__ m (an_interval i) same_functions = Ok m')
   <-> element_type i = _element_type m
       /\ forall j, j ∈ _intervals m -> ~ share_symbol j i)
  /\ (element_type i <> _element_type m ->
      IndexMap.__add__ m (an_interval i) same_functions
      = Raise ConfigurationConflict)
  /\ (element_type i = _element_type m ->
      (exists j, j ∈ _intervals m /\ share_symbol j i) ->
      IndexMap.__add__ m (an_interval i) same_functions
      = Raise OverlappingIntervals).
Proof.
  intros Hr Hi.
  destruct (reachable_built m Hr)
    as (Hv & Hk & Hd & (first & Hh & Ht) & Hcase).
  assert (Hv' : Forall valid (_intervals m ++ [i])).
  { apply Forall_app. split; [done|by constructor]. }
  assert (Hpair :
    exists lc li,
      lookup_char (_searchers m) = lc /\ lookup_index (_searchers m) = li
      /\ ((lc = None /\ li = None) \/ exists f g, lc = Some f /\ li = Some g)).
  { destruct Hcase as [(-> & -> & _)|(f & g & -> & -> & _)].
    - exists None, None. split; [done|]. split; [done|]. by left.
    - exists (Some f), (Some g). split; [done|]. split; [done|].
      right. by exists f, g. }
  destruct Hpair as (lc & li & Hlc & Hli & Hshape).
  assert (Hadd : element_type i = _element_type m ->
                 IndexMap.__add__ m (an_interval i) same_functions
                 = IndexMap.__init__ (_intervals m ++ [i]) lc li).
  { intros E. unfold IndexMap.__add__. cbn [operand_element_type].
    rewrite bool_decide_eq_true_2 by done. by rewrite Hlc, Hli. }
  assert (Hover : element_type i = _element_type m ->
                  (exists j, j ∈ _intervals m /\ share_symbol j i) ->
                  IndexMap.__add__ m (an_interval i) same_functions
                  = Raise OverlappingIntervals).
  { intros E (j & Hj & Hs). rewrite (Hadd E).
    apply list_elem_of_lookup in Hj as [a Ha].
    assert (Hk' : same_kind (_intervals m ++ [i])).
    { apply (same_kind_snoc _ first); [done|done|].
      apply element_type_class. by rewrite E, Ht. }
    assert (Hlt : (a < length (_intervals m))%nat)
      by by eapply lookup_lt_Some.
    assert (Ha' : (_intervals m ++ [i]) !! a = Some j)
      by by rewrite lookup_app_l.
    assert (Hb' : (_intervals m ++ [i]) !! length (_intervals m) = Some i)
      by by rewrite lookup_app_r, Nat.sub_diag by lia.
    destruct Hshape as [[-> ->]|(f & g & -> & ->)].
    - by destruct (init_overlap _ a _ j i (fun _ => Ok PyOther)
                     (fun _ => Ok PyOther) Hv' Hk' Hlt Ha' Hb' Hs).
    - by destruct (init_overlap _ a _ j i f g Hv' Hk' Hlt Ha' Hb' Hs). }
  split; [|split; [|done]].
  - split.
    + intros [m' Hm'].
      destruct (decide (element_type i = _element_type m)) as [E|E].
      * split; [done|]. intros j Hj Hs.
        rewrite Hover in Hm'; [done|done|by exists j].
      * unfold IndexMap.__add__ in Hm'. cbn [operand_element_type] in Hm'.
        by rewrite bool_decide_eq_false_2 in Hm' by done.
    + intros [E Hfree]. rewrite (Hadd E).
      assert (Hk' : same_kind (_intervals m ++ [i])).
      { apply (same_kind_snoc _ first); [done|done|].
        apply element_type_class. by rewrite E, Ht. }
      assert (Hd' : pairwise_disjoint (_intervals m ++ [i])).
      { intros a b x y Hab Ha Hb Hs.
        apply lookup_snoc_inv in Ha as [[Hla Ha]|[-> ->]];
          apply lookup_snoc_inv in Hb as [[Hlb Hb]|[-> ->]].
        - by apply (Hd a b x y).
        - apply (Hfree x); [by eapply list_elem_of_lookup_2|done].
        - apply (Hfree y); [by eapply list_elem_of_lookup_2|].
          by apply share_symbol_sym.
        - done. }
      assert (Hne : _intervals m ++ [i] <> []).
      { intros Hnil. by apply app_eq_nil in Hnil as [_ ?]. }
      destruct Hshape as [[-> ->]|(f & g & -> & ->)].
      * by destruct (init_accepts _ (fun _ => Ok PyOther)
                       (fun _ => Ok PyOther) Hv' Hne Hk' Hd').
      * by destruct (init_accepts _ f g Hv' Hne Hk' Hd').
  - intros E. unfold IndexMap.__add__. cbn [operand_element_type].
    by rewrite bool_decide_eq_false_2 by done.
Qed.

Lemma map_plus_interval_succeeds_iff_witness :
  IndexMap.__add__ ASCII_map
    (an_interval {| __class__ := ByteInterval;
                    start := PyBytes [0]; end_ := PyBytes [1] |}) true
  = Raise ConfigurationConflict.
Proof.
  refine (proj1 (proj2 (map_plus_interval_succeeds_iff ASCII_map
            {| __class__ := ByteInterval;
               start := PyBytes [0]; end_ := PyBytes [1] |} true
            ASCII_map_reachable eq_refl)) _).
  done.
Defined.

End SumOfMapAndInterval.

Section IntervalSum.

Import Interval IndexMap.

Lemma eager_getitem_int intervals m k :
  Forall valid intervals -> IndexMap.__init__ intervals None None = Ok m ->
  IndexMap.__getitem__ (PyInt k) m
  = (match (if 0 <=? k then all_symbols intervals !! Z.to_nat k else None)
     with
     | Some c => Ok c
     | None => Raise IndexError
     end, m).
Proof.
  intros Hv Hm.
  destruct (init_eager_tables intervals m Hv Hm)
    as (Hp & _ & _ & Hsz & _ & Hi).
  destruct (Z.leb_spec 0 k) as [Hk|Hk].
  - destruct (all_symbols intervals !! Z.to_nat k) as [c|] eqn:Hc.
    + apply (eager_getitem_index intervals m k c Hv Hm), Hi.
      exists (Z.to_nat k). split; [done|lia].
    + apply lookup_ge_None in Hc.
      change (IndexMap.__getitem__ (PyInt k) m)
        with (_get_char_given_index k m).
      unfold _get_char_given_index, mbind, get, lift.
      rewrite (contains_int_spec m (Z.of_nat (length (all_symbols intervals)))).
      * rewrite bool_decide_eq_false_2 by lia. done.
      * unfold IndexMap.__len__. by rewrite Hp, Hsz.
  - change (IndexMap.__getitem__ (PyInt k) m)
      with (_get_char_given_index k m).
    unfold _get_char_given_index, mbind, get, lift, __contains__int.
    destruct (Z.leb_spec 0 k); [lia|]. done.
Qed.

(** X21: [i + j] is the map that numbers the symbols of [i] and then
    those of [j]: the symbol at index [k] is [i[k]] below [len(i)] and
    [j[k - len(i)]] from there on, [IndexError] included.  Intervals of
    different classes raise [TypeError], intervals that share a symbol
    [OverlappingIntervals]. *)
Theorem interval_sum_indexes_first_then_second i j :
  valid i -> valid j ->
  (__class__ j <> __class__ i -> Interval___add__ i j = Raise TypeError)
  /\ (__class__ j = __class__ i -> share_symbol i j ->
      Interval___add__ i j = Raise OverlappingIntervals)
  /\ (__class__ j = __class__ i -> ~ share_symbol i j ->
      exists m n,
        Interval___add__ i j = Ok m
        /\ Interval.__len__ i = Ok n
        /\ forall k,
             IndexMap.__getitem__ (PyInt k) m
             = (if k <? n then Interval.__getitem__ i (PyInt k)
                else Interval.__getitem__ j (PyInt (k - n)), m)).
Proof.
  intros Hi Hj.
  assert (Hv : Forall valid [i; j]) by by repeat constructor.
  assert (Hk : __class__ j = __class__ i -> same_kind [i; j]).
  { intros Hc x y Hx Hy.
    assert (forall z, z ∈ [i; j] -> __class__ z = __class__ i) as Hall.
    { intros z [->|[->|[]%elem_of_nil]%elem_of_cons]%elem_of_cons; done. }
    by rewrite (Hall x Hx), (Hall y Hy). }
  unfold Interval___add__. split; [|split].
  - intros Hc. by rewrite bool_decide_eq_false_2.
  - intros Hc Hs. rewrite bool_decide_eq_true_2 by done. cbn [negb].
    by destruct (init_overlap [i; j] 0 1 i j (fun _ => Ok PyOther)
                   (fun _ => Ok PyOther) Hv (Hk Hc) ltac:(lia)
                   eq_refl eq_refl Hs).
  - intros Hc Hs. rewrite bool_decide_eq_true_2 by done. cbn [negb].
    assert (Hd : pairwise_disjoint [i; j]).
    { intros a b x y Hab Ha Hb Hxy.
      destruct a as [|[|a]], b as [|[|b]]; try done;
        injection Ha as <-; injection Hb as <-.
      - done.
      - by apply Hs, share_symbol_sym. }
    destruct (init_accepts [i; j] (fun _ => Ok PyOther) (fun _ => Ok PyOther)
                Hv ltac:(done) (Hk Hc) Hd) as [[m Hm] _].
    exists m, (Z.of_nat (length (symbols i))).
    split; [done|]. split; [apply (length_symbols i Hi)|].
    intros k. rewrite (eager_getitem_int [i; j] m k Hv Hm). f_equal.
    change (all_symbols [i; j]) with (symbols i ++ symbols j ++ []).
    rewrite app_nil_r.
    rewrite (interval_getitem_lookup i k Hi).
    rewrite (interval_getitem_lookup j _ Hj).
    destruct (Z.leb_spec 0 k) as [H0|H0].
    + destruct (Z.ltb_spec k (Z.of_nat (length (symbols i)))) as [Hlt|Hge].
      * rewrite lookup_app_l by lia. done.
      * rewrite lookup_app_r by lia.
        destruct (Z.leb_spec 0 (k - Z.of_nat (length (symbols i)))); [|lia].
        by replace (Z.to_nat k - length (symbols i))%nat
          with (Z.to_nat (k - Z.of_nat (length (symbols i)))) by lia.
    + destruct (Z.ltb_spec k (Z.of_nat (length (symbols i)))); [done|lia].
Qed.

Lemma interval_sum_indexes_first_then_second_witness :
  Interval___add__
    {| __class__ := CharacterInterval; start := PyStr [97]; end_ := PyStr [99] |}
    {| __class__ := CharacterInterval; start := PyStr [98]; end_ := PyStr [100] |}
  = Raise OverlappingIntervals.
Proof.
  refine (proj1 (proj2 (interval_sum_indexes_first_then_second
            {| __class__ := CharacterInterval;
               start := PyStr [97]; end_ := PyStr [99] |}
            {| __class__ := CharacterInterval;
               start := PyStr [98]; end_ := PyStr [100] |}
            eq_refl eq_refl)) eq_refl _).
  exists (PyStr [98]). split; reflexivity.
Defined.

End IntervalSum.

(** ** Ranges: endpoints, elements, iteration *)

Section EagerEndpoints.

Import IndexMap _Range.

Variables (m : IndexMap) (n : Z).
Hypothesis Hinv : invariant m n.
Hypothesis Heager : _maps_populated m = true.

Lemma is_char_text cls x t :
  _is_char_of_type (text cls [x]) t = Ok (isinstance (text cls [x]) t).
Proof. by destruct cls, t. Qed.

Lemma text_not_int cls s i : text cls s <> PyInt i.
Proof. by destruct cls. Qed.

Lemma contains_eager_bool cls x :
  IndexMap.__contains__ (text cls [x]) m
  = (Ok (bool_decide (is_Some (_char_to_index m !! text cls [x]))), m).
Proof.
  destruct (inv_eager m n Hinv Heager) as (Hlc & _).
  destruct (_char_to_index m !! text cls [x]) as [k|] eqn:Hk.
  - destruct (inv_chars m n Hinv _ _ Hk) as [Hs _].
    destruct (getitem_not_int m _ (is_symbol_not_int' m _ Hs)
                (is_symbol_isinstance m _ Hs)) as [_ ->].
    unfold try_except_else. by rewrite (get_index_hit m n _ k Hinv Hk).
  - rewrite bool_decide_eq_false_2 by by intros [? ?].
    destruct (isinstance (text cls [x]) (_element_type m)) eqn:Hi.
    + assert (Hg : _get_index_given_char (text cls [x]) m
                   = (Raise LookupError, m)).
      { unfold _get_index_given_char, mbind, get, lift.
        rewrite is_char_text, Hi. cbn [negb]. by rewrite Hk, Hlc. }
      destruct (getitem_not_int m _ (text_not_int cls [x]) Hi) as [_ ->].
      unfold try_except_else. by rewrite Hg.
    + unfold IndexMap.__contains__, mbind, get. rewrite Hi. by destruct cls.
Qed.

Lemma split_text cls s : _split (text cls s) = (fun x => text cls [x]) <$> s.
Proof. by destruct cls. Qed.

Lemma all_contains_bool cls s :
  exists b,
    all IndexMap.__contains__ (_split (text cls s)) m = (Ok b, m)
    /\ (b = true
        <-> Forall (fun x => is_Some (_char_to_index m !! text cls [x])) s).
Proof.
  rewrite split_text. induction s as [|x s (b & Hb & Hiff)].
  - exists true. split; [done|]. split; [by constructor|done].
  - cbn [fmap list_fmap all]. unfold mbind. rewrite contains_eager_bool.
    case_bool_decide as Hx.
    + exists b. split; [done|]. rewrite Hiff. split.
      * intros H. by constructor.
      * by intros [_ H]%Forall_cons.
    + exists false. split; [done|]. split; [done|].
      by intros [? _]%Forall_cons.
Qed.

Lemma is_valid_endpoint_bool cls s :
  exists b,
    _is_valid_endpoint (text cls s) m = (Ok b, m)
    /\ (b = true
        <-> s <> []
            /\ Forall (fun x => is_Some (_char_to_index m !! text cls [x])) s).
Proof.
  unfold _is_valid_endpoint, mbind, lift. rewrite len_text.
  destruct s as [|x s].
  - exists false. split; [done|]. split; [done|]. by intros [? _].
  - destruct (Z.ltb_spec 0 (Z.of_nat (length (x :: s)))) as [_|H];
      [|cbn in H; lia].
    cbn [negb]. destruct (all_contains_bool cls (x :: s)) as (b & Hb & Hiff).
    exists b. split; [done|]. rewrite Hiff. split; [by split|by intros [_ ?]].
Qed.

Lemma character_range_eager cls s e :
  exists bs be,
    _is_valid_endpoint (text cls s) m = (Ok bs, m)
    /\ _is_valid_endpoint (text cls e) m = (Ok be, m)
    /\ character_range (text cls s) (text cls e) m
       = (if negb bs || negb be then Raise InvalidEndpoints
          else if (Z.of_nat (length e) <? Z.of_nat (length s))
                  || ((Z.of_nat (length s) =? Z.of_nat (length e))
                      && seq_lt e s)
               then Raise InvalidRangeDirection
               else Ok {| __class__ := cls;
                          _start := text cls s; _end := text cls e |}, m).
Proof.
  destruct (is_valid_endpoint_bool cls s) as (bs & Hs & _).
  destruct (is_valid_endpoint_bool cls e) as (be & He & _).
  exists bs, be. split; [done|]. split; [done|].
  rewrite character_range_text.
  unfold _Range.__init__, mbind at 1 2. rewrite Hs, He.
  destruct (negb bs || negb be); [done|].
  unfold mbind, lift, raise, ret. rewrite !len_text, gt_text.
  destruct (_ <? _); [done |]. destruct (_ =? _); [|done].
  by destruct (seq_lt e s).
Qed.

End EagerEndpoints.

Section Endpoints.

Import IndexMap _Range.

(** X22: over a map without lookup functions a range is refused with
    [InvalidEndpoints] exactly when an endpoint is empty or holds a
    symbol that is not in the map, whatever the direction of the
    endpoints; building the range does not change the map. *)
Theorem invalid_endpoints_are_rejected_first cls m s e :
  reachable m -> _maps_populated m = true ->
  (fst (character_range (text cls s) (text cls e) m) = Raise InvalidEndpoints
   <-> s = [] \/ e = []
       \/ exists x,
            (x ∈ s \/ x ∈ e)
            /\ IndexMap.__contains__ (text cls [x]) m = (Ok false, m))
  /\ snd (character_range (text cls s) (text cls e) m) = m.
Proof.
  intros Hr Hp. destruct (reachable_invariant m Hr) as [n Hinv].
  destruct (character_range_eager m n Hinv Hp cls s e)
    as (bs & be & Hs & He & ->).
  destruct (is_valid_endpoint_bool m n Hinv Hp cls s) as (bs' & Hs' & Hbs).
  destruct (is_valid_endpoint_bool m n Hinv Hp cls e) as (be' & He' & Hbe).
  assert (bs' = bs) as -> by congruence.
  assert (be' = be) as -> by congruence.
  split; [|done]. cbn [fst].
  assert (Hmiss : forall l,
    ~ Forall (fun x => is_Some (_char_to_index m !! text cls [x])) l
    <-> exists x, x ∈ l
                  /\ IndexMap.__contains__ (text cls [x]) m = (Ok false, m)).
  { intros l. split.
    - intros (x & Hx & Hn)%not_Forall_Exists%Exists_exists; [|apply _].
      exists x. split; [done|].
      rewrite (contains_eager_bool m n Hinv Hp).
      by rewrite bool_decide_eq_false_2.
    - intros (x & Hx & Hc) Hall. rewrite Forall_forall in Hall.
      rewrite (contains_eager_bool m n Hinv Hp) in Hc.
      rewrite bool_decide_eq_true_2 in Hc by by apply Hall. done. }
  split.
  - intros H.
    destruct bs.
    + destruct be.
      * cbn [negb orb] in H. by repeat destruct (_ || _).
      * destruct (decide (e = [])) as [->|Hne]; [by right; left|].
        right. right.
        destruct (proj1 (Hmiss e)) as (x & Hx & Hc).
        { intros Hall. by assert (false = true) by by apply Hbe. }
        exists x. split; [by right|done].
    + destruct (decide (s = [])) as [->|Hne]; [by left|].
      right. right.
      destruct (proj1 (Hmiss s)) as (x & Hx & Hc).
      { intros Hall. by assert (false = true) by by apply Hbs. }
      exists x. split; [by left|done].
  - intros H.
    assert (bs = false \/ be = false) as [-> | ->].
    { destruct H as [->|[->|(x & [Hx|Hx] & Hc)]].
      - left. destruct bs; [|done]. by destruct (proj1 Hbs eq_refl).
      - right. destruct be; [|done]. by destruct (proj1 Hbe eq_refl).
      - left. destruct bs; [|done]. destruct (proj1 Hbs eq_refl) as [_ Hall].
        exfalso. apply (proj2 (Hmiss s)); [by exists x|done].
      - right. destruct be; [|done]. destruct (proj1 Hbe eq_refl) as [_ Hall].
        exfalso. apply (proj2 (Hmiss e)); [by exists x|done]. }
    + done.
    + by destruct (negb bs).
Qed.

End Endpoints.

Section EagerElements.

Import IndexMap _Range.

Variables (m : IndexMap) (n : Z).
Hypothesis Hinv : invariant m n.
Hypothesis Heager : _maps_populated m = true.

Lemma endpoint_indices_of cls s :
  Forall (fun x => exists k, _char_to_index m !! text cls [x] = Some k) s ->
  exists ks,
    for_each
      (fun char => let! index := IndexMap.__getitem__ char in as_index index)
      (_split (text cls s)) m = (Ok ks, m)
    /\ Forall2 (fun x k => _char_to_index m !! text cls [x] = Some k) s ks.
Proof.
  induction 1 as [|x s [k Hk] _ (ks & Hks & Hall)].
  - exists []. split; [by destruct cls|constructor].
  - exists (k :: ks). destruct (inv_chars m n Hinv _ _ Hk) as [Hsym Hkr].
    split; [|by constructor].
    replace (_split (text cls (x :: s)))
      with (text cls [x] :: _split (text cls s)) by by destruct cls.
    simpl. unfold mbind at 1 2.
    rewrite (getitem_symbol m n _ Hinv Hsym). unfold mbind at 1.
    rewrite (get_index_hit m n _ k Hinv Hk). simpl.
    unfold mbind at 1. by rewrite Hks.
Qed.

Lemma make_collection_indices cls s c :
  _make_collection (text cls s) m = (Ok c, m) ->
  Forall (fun x => exists k, _char_to_index m !! text cls [x] = Some k) s ->
  exists ks,
    c = {| _IncrementableIndexCollection._inverted_indices := rev ks;
           _IncrementableIndexCollection._base := n |}
    /\ Forall2 (fun x k => _char_to_index m !! text cls [x] = Some k) s ks.
Proof.
  intros Hc Hall.
  destruct (endpoint_indices_of cls s Hall) as (ks & Hks & Hrel).
  exists ks. split; [|done]. revert Hc.
  unfold _make_collection, mbind at 1 2, get, lift.
  rewrite (inv_len m n Hinv). unfold mbind at 1. rewrite Hks.
  unfold _IncrementableIndexCollection.__init__.
  cbn [_IncrementableIndexCollection._inverted_indices].
  destruct (bool_decide _); [done|]. destruct (n <? 1); [done|].
  by intros [= <-].
Qed.

Lemma symbols_of_indices cls s ks :
  Forall2 (fun x k => _char_to_index m !! text cls [x] = Some k) s ks ->
  for_each (fun index => IndexMap.__getitem__ (PyInt index)) ks m
  = (Ok ((fun x => text cls [x]) <$> s), m).
Proof.
  destruct (inv_eager m n Hinv Heager) as (_ & _ & Hiff & _).
  induction 1 as [|x k s ks Hk _ IH]; [done|].
  apply Hiff in Hk.
  cbn [for_each fmap list_fmap]. unfold mbind at 1.
  change (IndexMap.__getitem__ (PyInt k) m) with (_get_char_given_index k m).
  rewrite (get_char_hit m n k _ Hinv Hk).
  unfold mbind at 1. by rewrite IH.
Qed.

Lemma join_texts cls s : join cls ((fun x => text cls [x]) <$> s) = Ok s.
Proof.
  induction s as [|x s IH]; [done|].
  cbn [fmap list_fmap join]. rewrite IH. by destruct cls.
Qed.

Lemma make_element_of_indices r s ks :
  Forall2
    (fun x k => _char_to_index m !! text (__class__ r) [x] = Some k) s ks ->
  _make_element r
    {| _IncrementableIndexCollection._inverted_indices := rev ks;
       _IncrementableIndexCollection._base := n |} m
  = (Ok (text (__class__ r) s), m).
Proof.
  intros Hrel. unfold _make_element, mbind at 1.
  unfold _IncrementableIndexCollection.__iter__.
  cbn [_IncrementableIndexCollection._inverted_indices].
  rewrite rev_involutive, (symbols_of_indices _ s ks Hrel).
  unfold mbind, lift. rewrite join_texts. by destruct (__class__ r).
Qed.

Lemma make_element_of_collection r s c b :
  _is_valid_endpoint (text (__class__ r) s) m = (Ok true, b) ->
  _make_collection (text (__class__ r) s) m = (Ok c, m) ->
  _make_element r c m = (Ok (text (__class__ r) s), m).
Proof.
  intros Hv Hc.
  destruct (is_valid_endpoint_eager m n Hinv Heager _ s _ _ Hv) as [_ Hvalid].
  destruct (Hvalid eq_refl) as [_ Hall].
  destruct (make_collection_indices _ s c Hc Hall) as (ks & -> & Hrel).
  by apply make_element_of_indices.
Qed.

(** The loop starts with the element of [current] and stops after the
    element of [end_]. *)
Lemma gap_one current end_ :
  _IncrementableIndexCollection._base current
  = _IncrementableIndexCollection._base end_ ->
  0 < _IncrementableIndexCollection._base current ->
  digits_in_range current -> digits_in_range end_ ->
  _IncrementableIndexCollection.__le__ current end_ = true ->
  gap current end_ = 1 -> current = end_.
Proof.
  intros Hb Hpos Hc He Hle Hgap.
  pose proof (index_bound current Hc) as Bc.
  pose proof (index_bound end_ He) as Be.
  apply (le_iff current end_ Hb Hc He) in Hle as [Hlt|[Heq Hi]].
  - exfalso. unfold gap in Hgap.
    rewrite geometric_step in Hgap by done.
    assert (0 <= _IncrementableIndexCollection.__len__ current)
      by (unfold _IncrementableIndexCollection.__len__; lia).
    pose proof (geometric_nonneg (_IncrementableIndexCollection._base current)
                  (_IncrementableIndexCollection.__len__ current + 1)
                  (_IncrementableIndexCollection.__len__ end_)
                  Hpos ltac:(lia)).
    lia.
  - unfold gap in Hgap. rewrite geometric_empty in Hgap by lia.
    apply eq_iff. apply (eq_same_length current end_ Hb Hc He); [|lia].
    unfold _IncrementableIndexCollection.__len__ in Heq. lia.
Qed.

Lemma iter_loop_ends r end_ y :
  _element_type m = class_type (__class__ r) ->
  digits_in_range end_ -> _IncrementableIndexCollection._base end_ = n ->
  0 < n ->
  _make_element r end_ m = (Ok y, m) ->
  forall g current,
    digits_in_range current ->
    _IncrementableIndexCollection._base current = n ->
    _IncrementableIndexCollection.__le__ current end_ = true ->
    gap current end_ = Z.of_nat g ->
    exists x rest,
      _make_element r current m = (Ok x, m)
      /\ __iter___loop g r current end_ m = (Ok (Some (x :: rest)), m)
      /\ length (x :: rest) = g
      /\ last (x :: rest) = Some y.
Proof.
  intros Ht He Hbe Hn Hy.
  induction g as [|g IH]; intros current Hc Hbc Hle Hgap.
  - assert (1 <= gap current end_); [|lia].
    apply gap_positive; try done; congruence.
  - destruct (make_element_eager m n Hinv Heager r current Ht Hc Hbc)
      as [x Hx].
    simpl. rewrite Hle. unfold mbind at 1. rewrite Hx. unfold mbind at 1.
    destruct (increment_step current end_) as [[Hle' Hgap']|[Hle' Hgap']];
      try done; try congruence.
    + destruct (IH (_IncrementableIndexCollection.increment current))
        as (x' & rest & _ & Hloop & Hlen & Hlast); try done.
      * apply digits_in_range_increment; [congruence | done].
      * lia.
      * rewrite Hloop. exists x, (x' :: rest).
        split; [done|]. split; [done|]. split; [simpl in *; lia|].
        by rewrite last_cons, Hlast.
    + assert (g = 0%nat) as -> by lia. simpl. rewrite Hle'.
      exists x, []. split; [done|]. split; [done|]. split; [done|].
      assert (current = end_) as ->.
      { apply gap_one; try done; congruence. }
      cbn. congruence.
Qed.

End EagerElements.

Section RangeIteration.

Import IndexMap _Range.

(** X23: over a map without lookup functions, turning a valid endpoint
    into its collection of indices and the collection back into an
    element gives the endpoint again. *)
Theorem element_of_collection_is_the_endpoint cls m s c :
  reachable m -> _maps_populated m = true ->
  fst (_is_valid_endpoint (text cls s) m) = Ok true ->
  fst (_make_collection (text cls s) m) = Ok c ->
  forall start end_,
    _make_element {| __class__ := cls; _start := start; _end := end_ |} c m
    = (Ok (text cls s), m).
Proof.
  intros [n Hinv]%reachable_invariant Heager Hv Hc start end_.
  destruct (make_collection_state m n cls s c Hinv Heager Hv Hc)
    as (Hc' & _).
  destruct (_is_valid_endpoint (text cls s) m) as [rv mv] eqn:Ev.
  cbn [fst] in Hv. subst rv.
  by apply (make_element_of_collection m n Hinv Heager
              {| __class__ := cls; _start := start; _end := end_ |} s c mv).
Qed.

Lemma iterate_from_start_to_end m n cls s e cs ce :
  invariant m n -> _maps_populated m = true ->
  fst (_is_valid_endpoint (text cls s) m) = Ok true ->
  fst (_is_valid_endpoint (text cls e) m) = Ok true ->
  fst (_make_collection (text cls s) m) = Ok cs ->
  fst (_make_collection (text cls e) m) = Ok ce ->
  _IncrementableIndexCollection.__le__ cs ce = true ->
  exists rest,
    _Range.__iter__ (S (length rest))
      {| __class__ := cls; _start := text cls s; _end := text cls e |} m
    = (Ok (Some (text cls s :: rest)), m)
    /\ last (text cls s :: rest) = Some (text cls e)
    /\ _Range.__len__
         {| __class__ := cls; _start := text cls s; _end := text cls e |} m
       = (Ok (Z.of_nat (S (length rest))), m).
Proof.
  intros Hinv Heager Hvs Hve Hs He Hle.
  set (r := {| __class__ := cls; _start := text cls s; _end := text cls e |}).
  destruct (make_collection_state m n cls s cs Hinv Heager Hvs Hs)
    as (Hcs & Hrs & Hbs & Hls & Hn & Ht).
  destruct (make_collection_state m n cls e ce Hinv Heager Hve He)
    as (Hce & Hre & Hbe & Hle' & _ & _).
  destruct (_is_valid_endpoint (text cls s) m) as [rs ms] eqn:Evs.
  destruct (_is_valid_endpoint (text cls e) m) as [re me] eqn:Eve.
  cbn [fst] in Hvs, Hve. subst rs re.
  pose proof (make_element_of_collection m n Hinv Heager r s cs ms Evs Hcs)
    as Hfirst.
  pose proof (make_element_of_collection m n Hinv Heager r e ce me Eve Hce)
    as Hlast.
  cbn [__class__ r] in Hfirst, Hlast.
  assert (1 <= gap cs ce) as Hgap.
  { apply gap_positive; try done; congruence. }
  destruct (iter_loop_ends m n Hinv Heager r ce (text cls e) Ht Hre Hbe Hn
              Hlast (Z.to_nat (gap cs ce)) cs Hrs Hbs Hle)
    as (x & rest & Hx & Hloop & Hlen & Hend); [lia |].
  assert (x = text cls s) as -> by congruence.
  cbn [length] in Hlen. exists rest. rewrite Hlen. split; [|split; [done|]].
  - unfold _Range.__iter__, mbind. cbn [_start _end r].
    by rewrite Hcs, Hce, Hloop.
  - unfold _Range.__len__, mbind, get, lift, ret. cbn [_start _end r].
    rewrite (inv_len m n Hinv), Hcs, Hce, !len_text.
    do 2 f_equal. rewrite Z2Nat.id by lia. unfold gap, geometric.
    by rewrite Hbs, Hls, Hle'.
Qed.

(** X24: over a map without lookup functions, where the collection of
    [start] is not after that of [end], the iteration terminates, its
    first element is [start], its last is [end], and [__len__] is the
    number of elements. *)
Theorem range_iterates_from_start_to_end cls m s e cs ce :
  reachable m -> _maps_populated m = true ->
  fst (_is_valid_endpoint (text cls s) m) = Ok true ->
  fst (_is_valid_endpoint (text cls e) m) = Ok true ->
  fst (_make_collection (text cls s) m) = Ok cs ->
  fst (_make_collection (text cls e) m) = Ok ce ->
  _IncrementableIndexCollection.__le__ cs ce = true ->
  exists rest,
    _Range.__iter__ (S (length rest))
      {| __class__ := cls; _start := text cls s; _end := text cls e |} m
    = (Ok (Some (text cls s :: rest)), m)
    /\ last (text cls s :: rest) = Some (text cls e)
    /\ _Range.__len__
         {| __class__ := cls; _start := text cls s; _end := text cls e |} m
       = (Ok (Z.of_nat (S (length rest))), m).
Proof.
  intros [n Hinv]%reachable_invariant. by apply (iterate_from_start_to_end m n).
Qed.

End RangeIteration.

Section AscendingMaps.

Import IndexMap _Range.

Lemma symbols_sorted i p q x y :
  valid i -> (p < q)%nat ->
  symbols i !! p = Some x -> symbols i !! q = Some y -> lt x y = Ok true.
Proof.
  intros Hv Hpq Hp Hq.
  destruct (symbols_valid i Hv) as (lo & hi & Hle & Ei & Es).
  rewrite Es, list_lookup_fmap in Hp, Hq.
  destruct (seqZ lo (hi + 1 - lo) !! p) as [cp|] eqn:Ep; [|done].
  destruct (seqZ lo (hi + 1 - lo) !! q) as [cq|] eqn:Eq; [|done].
  injection Hp as <-. injection Hq as <-.
  apply lookup_seqZ in Ep, Eq. rewrite lt_symbol. f_equal.
  apply Z.ltb_lt. lia.
Qed.

Lemma lookup_app_cases {A} (l1 l2 : list A) (p : nat) x :
  (l1 ++ l2) !! p = Some x ->
  ((p < length l1)%nat /\ l1 !! p = Some x)
  \/ ((length l1 <= p)%nat /\ l2 !! (p - length l1)%nat = Some x).
Proof.
  intros H. destruct (decide (p < length l1)%nat).
  - left. split; [done|]. by rewrite lookup_app_l in H.
  - right. split; [lia|]. by rewrite lookup_app_r in H by lia.
Qed.

Lemma ascending_tail i rest : ascending (i :: rest) -> ascending rest.
Proof.
  intros H a b x y Hab Ha Hb. apply (H (S a) (S b)); [lia|done|done].
Qed.

Lemma all_symbols_sorted : forall intervals p q x y,
  Forall valid intervals -> ascending intervals -> (p < q)%nat ->
  all_symbols intervals !! p = Some x ->
  all_symbols intervals !! q = Some y ->
  lt x y = Ok true.
Proof.
  induction intervals as [|i rest IH]; intros p q x y Hv Ha Hpq; [done|].
  apply Forall_cons in Hv as [Hi Hrest].
  change (all_symbols (i :: rest)) with (symbols i ++ all_symbols rest).
  intros [[Hp Hx]|[Hp Hx]]%lookup_app_cases [[Hq Hy]|[Hq Hy]]%lookup_app_cases.
  - by apply (symbols_sorted i p q).
  - apply list_elem_of_lookup_2, elem_of_all_symbols in Hy
      as (b & j & Hb & Hy).
    assert (Hj : valid j).
    { rewrite Forall_forall in Hrest. apply Hrest.
      by eapply list_elem_of_lookup_2. }
    specialize (Ha 0%nat (S b) i j ltac:(lia) eq_refl Hb).
    destruct (symbols_valid i Hi) as (lo & hi & Hle & Ei & Es).
    destruct (symbols_valid j Hj) as (lo' & hi' & Hle' & Ej & Es').
    rewrite Es, list_lookup_fmap in Hx.
    destruct (seqZ lo (hi + 1 - lo) !! p) as [cx|] eqn:Ex; [|done].
    injection Hx as <-. apply lookup_seqZ in Ex.
    rewrite Es' in Hy. apply list_elem_of_fmap in Hy as (cy & -> & Hcy).
    apply elem_of_seqZ in Hcy.
    rewrite Ei, Ej in Ha. cbn [Interval.start Interval.end_] in Ha.
    assert (Hcls : Interval.__class__ j = Interval.__class__ i).
    { by destruct (Interval.__class__ i), (Interval.__class__ j). }
    rewrite Hcls in Ha |- *. rewrite lt_symbol in Ha |- *.
    injection Ha as Ha. f_equal. apply Z.ltb_lt in Ha. apply Z.ltb_lt. lia.
  - lia.
  - apply (IH (p - length (symbols i))%nat (q - length (symbols i))%nat);
      [done|by eapply ascending_tail|lia|done|done].
Qed.

Variables (m : IndexMap) (n : Z).
Hypothesis Hinv : invariant m n.
Hypothesis Heager : _maps_populated m = true.
Hypothesis Hvalid : Forall valid (_intervals m).
Hypothesis Hbuilt : IndexMap.__init__ (_intervals m) None None = Ok m.
Hypothesis Hasc : ascending (_intervals m).

Lemma text_inj cls x y : text cls [x] = text cls [y] -> x = y.
Proof. destruct cls; by intros [= ->]. Qed.

Lemma lt_text_singleton cls x y :
  lt (text cls [x]) (text cls [y]) = Ok (x <? y).
Proof. destruct cls; cbn [text lt]; by rewrite seq_lt_singleton. Qed.

Lemma index_monotone cls x y kx ky :
  _char_to_index m !! text cls [x] = Some kx ->
  _char_to_index m !! text cls [y] = Some ky ->
  (x =? y) = (kx =? ky) /\ (x <? y) = (kx <? ky).
Proof.
  intros Hx Hy.
  destruct (init_eager_tables _ m Hvalid Hbuilt) as (_ & _ & _ & _ & Hc & _).
  apply Hc in Hx as (px & Hpx & ->). apply Hc in Hy as (py & Hpy & ->).
  destruct (Nat.lt_trichotomy px py) as [H|[H|H]].
  - pose proof (all_symbols_sorted _ px py _ _ Hvalid Hasc H Hpx Hpy) as Hlt.
    rewrite lt_text_singleton in Hlt. injection Hlt as Hlt.
    apply Z.ltb_lt in Hlt.
    split.
    + destruct (Z.eqb_spec x y), (Z.eqb_spec (Z.of_nat px) (Z.of_nat py));
        lia.
    + destruct (Z.ltb_spec x y), (Z.ltb_spec (Z.of_nat px) (Z.of_nat py));
        lia.
  - subst py. assert (x = y) as ->.
    { apply (text_inj cls). congruence. }
    by rewrite !Z.eqb_refl, !Z.ltb_irrefl.
  - pose proof (all_symbols_sorted _ py px _ _ Hvalid Hasc H Hpy Hpx) as Hlt.
    rewrite lt_text_singleton in Hlt. injection Hlt as Hlt.
    apply Z.ltb_lt in Hlt.
    split.
    + destruct (Z.eqb_spec x y), (Z.eqb_spec (Z.of_nat px) (Z.of_nat py));
        lia.
    + destruct (Z.ltb_spec x y), (Z.ltb_spec (Z.of_nat px) (Z.of_nat py));
        lia.
Qed.

Lemma seq_lt_indices cls : forall s ks e ke,
  Forall2 (fun x k => _char_to_index m !! text cls [x] = Some k) s ks ->
  Forall2 (fun x k => _char_to_index m !! text cls [x] = Some k) e ke ->
  seq_lt s e = seq_lt ks ke.
Proof.
  intros s ks e ke Hs. revert e ke.
  induction Hs as [|x k s ks Hx Hs IH]; intros e ke He.
  - by destruct He.
  - destruct He as [|y k' e ke Hy He]; [done|].
    cbn [seq_lt]. destruct (index_monotone cls x y k k' Hx Hy) as [-> ->].
    by rewrite (IH e ke He).
Qed.

Lemma accepted_range_is_in_index_order cls s e cs ce :
  s <> [] -> e <> [] ->
  Forall (fun x => exists k, _char_to_index m !! text cls [x] = Some k) s ->
  Forall (fun x => exists k, _char_to_index m !! text cls [x] = Some k) e ->
  _make_collection (text cls s) m = (Ok cs, m) ->
  _make_collection (text cls e) m = (Ok ce, m) ->
  (Z.of_nat (length e) <? Z.of_nat (length s))
  || ((Z.of_nat (length s) =? Z.of_nat (length e)) && seq_lt e s) = false ->
  _IncrementableIndexCollection.__le__ cs ce = true.
Proof.
  intros Hns Hne Hs He Hcs Hce Hdir.
  destruct (make_collection_indices m n Hinv cls s cs Hcs Hs)
    as (ks & -> & Hks).
  destruct (make_collection_indices m n Hinv cls e ce Hce He)
    as (ke & -> & Hke).
  apply orb_false_iff in Hdir as [Hlen Hseq].
  apply Z.ltb_ge in Hlen.
  pose proof (Forall2_length _ _ _ Hks) as Lks.
  pose proof (Forall2_length _ _ _ Hke) as Lke.
  unfold _IncrementableIndexCollection.__le__,
    _IncrementableIndexCollection.__lt__,
    _IncrementableIndexCollection.__eq__,
    _IncrementableIndexCollection.__len__,
    _IncrementableIndexCollection._indices,
    _IncrementableIndexCollection.__iter__.
  cbn [_IncrementableIndexCollection._inverted_indices
       _IncrementableIndexCollection._base].
  rewrite !rev_involutive, !length_rev, Z.eqb_refl.
  destruct (Z.ltb_spec (Z.of_nat (length ks)) (Z.of_nat (length ke)));
    [done|].
  assert (Hl : length s = length e) by lia.
  rewrite (proj2 (Z.eqb_eq _ _)) in Hseq by lia. cbn [andb] in Hseq.
  rewrite (proj2 (Z.eqb_eq _ _)) by lia. cbn [andb].
  rewrite (seq_lt_indices cls e ke s ks Hke Hks) in Hseq.
  destruct (seq_lt_trichotomy ks ke ltac:(lia))
    as [(-> & _)|[(_ & -> & _)|(_ & _ & H')]].
  - done.
  - rewrite bool_decide_eq_true_2 by done. by rewrite orb_true_r.
  - congruence.
Qed.

End AscendingMaps.

Section AscendingRanges.

Import IndexMap _Range.

(** X25: over a map without lookup functions whose intervals are given
    in ascending order, every range that the constructor accepts
    iterates from [start] to [end] in as many elements as [__len__]
    says. *)
Theorem ranges_over_ascending_maps_count_what_they_yield cls m s e r :
  reachable m -> _maps_populated m = true -> ascending (_intervals m) ->
  fst (character_range (text cls s) (text cls e) m) = Ok r ->
  r = {| __class__ := cls; _start := text cls s; _end := text cls e |}
  /\ exists rest,
       _Range.__iter__ (S (length rest)) r m
       = (Ok (Some (text cls s :: rest)), m)
       /\ last (text cls s :: rest) = Some (text cls e)
       /\ _Range.__len__ r m = (Ok (Z.of_nat (S (length rest))), m).
Proof.
  intros Hr Hp Hasc Hrange.
  destruct (reachable_invariant m Hr) as [n Hinv].
  destruct (reachable_built m Hr) as (Hv & _ & _ & _ & Hcase).
  assert (Hbuilt : IndexMap.__init__ (_intervals m) None None = Ok m).
  { destruct Hcase as [(_ & _ & _ & ?)|(f & g & _ & _ & ?)]; [done|].
    congruence. }
  destruct (character_range_eager m n Hinv Hp cls s e)
    as (bs & be & Hs & He & Hcr).
  rewrite Hcr in Hrange. cbn [fst] in Hrange.
  destruct bs; [|done]. destruct be; [|done]. cbn [negb orb] in Hrange.
  destruct ((Z.of_nat (length e) <? Z.of_nat (length s))
            || ((Z.of_nat (length s) =? Z.of_nat (length e)) && seq_lt e s))
    eqn:Hdir; [done|].
  injection Hrange as <-. split; [done|].
  destruct (is_valid_endpoint_eager m n Hinv Hp cls s _ _ Hs) as [_ Hvs].
  destruct (is_valid_endpoint_eager m n Hinv Hp cls e _ _ He) as [_ Hve].
  destruct (Hvs eq_refl) as [Hns Hsall].
  destruct (Hve eq_refl) as [Hne Heall].
  destruct (make_collection_eager m n Hinv cls s Hns Hsall) as (cs & Hcs & _).
  destruct (make_collection_eager m n Hinv cls e Hne Heall) as (ce & Hce & _).
  apply (iterate_from_start_to_end m n cls s e cs ce Hinv Hp).
  - by rewrite Hs.
  - by rewrite He.
  - by rewrite Hcs.
  - by rewrite Hce.
  - by apply (accepted_range_is_in_index_order m n Hinv Hv Hbuilt Hasc cls s e).
Qed.

End AscendingRanges.

Section RangeWitnesses.

Import IndexMap _Range.

Lemma digits_built :
  match CharacterMap.member CharacterMap.ASCII_DIGITS with
  | Ok _ => true
  | Raise _ => false
  end = true.
Proof. by vm_compute. Qed.

Lemma digits_reachable m :
  CharacterMap.member CharacterMap.ASCII_DIGITS = Ok m -> reachable m.
Proof.
  intros E.
  apply (reachable_init
           [{| Interval.__class__ := Interval.CharacterInterval;
               Interval.start := str "0"; Interval.end_ := str "9" |}]
           None None m); [repeat constructor | exact E].
Qed.

Lemma ascending_singleton i : ascending [i].
Proof. intros [|a] [|[|b]] x y Hab Ha Hb; done || lia. Qed.

Lemma element_of_collection_is_the_endpoint_witness :
  match CharacterMap.member CharacterMap.ASCII_DIGITS with
  | Ok m =>
      _make_element
        {| __class__ := StringRange; _start := str "0"; _end := str "9" |}
        {| _IncrementableIndexCollection._inverted_indices := [5; 0];
           _IncrementableIndexCollection._base := 10 |} m
      = (Ok (str "05"), m)
  | Raise _ => False
  end.
Proof.
  pose proof digits_built as Hbuilt.
  destruct (CharacterMap.member CharacterMap.ASCII_DIGITS) as [m|] eqn:E;
    [clear Hbuilt | done].
  apply (element_of_collection_is_the_endpoint StringRange m
           (code_points "05")).
  - by apply digits_reachable.
  - by apply (built_property _ m _maps_populated true E).
  - by apply (built_property _ m
                (fun m => fst (_is_valid_endpoint (str "05") m)) _ E).
  - by apply (built_property _ m
                (fun m => fst (_make_collection (str "05") m)) _ E).
Defined.

Lemma range_iterates_from_start_to_end_witness :
  match CharacterMap.member CharacterMap.ASCII_DIGITS with
  | Ok m =>
      exists rest,
        _Range.__iter__ (S (length rest))
          {| __class__ := StringRange;
             _start := str "8"; _end := str "05" |} m
        = (Ok (Some (str "8" :: rest)), m)
        /\ last (str "8" :: rest) = Some (str "05")
        /\ _Range.__len__
             {| __class__ := StringRange;
                _start := str "8"; _end := str "05" |} m
           = (Ok (Z.of_nat (S (length rest))), m)
  | Raise _ => False
  end.
Proof.
  pose proof digits_built as Hbuilt.
  destruct (CharacterMap.member CharacterMap.ASCII_DIGITS) as [m|] eqn:E;
    [clear Hbuilt | done].
  apply (range_iterates_from_start_to_end
           StringRange m (code_points "8") (code_points "05")
           {| _IncrementableIndexCollection._inverted_indices := [8];
              _IncrementableIndexCollection._base := 10 |}
           {| _IncrementableIndexCollection._inverted_indices := [5; 0];
              _IncrementableIndexCollection._base := 10 |}).
  - by apply digits_reachable.
  - by apply (built_property _ m _maps_populated true E).
  - by apply (built_property _ m
                (fun m => fst (_is_valid_endpoint (str "8") m)) _ E).
  - by apply (built_property _ m
                (fun m => fst (_is_valid_endpoint (str "05") m)) _ E).
  - by apply (built_property _ m
                (fun m => fst (_make_collection (str "8") m)) _ E).
  - by apply (built_property _ m
                (fun m => fst (_make_collection (str "05") m)) _ E).
  - reflexivity.
Defined.

Lemma invalid_endpoints_are_rejected_first_witness :
  match CharacterMap.member CharacterMap.ASCII_DIGITS with
  | Ok m =>
      fst (character_range (str "") (str "9") m) = Raise InvalidEndpoints
  | Raise _ => False
  end.
Proof.
  pose proof digits_built as Hbuilt.
  destruct (CharacterMap.member CharacterMap.ASCII_DIGITS) as [m|] eqn:E;
    [clear Hbuilt | done].
  refine (proj2 (proj1 (invalid_endpoints_are_rejected_first
                          StringRange m [] (code_points "9") _ _)) _).
  - by apply digits_reachable.
  - by apply (built_property _ m _maps_populated true E).
  - by left.
Defined.

Lemma ranges_over_ascending_maps_count_what_they_yield_witness :
  match CharacterMap.member CharacterMap.ASCII_DIGITS with
  | Ok m =>
      {| __class__ := StringRange; _start := str "8"; _end := str "05" |}
      = {| __class__ := StringRange; _start := str "8"; _end := str "05" |}
      /\ exists rest,
           _Range.__iter__ (S (length rest))
             {| __class__ := StringRange;
                _start := str "8"; _end := str "05" |} m
           = (Ok (Some (str "8" :: rest)), m)
           /\ last (str "8" :: rest) = Some (str "05")
           /\ _Range.__len__
                {| __class__ := StringRange;
                   _start := str "8"; _end := str "05" |} m
              = (Ok (Z.of_nat (S (length rest))), m)
  | Raise _ => False
  end.
Proof.
  pose proof digits_built as Hbuilt.
  destruct (CharacterMap.member CharacterMap.ASCII_DIGITS) as [m|] eqn:E;
    [clear Hbuilt | done].
  apply (ranges_over_ascending_maps_count_what_they_yield
           StringRange m (code_points "8") (code_points "05")).
  - by apply digits_reachable.
  - by apply (built_property _ m _maps_populated true E).
  - rewrite (built_property _ m _intervals
               [{| Interval.__class__ := Interval.CharacterInterval;
                   Interval.start := str "0"; Interval.end_ := str "9" |}]
               E eq_refl).
    apply ascending_singleton.
  - by apply (built_property _ m
                (fun m => fst (character_range (str "8") (str "05") m)) _ E).
Defined.

End RangeWitnesses.

(** ** Ranges: what an iteration yields *)

Section CounterIteration.

Import _IncrementableIndexCollection.

Lemma lt_increment k :
  0 < _base k -> digits_in_range k -> __lt__ k (increment k) = true.
Proof.
  intros Hpos Hk.
  pose proof (digits_in_range_increment k Hpos Hk) as Hi.
  apply (lt_iff k (increment k) eq_refl Hk Hi).
  destruct (len_increment_cases k Hk) as [(_ & Hl & _)|[Hl Hv]]; lia.
Qed.

Lemma increment_least_above k c :
  0 < _base k -> digits_in_range k ->
  _base c = _base k -> digits_in_range c ->
  __lt__ k c = true -> __le__ (increment k) c = true.
Proof.
  intros Hpos Hk Hb Hc.
  pose proof (digits_in_range_increment k Hpos Hk) as Hi.
  assert (Hbi : _base (increment k) = _base c) by by rewrite Hb.
  pose proof (index_bound c Hc) as Bc. pose proof (index_bound k Hk) as Bk.
  rewrite Hb in Bc.
  rewrite (lt_iff k c (eq_sym Hb) Hk Hc).
  rewrite (le_iff (increment k) c Hbi Hi Hc).
  destruct (len_increment_cases k Hk) as [(_ & Hl & Hv & Hv')|[Hl Hv]].
  - intros [H|[H1 H2]]; [|rewrite H1 in Hv'; lia].
    destruct (Z.eq_dec (__len__ k + 1) (__len__ c)); [right; lia|left; lia].
  - intros [H|[H1 H2]]; [left; lia|right; lia].
Qed.

Lemma le_cases a b : __le__ a b = true <-> __lt__ a b = true \/ a = b.
Proof.
  unfold __le__. rewrite orb_true_iff, eq_iff. done.
Qed.

Lemma lt_transitive a b c :
  __lt__ a b = true -> __lt__ b c = true -> __lt__ a c = true.
Proof.
  intros [H1|[H1 H1']]%lt_cases [H2|[H2 H2']]%lt_cases; apply lt_cases.
  - left. lia.
  - left. lia.
  - left. lia.
  - right. split; [lia|]. by apply (seq_lt_trans _ (_indices b)).
Qed.

Lemma lt_irreflexive a : __lt__ a a = false.
Proof.
  apply not_true_is_false. intros [?|[_ H]]%lt_cases; [lia|].
  by rewrite seq_lt_irrefl in H.
Qed.

Lemma le_antisymmetric a b :
  __le__ a b = true -> __le__ b a = true -> a = b.
Proof.
  intros [H1|H1]%le_cases [H2|H2]%le_cases; try done.
  pose proof (lt_transitive a b a H1 H2) as H.
  by rewrite lt_irreflexive in H.
Qed.

Lemma increment_nonempty k :
  _inverted_indices k <> [] -> _inverted_indices (increment k) <> [].
Proof.
  rewrite increment_carry. destruct (_inverted_indices k) as [|d l]; [done|].
  intros _. cbn [carry]. by destruct (_ <? _).
Qed.

(** What holds of every collection the loop goes through. *)
Lemma iterate_elements end_ n : forall g current,
  0 < n -> digits_in_range end_ -> _base end_ = n ->
  digits_in_range current -> _base current = n ->
  _inverted_indices current <> [] ->
  __le__ current end_ = true -> gap current end_ = Z.of_nat g ->
  Forall (fun c => digits_in_range c /\ _base c = n
                   /\ _inverted_indices c <> []
                   /\ __le__ current c = true /\ __le__ c end_ = true)
         (iterate g current)
  /\ (forall c, digits_in_range c -> _base c = n ->
        __le__ current c = true -> __le__ c end_ = true ->
        c ∈ iterate g current)
  /\ (forall (i j : nat) ci cj,
        (i < j)%nat -> iterate g current !! i = Some ci ->
        iterate g current !! j = Some cj -> __lt__ ci cj = true).
Proof.
  induction g as [|g IH]; intros current Hn He Hbe Hc Hbc Hne Hle Hgap.
  - assert (1 <= gap current end_); [|lia].
    apply gap_positive; try done; congruence.
  - cbn [iterate].
    assert (Hselfle : __le__ current current = true) by by apply le_cases; right.
    assert (Hlt : __lt__ current (increment current) = true).
    { apply lt_increment; [congruence|done]. }
    destruct (increment_step current end_) as [[Hle' Hgap']|[Hle' Hgap']];
      try done; try congruence.
    + destruct (IH (increment current)) as (Hall & Hcomplete & Hsorted);
        try done.
      * apply digits_in_range_increment; [congruence|done].
      * by apply increment_nonempty.
      * lia.
      * split; [|split].
        -- constructor; [done|].
           apply (Forall_impl _ _ _ Hall).
           intros c (? & ? & ? & Hic & ?). repeat (split; [done|]).
           split; [|done]. apply le_cases. left.
           apply le_cases in Hic as [Hic| <-]; [|done].
           by apply (lt_transitive _ (increment current)).
        -- intros c Hdc Hbc' Hcc Hce.
           apply le_cases in Hcc as [Hcc| <-]; [|left].
           right. apply Hcomplete; try done.
           apply increment_least_above; try done; congruence.
        -- intros [|i] [|j] ci cj Hij Hi Hj; try lia.
           ++ injection Hi as <-. cbn in Hj.
              apply list_elem_of_lookup_2 in Hj.
              rewrite Forall_forall in Hall.
              destruct (Hall cj Hj) as (_ & _ & _ & Hic & _).
              apply le_cases in Hic as [Hic| <-]; [|done].
              by apply (lt_transitive _ (increment current)).
           ++ cbn in Hi, Hj. apply (Hsorted i j); [lia|done|done].
    + assert (g = 0%nat) as -> by lia. cbn [iterate].
      assert (current = end_) as <-.
      { apply gap_one; try done; congruence. }
      split; [|split].
      * by repeat constructor.
      * intros c Hdc Hbc' Hcc Hce. apply list_elem_of_singleton.
        by apply le_antisymmetric.
      * intros [|i] [|j] ci cj Hij Hi Hj; try lia; done.
Qed.

End CounterIteration.

Section EagerIteration.

Import IndexMap _Range.

Variables (m : IndexMap) (n : Z).
Hypothesis Hinv : invariant m n.
Hypothesis Heager : _maps_populated m = true.

Lemma is_symbol_text cls ch :
  _element_type m = class_type cls -> is_symbol m ch ->
  exists x, ch = text cls [x].
Proof.
  unfold is_symbol. intros -> Hs. destruct cls.
  - by apply (is_char_of_type_inv Interval.CharacterInterval).
  - by apply (is_char_of_type_inv Interval.ByteInterval).
Qed.

Lemma digits_symbols cls ds :
  _element_type m = class_type cls ->
  Forall (fun k => 0 <= k < n) ds ->
  exists w,
    Forall2 (fun x k => _char_to_index m !! text cls [x] = Some k) w ds.
Proof.
  intros Ht. destruct (inv_eager m n Hinv Heager) as (_ & _ & Hiff & Htotal).
  induction 1 as [|k ds Hk _ [w Hw]]; [by exists []|].
  destruct (Htotal k Hk) as [ch Hch].
  destruct (inv_indices m n Hinv k ch Hch) as [Hs _].
  destruct (is_symbol_text cls ch Ht Hs) as [x ->].
  exists (x :: w). constructor; [by apply Hiff|done].
Qed.

Lemma indices_functional cls w : forall ks ks',
  Forall2 (fun x k => _char_to_index m !! text cls [x] = Some k) w ks ->
  Forall2 (fun x k => _char_to_index m !! text cls [x] = Some k) w ks' ->
  ks = ks'.
Proof.
  induction w as [|x w IH]; intros ks ks' H H'.
  - apply Forall2_nil_inv_l in H, H'. by subst.
  - apply Forall2_cons_inv_l in H as (k & l & Hk & Hl & ->).
    apply Forall2_cons_inv_l in H' as (k' & l' & Hk' & Hl' & ->).
    f_equal; [congruence|by apply IH].
Qed.

Lemma symbols_injective cls ks : forall w w',
  Forall2 (fun x k => _char_to_index m !! text cls [x] = Some k) w ks ->
  Forall2 (fun x k => _char_to_index m !! text cls [x] = Some k) w' ks ->
  w = w'.
Proof.
  destruct (inv_eager m n Hinv Heager) as (_ & _ & Hiff & _).
  induction ks as [|k ks IH]; intros w w' H H'.
  - apply Forall2_nil_inv_r in H, H'. by subst.
  - apply Forall2_cons_inv_r in H as (x & l & Hx & Hl & ->).
    apply Forall2_cons_inv_r in H' as (x' & l' & Hx' & Hl' & ->).
    f_equal; [|by apply IH].
    apply Hiff in Hx, Hx'. apply (text_inj cls). congruence.
Qed.

Lemma element_to_collection cls w ks :
  w <> [] ->
  Forall2 (fun x k => _char_to_index m !! text cls [x] = Some k) w ks ->
  _make_collection (text cls w) m
  = (Ok {| _IncrementableIndexCollection._inverted_indices := rev ks;
           _IncrementableIndexCollection._base := n |}, m)
  /\ _is_valid_endpoint (text cls w) m = (Ok true, m).
Proof.
  intros Hne Hrel.
  assert (Hall : Forall (fun x => exists k,
                           _char_to_index m !! text cls [x] = Some k) w).
  { apply Forall_forall. intros x Hx.
    apply list_elem_of_lookup in Hx as [i Hi].
    destruct (Forall2_lookup_l _ _ _ _ _ Hrel Hi) as (k & _ & Hk).
    by exists k. }
  split.
  - destruct (make_collection_eager m n Hinv cls w Hne Hall) as (c & Hc & _).
    destruct (make_collection_indices m n Hinv cls w c Hc Hall)
      as (ks' & -> & Hrel').
    by rewrite (indices_functional cls w ks ks' Hrel Hrel').
  - destruct (is_valid_endpoint_bool m n Hinv Heager cls w) as (b & -> & Hb).
    do 2 f_equal. apply Hb. split; [done|].
    apply (Forall_impl _ _ _ Hall). by intros x [k ->].
Qed.

Lemma collection_to_element r c :
  _element_type m = class_type (__class__ r) ->
  digits_in_range c -> _IncrementableIndexCollection._base c = n ->
  _IncrementableIndexCollection._inverted_indices c <> [] ->
  exists w,
    _make_element r c m = (Ok (text (__class__ r) w), m)
    /\ _make_collection (text (__class__ r) w) m = (Ok c, m)
    /\ _is_valid_endpoint (text (__class__ r) w) m = (Ok true, m).
Proof.
  intros Ht Hc Hb Hne. destruct c as [inv base].
  cbn [_IncrementableIndexCollection._base
       _IncrementableIndexCollection._inverted_indices] in *.
  subst base. unfold digits_in_range in Hc.
  cbn [_IncrementableIndexCollection._base
       _IncrementableIndexCollection._inverted_indices] in Hc.
  destruct (digits_symbols (__class__ r) (rev inv) Ht) as [w Hw].
  { by apply in_range_rev. }
  exists w. rewrite <- (rev_involutive inv).
  split; [by apply make_element_of_indices|].
  apply element_to_collection; [|done].
  intros ->. apply Forall2_nil_inv_l in Hw.
  apply (f_equal (@rev Z)) in Hw. rewrite rev_involutive in Hw. done.
Qed.

Lemma iter_loop_elements r end_ :
  _element_type m = class_type (__class__ r) ->
  digits_in_range end_ -> _IncrementableIndexCollection._base end_ = n ->
  0 < n ->
  forall g current,
    digits_in_range current ->
    _IncrementableIndexCollection._base current = n ->
    _IncrementableIndexCollection.__le__ current end_ = true ->
    gap current end_ = Z.of_nat g ->
    exists elements,
      __iter___loop g r current end_ m = (Ok (Some elements), m)
      /\ Forall2 (fun c x => _make_element r c m = (Ok x, m))
           (iterate g current) elements.
Proof.
  intros Ht He Hbe Hn.
  induction g as [|g IH]; intros current Hc Hbc Hle Hgap.
  - assert (1 <= gap current end_); [|lia].
    apply gap_positive; try done; congruence.
  - destruct (make_element_eager m n Hinv Heager r current Ht Hc Hbc)
      as [x Hx].
    cbn [__iter___loop iterate]. rewrite Hle. unfold mbind at 1.
    rewrite Hx. unfold mbind at 1.
    destruct (increment_step current end_) as [[Hle' Hgap']|[Hle' Hgap']];
      try done; try congruence.
    + destruct (IH (_IncrementableIndexCollection.increment current))
        as (elements & Hloop & Hrel); try done.
      * apply digits_in_range_increment; [congruence | done].
      * lia.
      * rewrite Hloop. exists (x :: elements). split; [done|].
        by constructor.
    + assert (g = 0%nat) as -> by lia. cbn [__iter___loop iterate].
      rewrite Hle'. exists [x]. split; [done|]. by repeat constructor.
Qed.

End EagerIteration.

Section RangeContents.

Import IndexMap _Range.

Lemma length_iterate g : forall c, length (iterate g c) = g.
Proof. induction g as [|g IH]; intros c; cbn; [done|by rewrite IH]. Qed.

(** X26: over a map without lookup functions, where the collection of
    [start] is not after that of [end], the iteration yields strings (or
    bytes objects) over the symbols of the map only, and a string is
    yielded exactly when its collection lies between those of [start]
    and [end]; the elements come in the strict order of their
    collections, so that none comes twice. *)
Theorem range_yields_every_string_between_once cls m s e cs ce :
  reachable m -> _maps_populated m = true ->
  fst (_is_valid_endpoint (text cls s) m) = Ok true ->
  fst (_is_valid_endpoint (text cls e) m) = Ok true ->
  fst (_make_collection (text cls s) m) = Ok cs ->
  fst (_make_collection (text cls e) m) = Ok ce ->
  _IncrementableIndexCollection.__le__ cs ce = true ->
  exists elements,
    _Range.__iter__ (length elements)
      {| __class__ := cls; _start := text cls s; _end := text cls e |} m
    = (Ok (Some elements), m)
    /\ (forall x, x ∈ elements -> exists w, x = text cls w)
    /\ (forall w,
          text cls w ∈ elements
          <-> exists c,
                _is_valid_endpoint (text cls w) m = (Ok true, m)
                /\ _make_collection (text cls w) m = (Ok c, m)
                /\ _IncrementableIndexCollection.__le__ cs c = true
                /\ _IncrementableIndexCollection.__le__ c ce = true)
    /\ (forall (i j : nat) x y cx cy,
          (i < j)%nat -> elements !! i = Some x -> elements !! j = Some y ->
          fst (_make_collection x m) = Ok cx ->
          fst (_make_collection y m) = Ok cy ->
          _IncrementableIndexCollection.__lt__ cx cy = true)
    /\ NoDup elements.
Proof.
  intros [n Hinv]%reachable_invariant Heager Hvs Hve Hs He Hle.
  set (r := {| __class__ := cls; _start := text cls s; _end := text cls e |}).
  destruct (make_collection_state m n cls s cs Hinv Heager Hvs Hs)
    as (Hcs & Hrs & Hbs & Hls & Hn & Ht).
  destruct (make_collection_state m n cls e ce Hinv Heager Hve He)
    as (Hce & Hre & Hbe & Hle' & _ & _).
  assert (Hnes : _IncrementableIndexCollection._inverted_indices cs <> []).
  { destruct (_is_valid_endpoint (text cls s) m) as [rs ms] eqn:Evs.
    cbn [fst] in Hvs. subst rs.
    destruct (is_valid_endpoint_eager m n Hinv Heager cls s _ _ Evs)
      as [_ Hvalid].
    destruct (Hvalid eq_refl) as [Hne _].
    unfold _IncrementableIndexCollection.__len__ in Hls.
    intros Hnil. rewrite Hnil in Hls. by destruct s. }
  assert (1 <= gap cs ce) as Hgap.
  { apply gap_positive; try done; congruence. }
  destruct (iter_loop_elements m n Hinv Heager r ce Ht Hre Hbe Hn
              (Z.to_nat (gap cs ce)) cs Hrs Hbs Hle)
    as (elements & Hloop & Hrel); [lia|].
  destruct (iterate_elements ce n (Z.to_nat (gap cs ce)) cs Hn Hre Hbe
              Hrs Hbs Hnes Hle)
    as (Hall & Hcomplete & Hsorted); [lia|].
  rewrite Forall_forall in Hall.
  assert (Hlen : length elements = Z.to_nat (gap cs ce)).
  { by rewrite <- (Forall2_length _ _ _ Hrel), length_iterate. }
  assert (Hcoll : forall (i : nat) x,
    elements !! i = Some x ->
    exists c w,
      iterate (Z.to_nat (gap cs ce)) cs !! i = Some c
      /\ x = text cls w
      /\ _is_valid_endpoint x m = (Ok true, m)
      /\ _make_collection x m = (Ok c, m)
      /\ _IncrementableIndexCollection.__le__ cs c = true
      /\ _IncrementableIndexCollection.__le__ c ce = true).
  { intros i x Hx.
    destruct (Forall2_lookup_r _ _ _ _ _ Hrel Hx) as (c & Hc & Hcx).
    destruct (Hall c) as (Hdc & Hbc & Hnc & Hlo & Hhi);
      [by eapply list_elem_of_lookup_2|].
    destruct (collection_to_element m n Hinv Heager r c Ht Hdc Hbc Hnc)
      as (w & Hw & Hwc & Hwv).
    cbn [__class__ r] in Hw, Hwc, Hwv.
    assert (x = text cls w) as -> by congruence.
    by exists c, w. }
  exists elements. rewrite Hlen. split; [|split; [|split; [|split]]].
  - unfold _Range.__iter__, mbind. cbn [_start _end r].
    by rewrite Hcs, Hce, Hloop.
  - intros x [i Hi]%list_elem_of_lookup.
    destruct (Hcoll i x Hi) as (_ & w & _ & -> & _). by exists w.
  - intros w. split.
    + intros [i Hi]%list_elem_of_lookup.
      destruct (Hcoll i _ Hi) as (c & _ & _ & _ & ? & ? & ? & ?).
      by exists c.
    + intros (c & Hv & Hc & Hlo & Hhi).
      destruct (make_collection_state m n cls w c Hinv Heager)
        as (_ & Hdc & Hbc & _); [by rewrite Hv|by rewrite Hc|].
      pose proof (Hcomplete c Hdc Hbc Hlo Hhi) as [i Hi]%list_elem_of_lookup.
      destruct (Forall2_lookup_l _ _ _ _ _ Hrel Hi) as (x & Hx & Hcx).
      pose proof (make_element_of_collection m n Hinv Heager r w c m Hv Hc)
        as Hel.
      cbn [__class__ r] in Hel.
      assert (x = text cls w) as -> by congruence.
      by eapply list_elem_of_lookup_2.
  - intros i j x y cx cy Hij Hx Hy Hcx Hcy.
    destruct (Hcoll i x Hx) as (ci & _ & Hi & _ & _ & Hci & _).
    destruct (Hcoll j y Hy) as (cj & _ & Hj & _ & _ & Hcj & _).
    rewrite Hci in Hcx. rewrite Hcj in Hcy.
    injection Hcx as <-. injection Hcy as <-.
    by apply (Hsorted i j).
  - apply NoDup_alt. intros i j x Hi Hj.
    destruct (Hcoll i x Hi) as (ci & _ & Hci & _ & _ & Hmi & _).
    destruct (Hcoll j x Hj) as (cj & _ & Hcj & _ & _ & Hmj & _).
    assert (ci = cj) as -> by congruence.
    destruct (Nat.lt_trichotomy i j) as [H|[H|H]]; [|done|].
    + pose proof (Hsorted i j cj cj H Hci Hcj) as Hlt.
      by rewrite lt_irreflexive in Hlt.
    + pose proof (Hsorted j i cj cj H Hcj Hci) as Hlt.
      by rewrite lt_irreflexive in Hlt.
Qed.

Lemma range_yields_every_string_between_once_witness :
  match CharacterMap.member CharacterMap.ASCII_DIGITS with
  | Ok m =>
      exists elements,
        _Range.__iter__ (length elements)
          {| __class__ := StringRange;
             _start := str "8"; _end := str "05" |} m
        = (Ok (Some elements), m)
        /\ (forall x, x ∈ elements -> exists w, x = text StringRange w)
        /\ (forall w,
              text StringRange w ∈ elements
              <-> exists c,
                    _is_valid_endpoint (text StringRange w) m = (Ok true, m)
                    /\ _make_collection (text StringRange w) m = (Ok c, m)
                    /\ _IncrementableIndexCollection.__le__
                         {| _IncrementableIndexCollection._inverted_indices :=
                              [8];
                            _IncrementableIndexCollection._base := 10 |} c
                       = true
                    /\ _IncrementableIndexCollection.__le__ c
                         {| _IncrementableIndexCollection._inverted_indices :=
                              [5; 0];
                            _IncrementableIndexCollection._base := 10 |}
                       = true)
        /\ (forall (i j : nat) x y cx cy,
              (i < j)%nat ->
              elements !! i = Some x -> elements !! j = Some y ->
              fst (_make_collection x m) = Ok cx ->
              fst (_make_collection y m) = Ok cy ->
              _IncrementableIndexCollection.__lt__ cx cy = true)
        /\ NoDup elements
  | Raise _ => False
  end.
Proof.
  assert (match CharacterMap.member CharacterMap.ASCII_DIGITS with
          | Ok _ => true
          | Raise _ => false
          end = true) as Hbuilt by by vm_compute.
  destruct (CharacterMap.member CharacterMap.ASCII_DIGITS) as [m|] eqn:E;
    [clear Hbuilt | done].
  apply (range_yields_every_string_between_once
           StringRange m (code_points "8") (code_points "05")
           {| _IncrementableIndexCollection._inverted_indices := [8];
              _IncrementableIndexCollection._base := 10 |}
           {| _IncrementableIndexCollection._inverted_indices := [5; 0];
              _IncrementableIndexCollection._base := 10 |}).
  - apply (reachable_init
             [{| Interval.__class__ := Interval.CharacterInterval;
                 Interval.start := str "0"; Interval.end_ := str "9" |}]
             None None m); [repeat constructor | exact E].
  - by apply (built_property _ m _maps_populated true E).
  - by apply (built_property _ m
                (fun m => fst (_is_valid_endpoint (str "8") m)) _ E).
  - by apply (built_property _ m
                (fun m => fst (_is_valid_endpoint (str "05") m)) _ E).
  - by apply (built_property _ m
                (fun m => fst (_make_collection (str "8") m)) _ E).
  - by apply (built_property _ m
                (fun m => fst (_make_collection (str "05") m)) _ E).
  - reflexivity.
Defined.

End RangeContents.

(** ** Pre-built members *)

Section PrebuiltMembers.

Import IndexMap.

(** X27: the pre-built members of [CharacterMap] and [ByteMap] that are
    lists of intervals are all built without error; they have 26, 26,
    52, 10, 16, 16, 36 and 36 elements, and the last index of each
    holds the last symbol of its last interval, whose index it is. *)
Theorem prebuilt_members_are_built :
  Forall
    (fun '(characters, bytes_, size, last_symbol) =>
       on (CharacterMap.member characters)
          (let! self := get in
           let! n := lift (IndexMap.__len__ self) in
           let! last_char := IndexMap.__getitem__ (PyInt (n - 1)) in
           let! index := IndexMap.__getitem__ last_char in
           ret (n, last_char, index))
       = Ok (size, chr last_symbol, PyInt (size - 1))
       /\ on (ByteMap.member bytes_)
            (let! self := get in
             let! n := lift (IndexMap.__len__ self) in
             let! last_byte := IndexMap.__getitem__ (PyInt (n - 1)) in
             let! index := IndexMap.__getitem__ last_byte in
             ret (n, last_byte, index))
          = Ok (size, to_bytes last_symbol, PyInt (size - 1)))
    [ (CharacterMap.ASCII_LOWERCASE, ByteMap.ASCII_LOWERCASE, 26, 122);
      (CharacterMap.ASCII_UPPERCASE, ByteMap.ASCII_UPPERCASE, 26, 90);
      (CharacterMap.ASCII_LETTERS, ByteMap.ASCII_LETTERS, 52, 90);
      (CharacterMap.ASCII_DIGITS, ByteMap.ASCII_DIGITS, 10, 57);
      (CharacterMap.LOWERCASE_HEX_DIGITS, ByteMap.LOWERCASE_HEX_DIGITS,
       16, 102);
      (CharacterMap.UPPERCASE_HEX_DIGITS, ByteMap.UPPERCASE_HEX_DIGITS,
       16, 70);
      (CharacterMap.LOWERCASE_BASE_36, ByteMap.LOWERCASE_BASE_36, 36, 122);
      (CharacterMap.UPPERCASE_BASE_36, ByteMap.UPPERCASE_BASE_36, 36, 90) ].
Proof. repeat constructor; by vm_compute. Qed.

End PrebuiltMembers.

Section PrebuiltOrder.

Import IndexMap.

Lemma ascending_two i j :
  lt (Interval.end_ i) (Interval.start j) = Ok true -> ascending [i; j].
Proof.
  intros H [|[|a]] [|[|[|b]]] x y Hab Ha Hb; try done; try lia.
  by injection Ha as <-; injection Hb as <-.
Qed.

Lemma built_with (P : list Interval.Interval -> Prop) value intervals :
  intervals_of value = Ok intervals ->
  Forall valid intervals -> P intervals ->
  match IndexMap.__init__ intervals None None with
  | Ok _ => true
  | Raise _ => false
  end = true ->
  exists m,
    (let? intervals := intervals_of value in
     IndexMap.__init__ intervals None None) = Ok m
    /\ reachable m /\ _maps_populated m = true
    /\ P (_intervals m).
Proof.
  intros -> Hv Ha Hb. cbn [bind].
  destruct (IndexMap.__init__ intervals None None) as [m|] eqn:E; [|done].
  exists m. split; [done|]. split; [by eapply reachable_init|].
  destruct (init_ok_inv _ _ _ _ E) as (_ & _ & -> & _ & _ & -> & _).
  done.
Qed.

(** X28: every pre-built member that is a list of intervals, of
    [CharacterMap] and of [ByteMap], lists its intervals in ascending
    order, but for [ASCII_LETTERS], which has the lowercase letters
    before the uppercase ones. *)
Theorem prebuilt_members_in_ascending_order :
  Forall
    (fun member =>
       exists m,
         member = Ok m /\ reachable m /\ _maps_populated m = true
         /\ ascending (_intervals m))
    [ CharacterMap.member CharacterMap.ASCII_LOWERCASE;
      CharacterMap.member CharacterMap.ASCII_UPPERCASE;
      CharacterMap.member CharacterMap.ASCII_DIGITS;
      CharacterMap.member CharacterMap.LOWERCASE_HEX_DIGITS;
      CharacterMap.member CharacterMap.UPPERCASE_HEX_DIGITS;
      CharacterMap.member CharacterMap.LOWERCASE_BASE_36;
      CharacterMap.member CharacterMap.UPPERCASE_BASE_36;
      ByteMap.member ByteMap.ASCII_LOWERCASE;
      ByteMap.member ByteMap.ASCII_UPPERCASE;
      ByteMap.member ByteMap.ASCII_DIGITS;
      ByteMap.member ByteMap.LOWERCASE_HEX_DIGITS;
      ByteMap.member ByteMap.UPPERCASE_HEX_DIGITS;
      ByteMap.member ByteMap.LOWERCASE_BASE_36;
      ByteMap.member ByteMap.UPPERCASE_BASE_36 ]
  /\ Forall
       (fun member =>
          exists m,
            member = Ok m /\ reachable m /\ _maps_populated m = true
            /\ ~ ascending (_intervals m))
       [ CharacterMap.member CharacterMap.ASCII_LETTERS;
         ByteMap.member ByteMap.ASCII_LETTERS ].
Proof.
  assert (Hnot : forall i j, lt (Interval.end_ i) (Interval.start j)
                             = Ok false -> ~ ascending [i; j]).
  { intros i j H Ha.
    specialize (Ha 0%nat 1%nat i j ltac:(lia) eq_refl eq_refl). congruence. }
  split.
  - repeat apply Forall_cons_2; try apply Forall_nil_2;
      (eapply (built_with ascending);
       [reflexivity
       |repeat constructor
       |first [apply ascending_singleton | by apply ascending_two]
       |by vm_compute]).
  - repeat apply Forall_cons_2; try apply Forall_nil_2;
      (eapply (built_with (fun intervals => ~ ascending intervals));
       [reflexivity
       |repeat constructor
       |by apply Hnot
       |by vm_compute]).
Qed.

End PrebuiltOrder.
